(** * Snapshot commands and access-list tracer of erigon: a shallow embedding

    Sources covered:
    - [turbo/app/snapshots.go]: the [compress], [uncompress], [retire] and
      [create] sub-commands of [erigon snapshots];
    - [core/vm/access_list_tracer.go]: the [accessList] accumulator and the
      [AccessListTracer] hooks.

    Unsigned 64-bit integers are values of [N] with the wrap-around written
    out, bytes are [Byte.byte], Go maps are [gmap]/[gset], Go errors are
    [option err] with [None] for [nil]. *)

From Stdlib Require Import NArith ZArith Lia List Bool String.
From Stdlib.Strings Require Import Byte.
From stdpp Require Import base decidable option list gmap sets strings.

#[local] Set Warnings "-clear-no-such-hyp".
Local Open Scope N_scope.

(** ** Go basics shared by both files *)
Module Go.

(** Error values that the modelled code creates, wraps or receives. *)
Inductive err : Type :=
| EOF                                   (* io.EOF *)
| ErrUnexpectedEOF                      (* io.ErrUnexpectedEOF *)
| errOverflow                           (* encoding/binary: varint overflows a 64-bit integer *)
| ErrCanceled                           (* ctx.Err() once the context is done *)
| Errorf (msg : string) (args : list N) (* fmt.Errorf(msg, args...) *)
| ErrorfW (msg : string) (cause : err)  (* fmt.Errorf("...: %w", cause) *)
| ErrExt (code : N).                    (* an error value produced by an external package *)

(** A Go [error]: [None] is [nil]. *)
Abbreviation error := (option err).

(** [errors.Is(e, io.EOF)]: [e] or one of the errors it wraps is [io.EOF]. *)
Fixpoint is_EOF (e : err) : bool :=
  match e with
  | EOF => true
  | ErrorfW _ c => is_EOF c
  | _ => false
  end.

Definition uint64_mod : N := 2 ^ 64.

(** Arithmetic of [uint64]. *)
Definition add64 (a b : N) : N := (a + b) mod uint64_mod.
Definition sub64 (a b : N) : N := (a + uint64_mod - b mod uint64_mod) mod uint64_mod.
Definition shl64 (a s : N) : N := N.shiftl a s mod uint64_mod.

(** [int(l)] for [l : uint64] on a 64-bit platform: two's complement. *)
Definition int_of_uint64 (l : N) : Z :=
  if l <? 2 ^ 63 then Z.of_N l else (Z.of_N l - 2 ^ 64)%Z.

(** [byte(x)] for [x : uint64]: the low eight bits. *)
Definition byte_of_N (x : N) : byte :=
  match Byte.of_N (x mod 256) with
  | Some b => b
  | None => Byte.x00
  end.

(** [uint64(len(s))]: the length, an [int], converted to [uint64]. *)
Definition len64 {A} (s : list A) : N := N.of_nat (length s) mod uint64_mod.

(** The value handed to [panic]: a string (also used for run-time errors)
    or an error. *)
Inductive panic_value : Type :=
| PanicStr (msg : string)
| PanicErr (e : err).

(** What a call can do besides returning: panic, or (for the fuelled model
    of an unbounded [for] loop) still be running when the fuel ends. *)
Inductive res (A : Type) : Type :=
| Val (a : A)
| Panicked (v : panic_value)
| OutOfFuel.
Arguments Val {A} a.
Arguments Panicked {A} v.
Arguments OutOfFuel {A}.

End Go.
Export Go.

(** ** [encoding/binary] varints and [io.ReadFull]

    Go's standard library is not part of the repository; the three functions
    the commands call are transcribed from it. A reader ([bufio.Reader] over
    standard input) is the list of bytes not yet consumed. *)
Module binary.

Definition MaxVarintLen64 : nat := 10.

(** [PutUvarint(buf, x)]: the loop [for x >= 0x80 { buf[i] = byte(x) | 0x80;
    x >>= 7; i++ }; buf[i] = byte(x)]. The result is [buf[:n]]. [room] is
    the number of free cells of [buf]; writing past it panics in Go, which
    the model marks by stopping. *)
Fixpoint PutUvarint_from (room : nat) (x : N) : list byte :=
  match room with
  | O => []
  | S room' =>
      if 128 <=? x
      then byte_of_N (N.lor (x mod 256) 128) :: PutUvarint_from room' (N.shiftr x 7)
      else [byte_of_N x]
  end.

Definition PutUvarint (x : N) : list byte := PutUvarint_from MaxVarintLen64 x.

(** The value of a continuation byte, [byte(x) | 0x80]. *)
Definition cont_byte (x : N) : N := N.lor (x mod 2 ^ 8) (2 ^ 7).

(** [ReadUvarint(r)]: iteration [i] of [for i := 0; i < MaxVarintLen64; i++],
    with [left] iterations to go, accumulator [x] and shift [s]. Returns
    the value, the error and the rest of the reader. *)
Fixpoint ReadUvarint_from (left : nat) (i x s : N) (r : list byte)
  : N * error * list byte :=
  match left with
  | O => (x, Some errOverflow, r)
  | S left' =>
      match r with
      | [] => (x, Some (if 0 <? i then ErrUnexpectedEOF else EOF), [])
      | c :: r' =>
          let b := Byte.to_N c in
          if b <? 128 then
            if (i =? N.of_nat MaxVarintLen64 - 1) && (1 <? b)
            then (x, Some errOverflow, r')
            else (N.lor x (shl64 b s), None, r')
          else ReadUvarint_from left' (i + 1) (N.lor x (shl64 (N.land b 127) s)) (s + 7) r'
      end
  end.

Definition ReadUvarint (r : list byte) : N * error * list byte :=
  ReadUvarint_from MaxVarintLen64 0 0 0 r.

End binary.

Module io.

(** [io.ReadFull(r, buf)] with [len(buf) = l]: exactly [l] bytes or an
    error, [EOF] only when nothing at all could be read. *)
Definition ReadFull (l : N) (r : list byte) : list byte * error * list byte :=
  let n := N.to_nat l in
  if (n <=? length r)%nat then (take n r, None, drop n r)
  else match r with
       | [] => ([], Some EOF, [])
       | _ => (r, Some ErrUnexpectedEOF, [])
       end.

End io.

(** ** The [compress] and [uncompress] commands ([turbo/app/snapshots.go]) *)
Module compress.

(** Modelled from the spec: the word codec of package [erigon-lib/compress]
    is an external collaborator (spec 4.1). A compressor is bound to an
    output path and ingests words; [Compress] seals what was ingested into
    an immutable segment file; a decompressor opened on a segment file
    serves the decoded words front to back. Every operation that returns
    an [error] in Go may fail here. *)
Class Codec : Type := {
  Compressor : Type;
  SegFile : Type;
  Decompressor : Type;
  NewCompressor : string -> err + Compressor;
  AddWord : Compressor -> list byte -> err + Compressor;
  Compress : Compressor -> err + SegFile;
  NewDecompressor : SegFile -> err + Decompressor;
  (** the sequence [g.HasNext()]/[g.Next()] walks through *)
  words : Decompressor -> list (list byte);
}.

(** Feeding a sequence of words, stopping at the first failure. *)
Fixpoint AddWords `{Codec} (c : Compressor) (ws : list (list byte)) : err + Compressor :=
  match ws with
  | [] => inr c
  | w :: ws' =>
      match AddWord c w with
      | inl e => inl e
      | inr c' => AddWords c' ws'
      end
  end.

(** Modelled from the spec: the contract of the codec (spec 4.1): a file
    sealed after ingesting [ws] decodes to exactly [ws]. *)
Class CodecContract (C : Codec) : Prop :=
  codec_contract : forall path ws c0 c F d,
    NewCompressor path = inr c0 ->
    AddWords c0 ws = inr c ->
    Compress c = inr F ->
    NewDecompressor F = inr d ->
    words d = ws.

(** The simplest codec: a segment file is the list of its words and
    nothing ever fails. *)
Definition ListCodec : Codec := {|
  Compressor := list (list byte);
  SegFile := list (list byte);
  Decompressor := list (list byte);
  NewCompressor := fun _ => inr [];
  AddWord := fun c w => inr (c ++ [w]);
  Compress := fun c => inr c;
  NewDecompressor := fun F => inr F;
  words := fun d => d;
|}.

End compress.

Module app.
Import binary io compress.

Section Commands.
Context {C : Codec}.

(** The files present on disk, by path. *)
Abbreviation Disk := (gmap string SegFile).

(** [ctx.Done()] polled for the [k]-th time (counting from 0) is ready. *)
Variable ctxDone : nat -> bool.

Definition expecting_seg : err := Errorf "expecting .seg file path" [].

(** How the body of the [for] loop of [doCompress] leaves the loop. *)
Inductive loop_exit : Type :=
| Returned (e : error)                 (* a [return] inside the body *)
| CondFailed (e : err) (c : Compressor) (* the condition [err == nil] failed *).

(** The loop [for l, err = binary.ReadUvarint(r); err == nil; l, err =
    binary.ReadUvarint(r)] of [doCompress]. [k] counts the iterations,
    [bufcap] is [cap(buf)], [r] the unread part of standard input. Each
    iteration consumes at least one byte, which bounds the fuel. *)
Fixpoint doCompress_loop (fuel : nat) (k : nat) (c : Compressor) (bufcap : Z)
         (r : list byte) : res loop_exit :=
  match fuel with
  | O => OutOfFuel
  | S fuel' =>
      let '(l, err, r1) := ReadUvarint r in
      match err with
      | Some e => Val (CondFailed e c)
      | None =>
          (* if cap(buf) < int(l) { buf = make([]byte, l) } else { buf = buf[:l] } *)
          let grow := (bufcap <? int_of_uint64 l)%Z in
          if negb grow && negb (Z.of_N l <=? bufcap)%Z
          then Panicked (PanicStr "slice bounds out of range")
          else
            let bufcap' := if grow then Z.of_N l else bufcap in
            let '(buf, err, r2) := ReadFull l r1 in
            match err with
            | Some e => Val (Returned (Some e))
            | None =>
                match AddWord c buf with
                | inl e => Val (Returned (Some e))
                | inr c' =>
                    if ctxDone k then Val (Returned (Some ErrCanceled))
                    else doCompress_loop fuel' (S k) c' bufcap' r2
                end
            end
      end
  end.

(** [doCompress]: [args] are the positional arguments, [stdin] the bytes
    on standard input. Returns the error and the disk afterwards. *)
Definition doCompress (args : list string) (stdin : list byte) (disk : Disk)
  : res (error * Disk) :=
  match args with
  | [f] =>
      match NewCompressor f with
      | inl e => Val (Some e, disk)
      | inr c =>
          match doCompress_loop (S (length stdin)) 0 c (2 ^ 20)%Z stdin with
          | OutOfFuel => OutOfFuel
          | Panicked v => Panicked v
          | Val (Returned e) => Val (e, disk)
          | Val (CondFailed e c') =>
              (* if err != nil && !errors.Is(err, io.EOF) { return err } *)
              if negb (is_EOF e) then Val (Some e, disk)
              else match Compress c' with
                   | inl e' => Val (Some e', disk)
                   | inr F => Val (None, <[f := F]> disk)
                   end
          end
      end
  | _ => Val (Some expecting_seg, disk)
  end.

(** The loop [for g.HasNext()] of [doUncompress]: [g] is what the getter
    has not served yet, [wr] what was written to standard output. *)
Fixpoint doUncompress_loop (k : nat) (g : list (list byte)) (wr : list byte)
  : error * list byte :=
  match g with
  | [] => (None, wr)
  | buf :: g' =>
      let numBuf := PutUvarint (len64 buf) in
      let wr := wr ++ numBuf ++ buf in
      if ctxDone k then (Some ErrCanceled, wr)
      else doUncompress_loop (S k) g' wr
  end.

Definition ErrNotExist : err := ErrExt 2.

(** [doUncompress]: returns the error and the bytes written to standard
    output (the deferred [wr.Flush()] included). *)
Definition doUncompress (args : list string) (disk : Disk) : error * list byte :=
  match args with
  | [f] =>
      match disk !! f with
      | None => (Some ErrNotExist, [])
      | Some F =>
          match NewDecompressor F with
          | inl e => (Some e, [])
          | inr d => doUncompress_loop 0 (words d) []
          end
      end
  | _ => (Some expecting_seg, [])
  end.

(** The stream format of both commands: each record as the uvarint of
    its length followed by its bytes. *)
Definition stream (records : list (list byte)) : list byte :=
  concat (map (fun w => PutUvarint (len64 w) ++ w) records).

End Commands.
End app.

(** ** External collaborators of the [retire] and [create] commands

    The hot store, the block retirer, the snapshot set and the history
    aggregator live in other packages. A command is modelled as a function
    of an abstract world that answers each external call; the calls, with
    their answers, are recorded in the order the command makes them. *)
Module world.

Inductive dirname : Type := Snap | SnapHistory | Tmp | Chaindata.

Inductive stage : Type := Execution | Senders.

(** An external call, indexed by the type of its answer. For the two
    [Must...] functions the answer is the value they panic with, if any. *)
Inductive call : Type -> Type :=
| MustExist (d : dirname) : call (option panic_value)  (* dir.MustExist(d) *)
| MustOpen : call (option panic_value)         (* mdbx.NewMDBX(..).Path(dirs.Chaindata).MustOpen() *)
| DbClose : call unit                          (* db.Close() *)
| ReopenWithDB : call error                    (* snapshots.ReopenWithDB(db) *)
| ReopenFolder : call error                    (* allSnapshots.ReopenFolder() *)
| NewAggregator22 : call error                 (* libstate.NewAggregator22(..) *)
| AggReopenFiles : call error                  (* agg.ReopenFiles() *)
| AggSetWorkers : call unit                    (* agg.SetWorkers(..) *)
| RetireBlocks (from to : N) : call error      (* br.RetireBlocks(ctx, from, to, lvl) *)
| BeginRw : call error                         (* db.Update: opening the read-write transaction *)
| Commit : call error                          (* db.Update: tx.Commit() *)
| Rollback : call unit                         (* db.Update / db.View: tx.Rollback() *)
| BeginRo : call error                         (* db.View: opening the read-only transaction *)
| SnapshotsFiles : call (list string)          (* br.Snapshots().Files(), allSnapshots.Files() *)
| AggFiles : call (list string)                (* agg.Files() *)
| WriteSnapshots (snaps aggs : list string) : call error (* rawdb.WriteSnapshots(tx, snaps, aggs) *)
| PruneAncientBlocks : call error              (* br.PruneAncientBlocks(tx) *)
| HistoryV3FromDB : call bool                  (* kvcfg.HistoryV3.FromDB(db) *)
| AggSetTx : call unit                         (* agg.SetTx(tx) *)
| AggPrune (limit : N) : call error            (* agg.Prune(ctx, limit) *)
| BuildMissedIndices : call error              (* agg.BuildMissedIndices(ctx, sem) *)
| GetStageProgress (s : stage) : call (N * error) (* stages.GetStageProgress(tx, s) *)
| TxNumsMax (blockNum : N) : call (N * error)  (* rawdb.TxNums.Max(tx, blockNum) *)
| AggSetTxNum (txNum : N) : call unit          (* agg.SetTxNum(txNum) *)
| BuildFiles : call error                      (* agg.BuildFiles(ctx, db) *)
| MergeLoop : call error                       (* agg.MergeLoop(ctx, workers) *)
| CursorBlockBody : call error                 (* tx.Cursor(kv.BlockBody) *)
| CursorLast : call (list byte * error)        (* c.Last(): the key and the error *)
| DumpBlocks (from to blocksPerFile : N) : call error (* snapshotsync.DumpBlocks(..) *)
| LogInfo (msg : string) : call unit           (* log.Info(msg, ..) *)
| LogError (e : err) : call unit.              (* log.Error("Error", "err", e) *)

(** One recorded call with its answer. *)
Inductive entry : Type :=
| Entry {R : Type} (c : call R) (r : R).

(** The answer of a call that goes well: no error, no panic, nothing on
    disk yet, history enabled. *)
Definition ok_answer {R} (c : call R) : R :=
  match c in call R return R with
  | MustExist _ | MustOpen => None
  | DbClose | AggSetWorkers | Rollback | AggSetTx | AggSetTxNum _
  | LogInfo _ | LogError _ => tt
  | ReopenWithDB | ReopenFolder | NewAggregator22 | AggReopenFiles
  | RetireBlocks _ _ | BeginRw | Commit | BeginRo | WriteSnapshots _ _
  | PruneAncientBlocks | AggPrune _ | BuildMissedIndices | BuildFiles
  | MergeLoop | CursorBlockBody | DumpBlocks _ _ _ => None
  | SnapshotsFiles | AggFiles => []
  | HistoryV3FromDB => true
  | GetStageProgress _ | TxNumsMax _ => (0, None)
  | CursorLast => ([], None)
  end.

(** Whether an answer reports success. Answers that carry no error
    always do. *)
Definition succeeded {R} (c : call R) : R -> Prop :=
  match c in call R return R -> Prop with
  | MustExist _ | MustOpen => fun r => r = None
  | ReopenWithDB | ReopenFolder | NewAggregator22 | AggReopenFiles
  | RetireBlocks _ _ | BeginRw | Commit | BeginRo | WriteSnapshots _ _
  | PruneAncientBlocks | AggPrune _ | BuildMissedIndices | BuildFiles
  | MergeLoop | CursorBlockBody | DumpBlocks _ _ _ => fun r => r = None
  | GetStageProgress _ | TxNumsMax _ => fun r => r.2 = None
  | CursorLast => fun r => r.2 = None
  | _ => fun _ => True
  end.

Section Monad.
(** The world and how it answers. *)
Context {W : Type}.
Variable ext : forall R, call R -> W -> R * W.

(** A computation: from a world to how it ended, the world afterwards
    and the calls it made. *)
Definition M (A : Type) : Type := W -> res A * W * list entry.

Definition ret {A} (a : A) : M A := fun w => (Val a, w, []).

Definition bind {A B} (m : M A) (f : A -> M B) : M B := fun w =>
  match m w with
  | (Val a, w1, t1) => let '(r, w2, t2) := f a w1 in (r, w2, t1 ++ t2)
  | (Panicked v, w1, t1) => (Panicked v, w1, t1)
  | (OutOfFuel, w1, t1) => (OutOfFuel, w1, t1)
  end.

(** Making an external call. *)
Definition invoke {R} (c : call R) : M R := fun w =>
  let '(r, w1) := ext R c w in (Val r, w1, [Entry c r]).

Definition panic {A} (v : panic_value) : M A := fun w => (Panicked v, w, []).

Definition out_of_fuel {A} : M A := fun w => (OutOfFuel, w, []).

(** [defer d; body]: [d] runs when [body] is left, by return or panic. *)
Definition defer {A} (d : M unit) (body : M A) : M A := fun w =>
  let '(r, w1, t1) := body w in
  let '(_, w2, t2) := d w1 in (r, w2, t1 ++ t2).

(** Modelled from the spec: the hot store's scoped transactions (spec
    2, "Hot Store Transaction Capability") are those of package
    [erigon-lib/kv/mdbx]. [db.Update(ctx, f)] opens a read-write
    transaction, defers its rollback, runs [f] and commits when [f]
    returned nil; the deferred rollback of a committed transaction does
    nothing. *)
Definition Update (f : M error) : M error :=
  bind (invoke BeginRw) (fun e =>
  match e with
  | Some _ => ret e
  | None =>
      defer (invoke Rollback)
        (bind f (fun e =>
         match e with
         | Some _ => ret e
         | None => invoke Commit
         end))
  end).

(** [db.View(ctx, f)]: a read-only transaction, rolled back on exit. *)
Definition View {A} (f : M (A * error)) (zero : A) : M (A * error) :=
  bind (invoke BeginRo) (fun e =>
  match e with
  | Some _ => ret (zero, e)
  | None => defer (invoke Rollback) f
  end).

(** [m], started in [w], ends with [r] after the calls [t]; the world
    it leaves is [after m w]. *)
Definition ends {A} (m : M A) (w : W) (r : res A) (t : list entry) : Prop :=
  (m w).1.1 = r /\ (m w).2 = t.

Definition after {A} (m : M A) (w : W) : W := (m w).1.2.

(** Every call goes well, whenever it is made. *)
Definition all_succeed : Prop :=
  forall R (c : call R) w, succeeded c (ext R c w).1.

End Monad.

(** The world in which every call goes well. *)
Definition ok_world : forall R, call R -> unit -> R * unit :=
  fun R c w => (ok_answer c, w).

(** The world in which the dump of the blocks fails and every other call
    goes well. *)
Definition dump_fails : forall R, call R -> unit -> R * unit :=
  fun R c w =>
    match c in call R return R * unit with
    | DumpBlocks _ _ _ => (Some (ErrExt 1), w)
    | c' => (ok_answer c', w)
    end.

End world.

(** ** The [retire] and [create] commands ([turbo/app/snapshots.go]) *)
Module snapshots.
Import world.

(** [binary.BigEndian.Uint64(b)]: the first eight bytes, most significant
    first; [None] where Go panics because [b] is shorter. *)
Definition BigEndian_Uint64 (b : list byte) : option N :=
  match b with
  | b0 :: b1 :: b2 :: b3 :: b4 :: b5 :: b6 :: b7 :: _ =>
      Some (fold_left (fun acc c => acc * 256 + Byte.to_N c)
                      [b0; b1; b2; b3; b4; b5; b6; b7] 0)
  | _ => None
  end.

Section Commands.
Context {W : Type}.
Variable ext : forall R, call R -> W -> R * W.

(** Constants of packages [params] and [ethconfig], which are not part
    of the sources at hand: the reorg safety margin and the width of an
    aggregation step. *)
Variable FullImmutabilityThreshold : N.
Variable HistoryV3AggregationStep : N.

Local Abbreviation M := (@M W).
Local Abbreviation invoke := (invoke ext).
Local Abbreviation Update := (Update ext).
Local Abbreviation View := (View ext).
Local Notation "x <- m ;; k" := (bind m (fun x => k))
  (at level 100, m at next level, right associativity).
Local Notation "m ;; k" := (bind m (fun _ => k))
  (at level 100, right associativity).
(** [if err := m; err != nil { return err }] followed by [k]. *)
Local Notation "'check' m ;; k" :=
  (bind m (fun e : error => match e with Some _ => ret e | None => k end))
  (at level 100, m at next level, right associativity).

(** The loop [for j := 0; j < 10_000; j++] inside the transaction of a
    retire step, with [n] iterations to go. *)
Fixpoint prune_blocks (n : nat) : M error :=
  match n with
  | O => ret None
  | S n' => check invoke PruneAncientBlocks ;; prune_blocks n'
  end.

(** The transaction of a retire step: metadata, then the prune loop. *)
Definition retire_step_tx : M error :=
  Update (
    snaps <- invoke SnapshotsFiles ;;
    aggs <- invoke AggFiles ;;
    check invoke (WriteSnapshots snaps aggs) ;;
    invoke (LogInfo "prune blocks from db") ;; (* the message, less its final newline *)
    prune_blocks (N.to_nat 10000)).

(** The loop [for i := from; i < to; i += every] of [doRetireCommand].
    With [every = 0] it never ends, hence the fuel: one unit per
    iteration. *)
Fixpoint retire_loop (fuel : nat) (i to every : N) : M error :=
  if i <? to then
    match fuel with
    | O => out_of_fuel
    | S fuel' =>
        e <- invoke (RetireBlocks i (add64 i every)) ;;
        match e with
        | Some x => panic (PanicErr x)
        | None =>
            check retire_step_tx ;;
            retire_loop fuel' (add64 i every) to every
        end
    end
  else ret None.

(** The loop [for i := 0; i < 1024; i++] that prunes state history, one
    transaction per iteration, with [n] iterations to go. *)
Fixpoint prune_history (n : nat) : M error :=
  match n with
  | O => ret None
  | S n' =>
      check Update (invoke AggSetTx ;; invoke (AggPrune HistoryV3AggregationStep)) ;;
      prune_history n'
  end.

(** The read-only transaction that sets the aggregator's [txNum]. The
    error of [GetStageProgress] is dropped by the source. *)
Definition set_tx_num : M error :=
  r <- View (
    progress <- invoke (GetStageProgress Execution) ;;
    let execProgress := progress.1 in
    max <- invoke (TxNumsMax execProgress) ;;
    let '(lastTxNum, err) := max in
    match err with
    | Some _ => ret (tt, err)
    | None => invoke (AggSetTxNum lastTxNum) ;; ret (tt, None)
    end) tt ;;
  ret r.2.

(** What [doRetireCommand] does once the history flag was found set. *)
Definition retire_history : M error :=
  invoke (LogInfo "Prune state history") ;;
  check prune_history 1024 ;;
  invoke (LogInfo "Work on state history snapshots") ;;
  check invoke BuildMissedIndices ;;
  check set_tx_num ;;
  invoke (LogInfo "Build state history snapshots") ;;
  check invoke BuildFiles ;;
  check invoke MergeLoop ;;
  invoke (LogInfo "Prune state history") ;;
  check prune_history 1024 ;;
  ret None.

Definition doRetireCommand (fuel : nat) (from to every : N) : M error :=
  defer (invoke (LogInfo "Retire Done")) (
    opened <- invoke MustOpen ;;
    match opened with
    | Some v => panic v
    | None =>
        defer (invoke DbClose) (
          check invoke ReopenWithDB ;;
          check invoke NewAggregator22 ;;
          check invoke AggReopenFiles ;;
          invoke AggSetWorkers ;;
          invoke (LogInfo "Params") ;;
          check retire_loop fuel from to every ;;
          history <- invoke HistoryV3FromDB ;;
          if negb history then ret None else retire_history)
    end).

(** The closure [lastChunk] of [snapshotBlocks], run inside [db.View]:
    the value assigned to [last] and the error. A key shorter than eight
    bytes or a zero [blocksPerFile] panics. *)
Definition lastChunk (blocksPerFile : N) : M (N * error) :=
  e <- invoke CursorBlockBody ;;
  match e with
  | Some _ => ret (0, e)
  | None =>
      last <- invoke CursorLast ;;
      let '(k, e) := last in
      match e with
      | Some _ => ret (0, e)
      | None =>
          match BigEndian_Uint64 k with
          | None => panic (PanicStr "index out of range")
          | Some last =>
              let last := if FullImmutabilityThreshold <? last
                          then sub64 last FullImmutabilityThreshold else 0 in
              if blocksPerFile =? 0 then panic (PanicStr "integer divide by zero")
              else ret (sub64 last (last mod blocksPerFile), None)
          end
      end
  end.

(** [snapshotBlocks]. The upper bound [last] is a variable of the
    function that the closure assigns. *)
Definition snapshotBlocks (fromBlock toBlock blocksPerFile : N) : M error :=
  r <-
    (if 0 <? toBlock then ret (toBlock, None)
     else View (lastChunk blocksPerFile) 0) ;;
  let '(last, e) := r in
  match e with
  | Some _ => ret e
  | None =>
      invoke (LogInfo "Last body number") ;;
      e <- invoke (DumpBlocks fromBlock last blocksPerFile) ;;
      match e with
      | Some x => ret (Some (ErrorfW "DumpBlocks: %w" x))
      | None => ret None
      end
  end.

Definition too_small (segmentSize : N) : err :=
  Errorf "too small --segment.size %d" [segmentSize].

Definition must (c : call (option panic_value)) : M unit :=
  r <- invoke c ;;
  match r with
  | Some v => panic v
  | None => ret tt
  end.

Definition doSnapshotCommand (fromBlock toBlock segmentSize : N) : M error :=
  if segmentSize <? 1000 then ret (Some (too_small segmentSize))
  else
    must (MustExist Snap) ;;
    must (MustExist SnapHistory) ;;
    must (MustExist Tmp) ;;
    must MustOpen ;;
    defer (invoke DbClose) (
      e <- snapshotBlocks fromBlock toBlock segmentSize ;;
      match e with
      | Some x => invoke (LogError x)
      | None => ret tt
      end ;;
      check invoke ReopenFolder ;;
      check invoke NewAggregator22 ;;
      check invoke AggReopenFiles ;;
      invoke AggSetWorkers ;;
      Update (
        snaps <- invoke SnapshotsFiles ;;
        aggs <- invoke AggFiles ;;
        invoke (WriteSnapshots snaps aggs))).

End Commands.
End snapshots.

(** ** The access-list accumulator and tracer ([core/vm/access_list_tracer.go]) *)
Module vm.

(** The opcodes [CaptureState] looks at; the others are told apart by
    their code only. *)
Inductive OpCode : Type :=
| SLOAD | SSTORE
| EXTCODECOPY | EXTCODEHASH | EXTCODESIZE | BALANCE | SELFDESTRUCT
| DELEGATECALL | CALL | STATICCALL | CALLCODE
| OtherOp (code : N).

Section AccessList.
(** [common.Address] and [common.Hash] are fixed-size byte arrays: all
    that matters here is that they can be map keys. *)
Context `{Countable Address} `{Countable Hash}.

(** [accessListSlots] is [map[common.Hash]struct{}], a set of slots;
    [accessList] is [map[common.Address]accessListSlots]. *)
Abbreviation accessListSlots := (gset Hash).
Abbreviation accessList := (gmap Address (gset Hash)).

Definition newAccessList : accessList := ∅.

Definition addAddress (al : accessList) (address : Address) : accessList :=
  match al !! address with
  | Some _ => al
  | None => <[address := ∅]> al
  end.

(** [al[address][slot] = struct{}{}] after [al.addAddress(address)]: the
    slot set of [address] is there, so the write cannot hit a nil map. *)
Definition addSlot (al : accessList) (address : Address) (slot : Hash) : accessList :=
  let al := addAddress al address in
  match al !! address with
  | Some slots => <[address := {[slot]} ∪ slots]> al
  | None => al
  end.

(** A sequence of insertions: [(a, None)] stands for [addAddress(a)],
    [(a, Some s)] for [addSlot(a, s)]. *)
Definition insertion : Type := Address * option Hash.

Definition insert (al : accessList) (op : insertion) : accessList :=
  match op with
  | (a, None) => addAddress al a
  | (a, Some s) => addSlot al a s
  end.

Definition insert_all (ops : list insertion) : accessList :=
  fold_left insert ops newAccessList.

(** Go visits the entries of a map in an unspecified order. The order of
    each kind of [range] loop is a parameter of the model. *)
Variable range_accounts : accessList -> list (Address * accessListSlots).
Variable range_slots : accessListSlots -> list Hash.

(** [other[addr]] where a missing key yields the nil map. *)
Definition index (al : accessList) (addr : Address) : accessListSlots :=
  default ∅ (al !! addr).

Definition present (al : accessList) (addr : Address) : bool :=
  bool_decide (is_Some (al !! addr)).

(** The body of the last loop of [equal], for one account of [al]. *)
Definition slots_match (other : accessList) (entry : Address * accessListSlots) : bool :=
  let '(addr, slots) := entry in
  let otherslots := index other addr in
  if negb (size slots =? size otherslots)%nat then false
  else if negb (forallb (fun hash => bool_decide (hash ∈ otherslots)) (range_slots slots))
  then false
  else forallb (fun hash => bool_decide (hash ∈ slots)) (range_slots otherslots).

Definition equal (al other : accessList) : bool :=
  if negb (size al =? size other)%nat then false
  else if negb (forallb (fun entry => present other entry.1) (range_accounts al)) then false
  else if negb (forallb (fun entry => present al entry.1) (range_accounts other)) then false
  else forallb (slots_match other) (range_accounts al).

(** [types.AccessTuple] and [types.AccessList]. *)
Record AccessTuple : Type := {
  tuple_Address : Address;
  StorageKeys : list Hash;
}.

(** [accessList()]: one tuple per account, in iteration order. *)
Definition to_AccessList (al : accessList) : list AccessTuple :=
  map (fun entry => {| tuple_Address := entry.1; StorageKeys := range_slots entry.2 |})
      (range_accounts al).

Record AccessListTracer : Type := {
  excl : gset Address;
  list : accessList;
}.

(** One turn of the loop [for _, al := range acl] of
    [NewAccessListTracer]. *)
Definition add_tuple (excl : gset Address) (list : accessList) (al : AccessTuple) : accessList :=
  let list := if decide (tuple_Address al ∈ excl) then list
              else addAddress list (tuple_Address al) in
  fold_left (fun list slot => addSlot list (tuple_Address al) slot) (StorageKeys al) list.

(** Whether a tuple puts its address on the list: the address is not
    excluded, or the tuple carries a storage key. *)
Definition lists (excl : gset Address) (al : AccessTuple) : Prop :=
  tuple_Address al ∉ excl \/ StorageKeys al <> [].

Definition NewAccessListTracer (acl : Datatypes.list AccessTuple) (from to : Address)
           (precompiles : Datatypes.list Address) : AccessListTracer :=
  let excl := fold_left (fun excl addr => {[addr]} ∪ excl) precompiles ({[from]} ∪ {[to]}) in
  {| excl := excl; list := fold_left (add_tuple excl) acl newAccessList |}.

(** What a hook leaves behind: the tracer and the returned value, or a
    panic. *)
Definition hook (A : Type) : Type := res (AccessListTracer * A).

Definition implement_me {A} : hook A := Panicked (PanicStr "implement me").

Definition CaptureAccountWrite (a : AccessListTracer) (account : Address) : hook error :=
  implement_me.

Definition CaptureTxStart (a : AccessListTracer) (gasLimit : N) : hook unit := Val (a, tt).

Definition CaptureTxEnd (a : AccessListTracer) (restGas : N) : hook unit := Val (a, tt).

(** What [CaptureState] reads of its scope: the stack, bottom first, as
    256-bit words, and the address of the running contract. *)
Record ScopeContext : Type := {
  Stack : Datatypes.list N;
  Contract_Address : Address;
}.

(** [common.Hash(x.Bytes32())] and [common.Address(x.Bytes20())]. *)
Variable Bytes32 : N -> Hash.
Variable Bytes20 : N -> Address.

(** [stack.Data[stack.Len()-k]] for [1 <= k <= stack.Len()]. *)
Definition peek (stack : Datatypes.list N) (k : nat) : N :=
  nth (length stack - k) stack 0.

Definition add_unless_excluded (a : AccessListTracer) (addr : Address) : AccessListTracer :=
  if decide (addr ∈ excl a) then a
  else {| excl := excl a; list := addAddress (list a) addr |}.

Definition CaptureState (a : AccessListTracer) (op : OpCode) (scope : ScopeContext)
  : hook unit :=
  let stack := Stack scope in
  let a :=
    match op with
    | SLOAD | SSTORE =>
        if (1 <=? length stack)%nat
        then {| excl := excl a;
                list := addSlot (list a) (Contract_Address scope) (Bytes32 (peek stack 1)) |}
        else a
    | _ => a
    end in
  let a :=
    match op with
    | EXTCODECOPY | EXTCODEHASH | EXTCODESIZE | BALANCE | SELFDESTRUCT =>
        if (1 <=? length stack)%nat then add_unless_excluded a (Bytes20 (peek stack 1)) else a
    | _ => a
    end in
  let a :=
    match op with
    | DELEGATECALL | CALL | STATICCALL | CALLCODE =>
        if (5 <=? length stack)%nat then add_unless_excluded a (Bytes20 (peek stack 2)) else a
    | _ => a
    end in
  Val (a, tt).

Definition CaptureFault (a : AccessListTracer) (op : OpCode) (scope : ScopeContext)
  : hook unit := Val (a, tt).

Definition CaptureEnd (a : AccessListTracer) (output : Datatypes.list byte) (usedGas : N)
           (err : error) : hook unit := Val (a, tt).

Definition CaptureStart (a : AccessListTracer) (from to : Address)
           (precompile create : bool) (input : Datatypes.list byte) (gas value : N)
           (code : Datatypes.list byte) : hook unit := implement_me.

Definition CaptureEnter (a : AccessListTracer) (typ : OpCode) (from to : Address)
           (precompile create : bool) (input : Datatypes.list byte) (gas value : N)
           (code : Datatypes.list byte) : hook unit := implement_me.

Definition CaptureExit (a : AccessListTracer) (output : Datatypes.list byte) (usedGas : N)
           (err : error) : hook unit := Val (a, tt).

Definition CaptureSelfDestruct (a : AccessListTracer) (from to : Address) (value : N)
  : hook unit := Val (a, tt).

Definition CaptureAccountRead (a : AccessListTracer) (account : Address) : hook error :=
  Val (a, None).

Definition AccessList (a : AccessListTracer) : Datatypes.list AccessTuple :=
  to_AccessList (list a).

Definition Equal (a other : AccessListTracer) : bool := equal (list a) (list other).

End AccessList.
End vm.

(** ** Reading traces *)
Module trace.
Import world.

(** The error with which one of the phases of [create] that follow the
    dump of the blocks failed, if the entry records such a failure. *)
Definition failed_phase (x : entry) : error :=
  match x with
  | Entry c r =>
      match c in call R return R -> error with
      | ReopenFolder | NewAggregator22 | AggReopenFiles
      | BeginRw | Commit | WriteSnapshots _ _ => fun r => r
      | _ => fun _ => None
      end r
  end.

(** The error of the first failed dump of blocks in a trace, with the
    calls made after it. *)
Fixpoint after_failed_dump (t : list entry) : option (err * list entry) :=
  match t with
  | [] => None
  | Entry c r :: t' =>
      match c in call R return R -> option (err * list entry) with
      | DumpBlocks _ _ _ => fun r =>
          match r with
          | Some e => Some (e, t')
          | None => after_failed_dump t'
          end
      | _ => fun _ => after_failed_dump t'
      end r
  end.

Definition is_PruneAncientBlocks (x : entry) : bool :=
  match x with Entry PruneAncientBlocks _ => true | _ => false end.

Definition is_BuildFiles (x : entry) : bool :=
  match x with Entry BuildFiles _ => true | _ => false end.

Definition is_RetireBlocks (x : entry) : bool :=
  match x with Entry (RetireBlocks _ _) _ => true | _ => false end.

Definition is_BeginRw (x : entry) : bool :=
  match x with Entry BeginRw _ => true | _ => false end.

Definition is_Rollback (x : entry) : bool :=
  match x with Entry Rollback _ => true | _ => false end.

(** The read-write transactions of a trace: for each [db.Update], the
    calls made from its opening to its deferred rollback, both left out.
    [open] holds the calls of the transaction being read, if any. *)
Fixpoint rw_transactions_from (open : option (list entry)) (t : list entry)
  : list (list entry) :=
  match t with
  | [] => []
  | x :: t' =>
      match open with
      | None =>
          if is_BeginRw x then rw_transactions_from (Some []) t'
          else rw_transactions_from None t'
      | Some body =>
          if is_Rollback x then body :: rw_transactions_from None t'
          else rw_transactions_from (Some (body ++ [x])) t'
      end
  end.

Definition rw_transactions (t : list entry) : list (list entry) :=
  rw_transactions_from None t.

(** How many batches of ancient blocks a transaction prunes. *)
Definition block_prunes (body : list entry) : nat :=
  length (List.filter is_PruneAncientBlocks body).

(** The read-write transactions of a trace that prune ancient blocks. *)
Definition block_prune_transactions (t : list entry) : list (list entry) :=
  List.filter (fun body => (0 <? block_prunes body)%nat) (rw_transactions t).

(** Pruning of ancient blocks is spread out: it takes several read-write
    transactions, none of which prunes more than one batch. *)
Definition block_prune_spread (t : list entry) : Prop :=
  (1 < length (block_prune_transactions t))%nat
  /\ Forall (fun body => (block_prunes body <= 1)%nat) (rw_transactions t).

(** The calls of one retire step on [i, i + every) when all goes well;
    [snaps] and [aggs] are the file lists found at that moment. *)
Definition retire_step_tx_body (snaps aggs : list string) : list entry :=
  [Entry SnapshotsFiles snaps; Entry AggFiles aggs;
   Entry (WriteSnapshots snaps aggs) None;
   Entry (LogInfo "prune blocks from db") tt]
  ++ repeat (Entry PruneAncientBlocks None) (N.to_nat 10000)
  ++ [Entry Commit None].

Definition retire_step (i every : N) (files : list string * list string) : list entry :=
  [Entry (RetireBlocks i (i + every)) None; Entry BeginRw None]
  ++ retire_step_tx_body files.1 files.2
  ++ [Entry Rollback tt].

(** The calls of consecutive retire steps from [i] on, one per element of
    [files]. *)
Fixpoint retire_steps (i every : N) (files : list (list string * list string))
  : list entry :=
  match files with
  | [] => []
  | f :: files' => retire_step i every f ++ retire_steps (i + every) every files'
  end.

(** The calls of one transaction that prunes state history. *)
Definition prune_history_tx_body (step : N) : list entry :=
  [Entry AggSetTx tt; Entry (AggPrune step) None; Entry Commit None].

Definition prune_history_tx (step : N) : list entry :=
  [Entry BeginRw None] ++ prune_history_tx_body step ++ [Entry Rollback tt].

Definition prune_history_phase (step : N) (n : nat) : list entry :=
  concat (repeat (prune_history_tx step) n).

(** The calls that set the aggregator's [txNum] from the progress [p] of
    the execution stage, [e] being the dropped error and [n] the highest
    transaction number of block [p]. *)
Definition watermark (p : N) (e : error) (n : N) : list entry :=
  [Entry BeginRo None; Entry (GetStageProgress Execution) (p, e);
   Entry (TxNumsMax p) (n, None); Entry (AggSetTxNum n) tt; Entry Rollback tt].

(** The number of sub-ranges of width [every] that start below [to]. *)
Definition subranges (from to every : N) : N := (to - from + every - 1) / every.

(** The bound the spec asks for when [to] is 0: the last key less the
    margin, or 0 where the margin is not exceeded, rounded down to a
    multiple of the segment size. *)
Definition selected_bound (margin last blocksPerFile : N) : N :=
  blocksPerFile * ((last - margin) / blocksPerFile).

(** What [retire] does before its first step and after its last phase. *)
Definition retire_prologue : list entry :=
  [Entry MustOpen None; Entry ReopenWithDB None; Entry NewAggregator22 None;
   Entry AggReopenFiles None; Entry AggSetWorkers tt; Entry (LogInfo "Params") tt].

Definition retire_epilogue : list entry :=
  [Entry DbClose tt; Entry (LogInfo "Retire Done") tt].

(** The phases of history aggregation, in the order the calls are made
    when all goes well. *)
Definition history_phases (step p n : N) : list entry :=
  [Entry (LogInfo "Prune state history") tt]
  ++ prune_history_phase step 1024
  ++ [Entry (LogInfo "Work on state history snapshots") tt;
      Entry BuildMissedIndices None]
  ++ watermark p None n
  ++ [Entry (LogInfo "Build state history snapshots") tt;
      Entry BuildFiles None; Entry MergeLoop None;
      Entry (LogInfo "Prune state history") tt]
  ++ prune_history_phase step 1024.

End trace.

(** ** Invariants of the tracer *)
Module tracer_inv.

Section Invariants.
Context `{Countable Address} `{Countable Hash}.

(** Every address of [al] is on [al'] with at least the slots it has on
    [al]. *)
Definition included (al al' : gmap Address (gset Hash)) : Prop :=
  forall addr slots, al !! addr = Some slots ->
    exists slots', al' !! addr = Some slots' /\ slots ⊆ slots'.

(** An excluded address is on the list only with a slot of its own. *)
Definition excluded_have_slots
    (a : vm.AccessListTracer (Address := Address) (Hash := Hash)) : Prop :=
  forall addr slots, vm.list a !! addr = Some slots -> addr ∈ vm.excl a -> slots <> ∅.

(** [a'] has the exclusion set of [a] and at least its list. *)
Definition grows (a a' : vm.AccessListTracer (Address := Address) (Hash := Hash)) : Prop :=
  vm.excl a' = vm.excl a /\ included (vm.list a) (vm.list a').

(** What [NewAccessListTracer] keeps of an entry of an access list: the
    address is not excluded, or it has a slot. *)
Definition kept (excl : gset Address) (entry : Address * gset Hash) : Prop :=
  entry.1 ∉ excl \/ entry.2 <> ∅.

End Invariants.
End tracer_inv.

(** ** What holds of every run of a command *)
Module runs.
Import world.

Section Runs.
Context {W : Type}.

(** However the world answers, [m] ends with a result and a trace that
    [Q] relates. *)
Definition every_run {A} (m : @M W A) (Q : res A -> list entry -> Prop) : Prop :=
  forall w, Q (m w).1.1 (m w).2.

(** Every call that [m] makes, in any run, is one that [P] allows. *)
Definition only {A} (P : entry -> Prop) (m : @M W A) : Prop :=
  every_run m (fun _ t => Forall P t).

End Runs.

Definition is_DbClose (x : entry) : bool :=
  match x with Entry DbClose _ => true | _ => false end.

Definition is_MustOpen (x : entry) : bool :=
  match x with Entry MustOpen _ => true | _ => false end.

Definition is_Commit (x : entry) : bool :=
  match x with Entry Commit _ => true | _ => false end.

Definition is_DumpBlocks (x : entry) : bool :=
  match x with Entry (DumpBlocks _ _ _) _ => true | _ => false end.

(** A call to the history aggregator that prunes, indexes, builds or
    merges. *)
Definition is_history_work (x : entry) : bool :=
  match x with
  | Entry (AggPrune _) _ | Entry BuildMissedIndices _ | Entry BuildFiles _
  | Entry MergeLoop _ | Entry AggSetTx _ | Entry (AggSetTxNum _) _ => true
  | _ => false
  end.

(** The range and the segment size handed to [DumpBlocks]. *)
Definition dumped (x : entry) : option (N * N * N) :=
  match x with
  | Entry (DumpBlocks from to blocksPerFile) _ => Some (from, to, blocksPerFile)
  | _ => None
  end.

(** The last key of the block bodies, where it was read without error. *)
Definition last_key (x : entry) : option (list byte) :=
  match x with
  | Entry c r =>
      match c in call R return R -> option (list byte) with
      | CursorLast => fun r => match r.2 with None => Some r.1 | Some _ => None end
      | _ => fun _ => None
      end r
  end.

(** The error that [snapshotBlocks] returns when the call of this entry
    failed: that of opening the read-only transaction, of the cursor, of
    reading the last key, or the wrapped error of the dump. *)
Definition blocks_error (x : entry) : error :=
  match x with
  | Entry c r =>
      match c in call R return R -> error with
      | BeginRo | CursorBlockBody => fun r => r
      | CursorLast => fun r => r.2
      | DumpBlocks _ _ _ => fun r => option_map (ErrorfW "DumpBlocks: %w") r
      | _ => fun _ => None
      end r
  end.

(** The value with which a [Must...] call panicked. *)
Definition panic_of (x : entry) : option panic_value :=
  match x with
  | Entry c r =>
      match c in call R return R -> option panic_value with
      | MustExist _ | MustOpen => fun r => r
      | _ => fun _ => None
      end r
  end.

(** The store was opened. *)
Definition opened (x : entry) : bool :=
  match x with
  | Entry c r =>
      match c in call R return R -> bool with
      | MustOpen => fun r => match r with None => true | Some _ => false end
      | _ => fun _ => false
      end r
  end.

(** The error of the first failed [RetireBlocks] of a trace, with the
    calls made after it. *)
Fixpoint after_failed_retire (t : list entry) : option (err * list entry) :=
  match t with
  | [] => None
  | Entry c r :: t' =>
      match c in call R return R -> option (err * list entry) with
      | RetireBlocks _ _ => fun r =>
          match r with
          | Some e => Some (e, t')
          | None => after_failed_retire t'
          end
      | _ => fun _ => after_failed_retire t'
      end r
  end.

(** The calls of the loop over the sub-ranges: retiring a range, and the
    transaction that follows it. *)
Definition is_block_work (x : entry) : bool :=
  match x with
  | Entry (RetireBlocks _ _) _ | Entry BeginRw _ | Entry Commit _ | Entry Rollback _
  | Entry SnapshotsFiles _ | Entry AggFiles _ | Entry (WriteSnapshots _ _) _
  | Entry (LogInfo _) _ | Entry PruneAncientBlocks _ => true
  | _ => false
  end.

(** The calls of the history phases. *)
Definition is_history_phase (x : entry) : bool :=
  match x with
  | Entry (LogInfo _) _ | Entry BeginRw _ | Entry Commit _ | Entry Rollback _
  | Entry BeginRo _ | Entry AggSetTx _ | Entry (AggPrune _) _
  | Entry BuildMissedIndices _ | Entry (GetStageProgress _) _ | Entry (TxNumsMax _) _
  | Entry (AggSetTxNum _) _ | Entry BuildFiles _ | Entry MergeLoop _ => true
  | _ => false
  end.

(** The store answered that state history is enabled. *)
Definition history_on (x : entry) : bool :=
  match x with
  | Entry c r =>
      match c in call R return R -> bool with
      | HistoryV3FromDB => fun r => r
      | _ => fun _ => false
      end r
  end.

(** A failed [RetireBlocks] is the last call of the trace, and the run
    ends in a panic with its error. *)
Definition stops_at_failed_retire {A} (r : res A) (t : list entry) : Prop :=
  forall x post, after_failed_retire t = Some (x, post) ->
    r = Panicked (PanicErr x) /\ post = [].

(** History work is done only after the store answered that state history
    is enabled. *)
Definition history_gated {A} (r : res A) (t : list entry) : Prop :=
  existsb history_on t = false -> Forall (fun x => is_history_work x = false) t.

(** The calls that set the watermark and the call that builds the
    history files. *)
Definition sets_watermark_or_builds (x : entry) : bool :=
  match x with
  | Entry (GetStageProgress _) _ | Entry (TxNumsMax _) _ | Entry (AggSetTxNum _) _
  | Entry BuildFiles _ => true
  | _ => false
  end.

(** No history file is built in [t], or the first one is built right
    after the watermark was set, in a run that found state history
    enabled. *)
Definition built_after_watermark (t : list entry) : Prop :=
  Forall (fun x => trace.is_BuildFiles x = false) t
  \/ exists t1 p e n r t2,
       t = t1 ++ trace.watermark p e n
              ++ [Entry (LogInfo "Build state history snapshots") tt; Entry BuildFiles r]
              ++ t2
       /\ Forall (fun x => trace.is_BuildFiles x = false) t1
       /\ existsb history_on t1 = true.

(** The ways in which a transaction that prunes state history fails with
    [e]: it cannot be opened, the pruning fails, or the commit does. *)
Definition failed_history_tx (step : N) (e : err) : list (list entry) :=
  [ [Entry BeginRw (Some e)];
    [Entry BeginRw None; Entry AggSetTx tt; Entry (AggPrune step) (Some e);
     Entry Rollback tt];
    [Entry BeginRw None; Entry AggSetTx tt; Entry (AggPrune step) None;
     Entry Commit (Some e); Entry Rollback tt] ].

(** The world in which state history is disabled and every call goes
    well. *)
Definition history_off : forall R, call R -> unit -> R * unit :=
  fun R c w =>
    match c in call R return R * unit with
    | HistoryV3FromDB => (false, w)
    | c' => (ok_answer c', w)
    end.

(** The world in which the snapshot folder cannot be reopened and every
    other call goes well. *)
Definition reopen_fails : forall R, call R -> unit -> R * unit :=
  fun R c w =>
    match c in call R return R * unit with
    | ReopenFolder => (Some (ErrExt 1), w)
    | c' => (ok_answer c', w)
    end.

(** The world in which the progress of the execution stage cannot be
    read and every other call goes well. *)
Definition progress_read_fails : forall R, call R -> unit -> R * unit :=
  fun R c w =>
    match c in call R return R * unit with
    | GetStageProgress _ => ((0, Some (ErrExt 1)), w)
    | c' => (ok_answer c', w)
    end.

(** The world in which [RetireBlocks] fails on the range that starts at
    [bad] and every other call goes well. *)
Definition retire_fails (bad : N) : forall R, call R -> unit -> R * unit :=
  fun R c w =>
    match c in call R return R * unit with
    | RetireBlocks from _ => (if from =? bad then Some (ErrExt 1) else None, w)
    | c' => (ok_answer c', w)
    end.

(** The world in which the last key of the block bodies is [k] and every
    call goes well. *)
Definition last_key_is (k : list byte) : forall R, call R -> unit -> R * unit :=
  fun R c w =>
    match c in call R return R * unit with
    | CursorLast => ((k, None), w)
    | c' => (ok_answer c', w)
    end.

End runs.

(** ** The [index] command ([turbo/app/snapshots.go]) *)
Module index.
Import world snapshots.

Section Commands.
Context {W : Type}.
Variable ext : forall R, call R -> W -> R * W.

(** Collaborators of [rebuildIndices] that no other command calls. The
    world answers them like a call, but they leave no entry in the
    trace. [ChainID] stands for [fromdb.ChainConfig(db)] and the
    conversion of its chain ID, which panic where the store holds no
    usable configuration; the answer is the value of the panic, if any. *)
Variable ChainID : W -> option panic_value * W.
Variable LogStat : W -> W.                           (* allSnapshots.LogStat() *)
Variable SnapBuildMissedIndices : W -> error * W.    (* snapshotsync.BuildMissedIndices(..) *)

Local Abbreviation M := (@M W).
Local Abbreviation invoke := (invoke ext).
Local Notation "x <- m ;; k" := (bind m (fun x => k))
  (at level 100, m at next level, right associativity).
Local Notation "m ;; k" := (bind m (fun _ => k))
  (at level 100, right associativity).
Local Notation "'check' m ;; k" :=
  (bind m (fun e : error => match e with Some _ => ret e | None => k end))
  (at level 100, m at next level, right associativity).

(** A call that is not recorded. *)
Definition silent {A} (f : W -> A * W) : M A := fun w =>
  let '(a, w1) := f w in (Val a, w1, []).

(** [rebuildIndices]. Its parameter [from] is not used. *)
Definition rebuildIndices (from : N) : M error :=
  v <- silent ChainID ;;
  match v with
  | Some v => panic v
  | None =>
      check invoke ReopenFolder ;;
      silent (fun w => (tt, LogStat w)) ;;
      check silent SnapBuildMissedIndices ;;
      ret None
  end.

Definition doIndicesCommand (rebuild : bool) (from : N) : M error :=
  opened <- invoke MustOpen ;;
  match opened with
  | Some v => panic v
  | None =>
      defer (invoke DbClose) (
        must ext (MustExist SnapHistory) ;;
        if rebuild then panic (PanicStr "not implemented")
        else
          e <- rebuildIndices from ;;
          match e with
          | Some x => invoke (LogError x)
          | None => ret tt
          end ;;
          check invoke NewAggregator22 ;;
          check invoke AggReopenFiles ;;
          check invoke BuildMissedIndices ;;
          ret None)
  end.

End Commands.

(** The error with which one of the aggregator phases of [index]
    failed, if the entry records such a failure. *)
Definition failed_aggregator_phase (x : entry) : error :=
  match x with
  | Entry c r =>
      match c in call R return R -> error with
      | NewAggregator22 | AggReopenFiles | BuildMissedIndices => fun r => r
      | _ => fun _ => None
      end r
  end.

(** The error of the first failed reopening of the snapshot folder, with
    the calls made after it. *)
Fixpoint after_failed_reopen (t : list entry) : option (err * list entry) :=
  match t with
  | [] => None
  | Entry c r :: t' =>
      match c in call R return R -> option (err * list entry) with
      | ReopenFolder => fun r =>
          match r with
          | Some e => Some (e, t')
          | None => after_failed_reopen t'
          end
      | _ => fun _ => after_failed_reopen t'
      end r
  end.

(** The first error that was logged, with the calls made after it. *)
Fixpoint after_logged_error (t : list entry) : option (err * list entry) :=
  match t with
  | [] => None
  | Entry (LogError e) _ :: t' => Some (e, t')
  | _ :: t' => after_logged_error t'
  end.

End index.

(** ** The flags of the subcommands ([turbo/app/snapshots.go]) *)
Module cli.

Section Flags.
Context {Flag : Type}.

(** [joinFlags]: [res] starts out nil, and each list is appended to it
    in turn. *)
Definition joinFlags (lists : list (list Flag)) : list Flag :=
  fold_left (fun res list => res ++ list) lists [].

End Flags.
End cli.

(** * Theorems *)

(** ** Varints: reading back what [PutUvarint] wrote *)
Section Uvarint.
Import binary.

Lemma to_N_byte_of_N x : Byte.to_N (byte_of_N x) = x mod 256.
Proof.
  unfold byte_of_N.
  destruct (Byte.of_N (x mod 256)) as [b|] eqn:E.
  - now apply Byte.to_of_N.
  - apply Byte.of_N_None_iff in E.
    pose proof (N.mod_upper_bound x 256). lia.
Qed.

Lemma cont_byte_small x : cont_byte x mod 2 ^ 8 = cont_byte x.
Proof.
  apply N.bits_inj; intro n. unfold cont_byte.
  destruct (N.lt_ge_cases n 8) as [Hn|Hn].
  - now rewrite N.mod_pow2_bits_low.
  - rewrite N.mod_pow2_bits_high, N.lor_spec, N.mod_pow2_bits_high by assumption.
    rewrite N.pow2_bits_false by lia. reflexivity.
Qed.

Lemma cont_byte_high x : 2 ^ 7 <= cont_byte x.
Proof.
  destruct (N.lt_ge_cases (cont_byte x) (2 ^ 7)) as [Hlt|]; [|assumption].
  exfalso.
  assert (Hbit : N.testbit (cont_byte x) 7 = true).
  { unfold cont_byte. rewrite N.lor_spec, N.pow2_bits_true. apply orb_true_r. }
  rewrite <- (N.mod_small _ _ Hlt) in Hbit.
  rewrite N.mod_pow2_bits_high in Hbit by lia. discriminate.
Qed.

Lemma cont_byte_payload x : N.land (cont_byte x) (N.ones 7) = x mod 2 ^ 7.
Proof.
  rewrite N.land_ones. apply N.bits_inj; intro n. unfold cont_byte.
  destruct (N.lt_ge_cases n 7) as [Hn|Hn].
  - rewrite !N.mod_pow2_bits_low, N.lor_spec, N.mod_pow2_bits_low by lia.
    rewrite N.pow2_bits_false by lia. apply orb_false_r.
  - now rewrite !N.mod_pow2_bits_high.
Qed.

(** Seven payload bits at shift [s] and the rest above them make up the
    whole value at shift [s]. *)
Lemma lor_split7 x s :
  N.lor (N.shiftl (x mod 2 ^ 7) s) (N.shiftl (N.shiftr x 7) (s + 7)) = N.shiftl x s.
Proof.
  apply N.bits_inj; intro n. rewrite N.lor_spec.
  destruct (N.lt_ge_cases n s) as [Hn|Hn].
  - rewrite !N.shiftl_spec_low by lia. reflexivity.
  - rewrite (N.shiftl_spec_high' x), (N.shiftl_spec_high' (x mod 2 ^ 7)) by assumption.
    destruct (N.lt_ge_cases n (s + 7)) as [Hm|Hm].
    + rewrite N.shiftl_spec_low, N.mod_pow2_bits_low by lia. apply orb_false_r.
    + rewrite N.shiftl_spec_high', N.mod_pow2_bits_high, N.shiftr_spec' by lia.
      simpl. f_equal. lia.
Qed.

Lemma shl64_small x s : x < 2 ^ (64 - s) -> s <= 64 -> shl64 x s = N.shiftl x s.
Proof.
  intros Hx Hs. unfold shl64, uint64_mod. apply N.mod_small.
  rewrite N.shiftl_mul_pow2.
  replace (2 ^ 64) with (2 ^ (64 - s) * 2 ^ s)
    by (rewrite <- N.pow_add_r; f_equal; lia).
  apply N.mul_lt_mono_pos_r; [apply N.neq_0_lt_0, N.pow_nonzero; lia | assumption].
Qed.

(** The loop of [ReadUvarint], started at iteration [i] on the bytes that
    the loop of [PutUvarint] wrote for [x], consumes exactly those bytes
    and adds [x], shifted, to the accumulator. *)
Lemma ReadUvarint_from_Put left i acc x rest :
  N.of_nat left + i = 10 -> (0 < left)%nat ->
  x < 2 ^ (64 - 7 * i) ->
  ReadUvarint_from left i acc (7 * i) (PutUvarint_from left x ++ rest)
  = (N.lor acc (N.shiftl x (7 * i)), None, rest).
Proof.
  revert i acc x. induction left as [|left IH]; intros i acc x Hi Hpos Hx; [lia|].
  cbn [PutUvarint_from ReadUvarint_from].
  destruct (128 <=? x) eqn:Hbig.
  - apply N.leb_le in Hbig.
    assert (Hi8 : i <= 8).
    { destruct (N.le_gt_cases i 8) as [|Hgt]; [assumption|exfalso].
      assert (64 - 7 * i <= 1) by lia.
      assert (2 ^ (64 - 7 * i) <= 2 ^ 1) by (apply N.pow_le_mono_r; lia).
      change (2 ^ 1) with 2 in *. lia. }
    cbn [app]. rewrite to_N_byte_of_N.
    change 256 with (2 ^ 8). change 128 with (2 ^ 7).
    fold (cont_byte x). rewrite cont_byte_small.
    pose proof (cont_byte_high x) as Hhigh.
    destruct (cont_byte x <? 2 ^ 7) eqn:Hlt; [apply N.ltb_lt in Hlt; lia|].
    change 127 with (N.ones 7). rewrite cont_byte_payload.
    rewrite shl64_small.
    2:{ eapply N.lt_le_trans; [apply N.mod_upper_bound; discriminate|].
        apply N.pow_le_mono_r; lia. }
    2: lia.
    replace (7 * i + 7) with (7 * (i + 1)) by lia.
    rewrite IH; [| lia | lia |].
    + f_equal. f_equal. rewrite <- N.lor_assoc. f_equal.
      replace (7 * (i + 1)) with (7 * i + 7) by lia. apply lor_split7.
    + rewrite N.shiftr_div_pow2. apply N.Div0.div_lt_upper_bound.
      rewrite <- N.pow_add_r. replace (7 + (64 - 7 * (i + 1))) with (64 - 7 * i) by lia.
      assumption.
  - apply N.leb_gt in Hbig. cbn [app].
    rewrite to_N_byte_of_N, (N.mod_small x 256) by lia.
    destruct (x <? 128) eqn:Hlt; [|apply N.ltb_ge in Hlt; lia].
    assert (Hov : (i =? N.of_nat MaxVarintLen64 - 1) && (1 <? x) = false).
    { destruct (i =? N.of_nat MaxVarintLen64 - 1) eqn:E; [|reflexivity].
      apply N.eqb_eq in E. change (N.of_nat MaxVarintLen64 - 1) with 9 in E.
      subst i. change (2 ^ (64 - 7 * 9)) with 2 in Hx.
      rewrite andb_true_l. apply N.ltb_ge. lia. }
    rewrite Hov, shl64_small by (assumption || lia). reflexivity.
Qed.

(** [ReadUvarint] inverts [PutUvarint] on every 64-bit value and leaves the
    rest of the reader untouched. *)
Lemma ReadUvarint_PutUvarint x rest :
  x < 2 ^ 64 -> ReadUvarint (PutUvarint x ++ rest) = (x, None, rest).
Proof.
  intro Hx. unfold ReadUvarint, PutUvarint.
  change 0 with (7 * 0) at 2.
  rewrite ReadUvarint_from_Put.
  - now rewrite N.shiftl_0_r.
  - reflexivity.
  - unfold MaxVarintLen64. lia.
  - exact Hx.
Qed.

Lemma PutUvarint_nonempty x : (0 < length (PutUvarint x))%nat.
Proof.
  unfold PutUvarint. cbn [MaxVarintLen64 PutUvarint_from].
  destruct (128 <=? x); cbn; lia.
Qed.

(** A successful [ReadUvarint] takes at least one byte off the reader. *)
Lemma ReadUvarint_from_consumes left : forall i x s r l r1,
  ReadUvarint_from left i x s r = (l, None, r1) -> (length r1 < length r)%nat.
Proof.
  induction left as [|left IH]; intros i x s r l r1; cbn [ReadUvarint_from].
  - discriminate.
  - destruct r as [|c r']; [discriminate|].
    destruct (Byte.to_N c <? 128).
    + destruct ((i =? N.of_nat MaxVarintLen64 - 1) && (1 <? Byte.to_N c));
        intros [= _ <-]; cbn; lia.
    + intro Hrec. apply IH in Hrec. cbn. lia.
Qed.

End Uvarint.

(** ** [compress] then [uncompress] *)
Section RoundTrip.
Import binary io compress app.
Context {C : Codec}.

Lemma ReadFull_exact (w rest : list byte) :
  ReadFull (N.of_nat (length w)) (w ++ rest) = (w, None, rest).
Proof.
  unfold ReadFull. rewrite Nat2N.id.
  assert (Hle : (length w <=? length (w ++ rest))%nat = true).
  { apply Nat.leb_le. rewrite length_app. lia. }
  rewrite Hle. now rewrite take_app_length, drop_app_length.
Qed.

Lemma len64_small {A} (w : list A) :
  N.of_nat (length w) < 2 ^ 63 -> len64 w = N.of_nat (length w).
Proof.
  intro H. unfold len64, uint64_mod. apply N.mod_small.
  eapply N.lt_trans; [exact H|]. reflexivity.
Qed.

Lemma len64_bound {A} (w : list A) : len64 w < 2 ^ 64.
Proof. unfold len64, uint64_mod. apply N.mod_upper_bound. discriminate. Qed.

Lemma stream_cons w ws : stream (w :: ws) = PutUvarint (len64 w) ++ w ++ stream ws.
Proof. unfold stream. cbn [map concat]. now rewrite <- app_assoc. Qed.

(** The buffer handling of [doCompress] never panics on a length that
    fits an [int]. *)
Lemma buffer_fits (l : N) (bufcap : Z) :
  l < 2 ^ 63 ->
  negb (bufcap <? int_of_uint64 l)%Z && negb (Z.of_N l <=? bufcap)%Z = false.
Proof.
  intro Hl. unfold int_of_uint64.
  apply N.ltb_lt in Hl. rewrite Hl.
  destruct (bufcap <? Z.of_N l)%Z eqn:E; [reflexivity|].
  apply Z.ltb_ge in E. apply Z.leb_le in E. now rewrite E.
Qed.

(** The fuel handed to the loop by [doCompress] is never used up. *)
Lemma doCompress_loop_total (ctxDone : nat -> bool) fuel : forall k c bufcap r,
  (length r < fuel)%nat -> doCompress_loop ctxDone fuel k c bufcap r <> OutOfFuel.
Proof.
  induction fuel as [|fuel IH]; intros k c bufcap r Hfuel; [lia|].
  cbn [doCompress_loop].
  destruct (ReadUvarint r) as [[l [e|]] r1] eqn:Hread; [discriminate|].
  apply ReadUvarint_from_consumes in Hread.
  destruct (negb _ && negb _); [discriminate|].
  unfold ReadFull.
  destruct (N.to_nat l <=? length r1)%nat eqn:Hle.
  - destruct (AddWord c _); [discriminate|].
    destruct (ctxDone k); [discriminate|].
    apply IH. rewrite length_drop. lia.
  - destruct r1; discriminate.
Qed.

Lemma doCompress_total (ctxDone : nat -> bool) args stdin (disk : gmap string SegFile) :
  doCompress ctxDone args stdin disk <> OutOfFuel.
Proof.
  unfold doCompress.
  destruct args as [|f [|? ?]]; try discriminate.
  destruct (NewCompressor f); [discriminate|].
  pose proof (doCompress_loop_total ctxDone (S (length stdin)) 0 c (2 ^ 20)%Z stdin
                ltac:(lia)) as Htotal.
  destruct (doCompress_loop _ _ _ _ _ _) as [[e|e c']| |]; try discriminate.
  - destruct (negb (is_EOF e)); [discriminate|]. destruct (Compress c'); discriminate.
  - contradiction.
Qed.

Section Loop.
Variable ctxDone : nat -> bool.
Hypothesis never_done : forall k, ctxDone k = false.

(** On the stream of [ws] the reading loop feeds [ws] to the compressor
    word by word and leaves through its condition with [io.EOF]. *)
Lemma doCompress_loop_stream ws : forall fuel k c c' bufcap,
  Forall (fun w : list byte => N.of_nat (length w) < 2 ^ 63) ws ->
  AddWords c ws = inr c' ->
  (length (stream ws) < fuel)%nat ->
  doCompress_loop ctxDone fuel k c bufcap (stream ws) = Val (CondFailed EOF c').
Proof.
  induction ws as [|w ws IH]; intros fuel k c c' bufcap Hlen Hadd Hfuel.
  - destruct fuel; [cbn in Hfuel; lia|].
    cbn in Hadd. injection Hadd as <-. reflexivity.
  - destruct fuel as [|fuel]; [lia|].
    apply Forall_cons in Hlen as [Hw Hws].
    cbn [AddWords] in Hadd.
    destruct (AddWord c w) as [e|c1] eqn:Hc1; [discriminate|].
    rewrite stream_cons in *. cbn [doCompress_loop].
    rewrite ReadUvarint_PutUvarint by apply len64_bound.
    rewrite (len64_small w Hw), buffer_fits by exact Hw.
    rewrite ReadFull_exact, Hc1, never_done.
    apply IH; [assumption | assumption |].
    rewrite !length_app in Hfuel.
    pose proof (PutUvarint_nonempty (len64 w)). lia.
Qed.

(** The writing loop appends the stream of the words it is served. *)
Lemma doUncompress_loop_stream ws : forall k wr,
  doUncompress_loop ctxDone k ws wr = (None, wr ++ stream ws).
Proof.
  induction ws as [|w ws IH]; intros k wr.
  - cbn. now rewrite app_nil_r.
  - cbn [doUncompress_loop]. rewrite never_done, IH, stream_cons.
    now rewrite <- !app_assoc.
Qed.
End Loop.

(** C1. Round trip: when the records (each of a length that a Go slice can
    have) arrive on standard input as uvarint-prefixed payloads and
    neither the codec nor a cancellation interrupts, [compress] returns
    nil having sealed a segment file at the given path, and [uncompress]
    on that path returns nil having written to standard output exactly
    the bytes [compress] read: the same records, in the same order. *)
Theorem compress_uncompress_roundtrip
    (HC : CodecContract C) (done1 done2 : nat -> bool)
    (f : string) (records : list (list byte)) (disk : gmap string SegFile)
    (c0 c : Compressor) (F : SegFile) (d : Decompressor) :
  Forall (fun w : list byte => N.of_nat (length w) < 2 ^ 63) records ->
  (forall k, done1 k = false) ->
  (forall k, done2 k = false) ->
  NewCompressor f = inr c0 ->
  AddWords c0 records = inr c ->
  Compress c = inr F ->
  NewDecompressor F = inr d ->
  doCompress done1 [f] (stream records) disk = Val (None, <[f := F]> disk)
  /\ doUncompress done2 [f] (<[f := F]> disk) = (None, stream records).
Proof.
  intros Hlen H1 H2 Hnew Hadd Hseal Hopen. split.
  - unfold doCompress. rewrite Hnew.
    rewrite (doCompress_loop_stream done1 H1 records _ 0%nat c0 c) by (auto; lia).
    cbn [is_EOF negb]. now rewrite Hseal.
  - unfold doUncompress. rewrite lookup_insert_eq, Hopen.
    rewrite (doUncompress_loop_stream done2 H2).
    now rewrite (HC f records c0 c F d Hnew Hadd Hseal Hopen).
Qed.

End RoundTrip.

Lemma ListCodec_contract : compress.CodecContract compress.ListCodec.
Proof.
  intros path ws c0 c F d Hnew Hadd Hseal Hopen.
  cbn in *. injection Hnew as <-. injection Hseal as <-. injection Hopen as <-.
  assert (G : forall (acc : list (list byte)) c',
             @compress.AddWords compress.ListCodec acc ws = inr c' -> c' = acc ++ ws).
  { clear. induction ws as [|w ws IH]; intros acc c' H; cbn in H.
    - injection H as <-. now rewrite app_nil_r.
    - apply IH in H. now rewrite <- app_assoc in H. }
  now apply G in Hadd.
Qed.

(** Three records, the empty one among them, through the list codec. *)
Lemma compress_uncompress_roundtrip_witness :
  let records := [[x01; x02]; []; [xff]] in
  @app.doCompress compress.ListCodec (fun _ => false) ["a.seg"%string]
      (app.stream records) ∅ = Val (None, <["a.seg"%string := records]> ∅)
  /\ @app.doUncompress compress.ListCodec (fun _ => false) ["a.seg"%string]
      (<["a.seg"%string := records]> ∅) = (None, app.stream records).
Proof.
  intro records.
  apply (@compress_uncompress_roundtrip compress.ListCodec ListCodec_contract
           (fun _ => false) (fun _ => false) "a.seg"%string records ∅
           [] records records records).
  - repeat constructor.
  - reflexivity.
  - reflexivity.
  - reflexivity.
  - reflexivity.
  - reflexivity.
  - reflexivity.
Defined.

(** ** The access-list accumulator *)
Section AccessListFacts.
Context `{Countable Address} `{Countable Hash}.
Local Abbreviation index := vm.index.
Local Abbreviation addAddress := vm.addAddress.
Local Abbreviation addSlot := vm.addSlot.
Implicit Types al other : gmap Address (gset Hash).
Implicit Types a addr : Address.
Implicit Types slot hash : Hash.

Lemma index_Some al addr slots : al !! addr = Some slots -> index al addr = slots.
Proof. unfold vm.index. now intros ->. Qed.

Lemma index_None al addr : al !! addr = None -> index al addr = ∅.
Proof. unfold vm.index. now intros ->. Qed.

Lemma lookup_addAddress al a addr :
  addAddress al a !! addr = if decide (a = addr) then Some (index al a) else al !! addr.
Proof.
  unfold vm.addAddress. destruct (al !! a) as [slots|] eqn:E.
  - destruct (decide (a = addr)) as [<-|]; [|reflexivity].
    now rewrite E, (index_Some _ _ _ E).
  - rewrite (index_None _ _ E). destruct (decide (a = addr)) as [<-|Hne].
    + apply lookup_insert_eq.
    + now apply lookup_insert_ne.
Qed.

Lemma lookup_addSlot al a slot addr :
  addSlot al a slot !! addr
  = if decide (a = addr) then Some ({[slot]} ∪ index al a) else al !! addr.
Proof.
  unfold vm.addSlot.
  pose proof (lookup_addAddress al a a) as Ha. rewrite decide_True in Ha by reflexivity.
  rewrite Ha. destruct (decide (a = addr)) as [<-|Hne].
  - apply lookup_insert_eq.
  - rewrite lookup_insert_ne by assumption.
    rewrite lookup_addAddress. now rewrite decide_False.
Qed.

Lemma index_addAddress al a addr : index (addAddress al a) addr = index al addr.
Proof.
  unfold vm.index at 1. rewrite lookup_addAddress.
  destruct (decide (a = addr)) as [<-|]; reflexivity.
Qed.

Lemma index_addSlot al a slot addr :
  index (addSlot al a slot) addr
  = if decide (a = addr) then {[slot]} ∪ index al a else index al addr.
Proof.
  unfold vm.index at 1. rewrite lookup_addSlot.
  destruct (decide (a = addr)); reflexivity.
Qed.

Section Equal.
Variable range_accounts : gmap Address (gset Hash) -> list (Address * gset Hash).
Variable range_slots : gset Hash -> list Hash.
Hypothesis range_accounts_perm : forall al, range_accounts al ≡ₚ map_to_list al.
Hypothesis range_slots_perm : forall slots, range_slots slots ≡ₚ elements slots.

Local Abbreviation equal := (vm.equal range_accounts range_slots).

Lemma forallb_accounts (f : Address * gset Hash -> bool) al :
  forallb f (range_accounts al) = true
  <-> forall addr slots, al !! addr = Some slots -> f (addr, slots) = true.
Proof.
  rewrite forallb_forall. split.
  - intros Hall addr slots Hl. apply Hall, list_elem_of_In.
    rewrite range_accounts_perm. now apply elem_of_map_to_list.
  - intros Hall [addr slots] Hin. apply Hall.
    apply list_elem_of_In in Hin. rewrite range_accounts_perm in Hin.
    now apply elem_of_map_to_list in Hin.
Qed.

Lemma forallb_slots (f : Hash -> bool) (slots : gset Hash) :
  forallb f (range_slots slots) = true <-> forall hash, hash ∈ slots -> f hash = true.
Proof.
  rewrite forallb_forall. split.
  - intros Hall hash Hin. apply Hall, list_elem_of_In.
    rewrite range_slots_perm. now apply elem_of_elements.
  - intros Hall hash Hin. apply Hall.
    apply list_elem_of_In in Hin. rewrite range_slots_perm in Hin.
    now apply elem_of_elements in Hin.
Qed.

Lemma slots_match_true other addr slots :
  vm.slots_match range_slots other (addr, slots) = true <-> slots = index other addr.
Proof.
  unfold vm.slots_match. split.
  - intro Hm.
    destruct (size slots =? size (index other addr))%nat; [|discriminate].
    cbn [negb] in Hm.
    destruct (forallb _ (range_slots slots)) eqn:Hsub; [|discriminate].
    cbn [negb] in Hm.
    rewrite forallb_slots in Hsub, Hm.
    apply set_eq. intro hash. split; intro Hin.
    + exact (bool_decide_eq_true_1 _ (Hsub _ Hin)).
    + exact (bool_decide_eq_true_1 _ (Hm _ Hin)).
  - intros <-. rewrite Nat.eqb_refl. cbn [negb].
    assert (Hall : forallb (fun hash => bool_decide (hash ∈ slots)) (range_slots slots) = true).
    { apply forallb_slots. intros hash Hin. now apply bool_decide_eq_true_2. }
    now rewrite Hall.
Qed.

(** [equal] decides equality of the two maps. *)
Lemma equal_true_iff al other : equal al other = true <-> al = other.
Proof.
  unfold vm.equal. split.
  - intro He.
    destruct (size al =? size other)%nat; [|discriminate]. cbn [negb] in He.
    destruct (forallb _ (range_accounts al)) eqn:H1 in He; [|discriminate].
    cbn [negb] in He.
    destruct (forallb _ (range_accounts other)) eqn:H2 in He; [|discriminate].
    cbn [negb] in He.
    rewrite forallb_accounts in H1, H2, He.
    apply map_eq. intro addr.
    destruct (al !! addr) as [slots|] eqn:Ea.
    + specialize (H1 _ _ Ea). specialize (He _ _ Ea).
      apply bool_decide_eq_true_1 in H1 as [oslots Eo]. cbn in Eo.
      apply slots_match_true in He. rewrite (index_Some _ _ _ Eo) in He.
      now rewrite Eo, He.
    + destruct (other !! addr) as [oslots|] eqn:Eo; [|reflexivity].
      specialize (H2 _ _ Eo). apply bool_decide_eq_true_1 in H2 as [slots Es].
      cbn in Es. congruence.
  - intros <-. rewrite Nat.eqb_refl. cbn [negb].
    assert (H1 : forallb (fun entry => vm.present al entry.1) (range_accounts al) = true).
    { apply forallb_accounts. intros addr slots Ea. cbn.
      apply bool_decide_eq_true_2. eauto. }
    rewrite H1. cbn [negb].
    apply forallb_accounts. intros addr slots Ea.
    apply slots_match_true. symmetry. now apply index_Some.
Qed.

End Equal.
End AccessListFacts.

Section EqualSpec.
Context `{Countable Address} `{Countable Hash}.
Implicit Types al other : gmap Address (gset Hash).

(** Two insertions can be swapped. *)
Lemma insert_comm al (o1 o2 : vm.insertion) :
  vm.insert (vm.insert al o1) o2 = vm.insert (vm.insert al o2) o1.
Proof.
  apply map_eq. intro addr.
  destruct o1 as [a1 [s1|]], o2 as [a2 [s2|]]; cbn [vm.insert];
    rewrite ?lookup_addSlot, ?lookup_addAddress, ?index_addSlot, ?index_addAddress;
    destruct (decide (a1 = addr)) as [E1|E1], (decide (a2 = addr)) as [E2|E2];
    subst; rewrite ?decide_True by reflexivity;
    rewrite ?lookup_addSlot, ?lookup_addAddress, ?decide_True, ?decide_False by congruence;
    try reflexivity;
    try (destruct (decide (a2 = a1)); [congruence|]);
    try (destruct (decide (a1 = a2)); [congruence|]);
    try reflexivity.
  f_equal. set_solver.
Qed.

Lemma fold_insert_perm (ops1 ops2 : list vm.insertion) :
  ops1 ≡ₚ ops2 -> forall al, fold_left vm.insert ops1 al = fold_left vm.insert ops2 al.
Proof.
  induction 1 as [|o l1 l2 Hp IH|o1 o2 l|l1 l2 l3 Hp1 IH1 Hp2 IH2]; intro al; cbn [fold_left].
  - reflexivity.
  - apply IH.
  - now rewrite insert_comm.
  - now rewrite IH1.
Qed.

Lemma map_eq_dom_slots al other :
  al = other
  <-> dom al = dom other
      /\ forall addr slots oslots,
           al !! addr = Some slots -> other !! addr = Some oslots -> slots = oslots.
Proof.
  split.
  - intros <-. split; [reflexivity|]. congruence.
  - intros [Hdom Hslots]. apply map_eq. intro addr.
    destruct (al !! addr) as [slots|] eqn:Ea.
    + assert (Hin : addr ∈ dom other) by (rewrite <- Hdom; apply elem_of_dom; eauto).
      apply elem_of_dom in Hin as [oslots Eo].
      now rewrite Eo, (Hslots _ _ _ Ea Eo).
    + apply not_elem_of_dom in Ea. rewrite Hdom in Ea.
      apply not_elem_of_dom in Ea. now rewrite Ea.
Qed.

(** C9. Whatever order the [range] loops visit the entries in, [equal]
    returns true exactly when both lists hold the same addresses and, for
    each address they share, the same slots; it is symmetric; and two
    lists filled by the same insertions made in different orders are
    equal. *)
Theorem accessList_equal_spec
    (range_accounts : gmap Address (gset Hash) -> list (Address * gset Hash))
    (range_slots : gset Hash -> list Hash)
    (Haccounts : forall al, range_accounts al ≡ₚ map_to_list al)
    (Hslots : forall slots, range_slots slots ≡ₚ elements slots)
    al other (ops1 ops2 : list vm.insertion) :
  (vm.equal range_accounts range_slots al other = true
   <-> dom al = dom other
       /\ forall addr slots oslots,
            al !! addr = Some slots -> other !! addr = Some oslots -> slots = oslots)
  /\ vm.equal range_accounts range_slots al other
     = vm.equal range_accounts range_slots other al
  /\ (ops1 ≡ₚ ops2 ->
      vm.equal range_accounts range_slots (vm.insert_all ops1) (vm.insert_all ops2) = true).
Proof.
  pose proof (equal_true_iff range_accounts range_slots Haccounts Hslots) as Heq.
  split; [|split].
  - rewrite Heq. apply map_eq_dom_slots.
  - destruct (vm.equal range_accounts range_slots al other) eqn:E1,
             (vm.equal range_accounts range_slots other al) eqn:E2; try reflexivity.
    + apply Heq in E1. symmetry in E1. apply Heq in E1. congruence.
    + apply Heq in E2. symmetry in E2. apply Heq in E2. congruence.
  - intro Hperm. apply Heq. unfold vm.insert_all. now apply fold_insert_perm.
Qed.

End EqualSpec.

(** Two lists over numeric addresses and slots, filled in different orders. *)
Lemma accessList_equal_spec_witness :
  let al : gmap N (gset N) := vm.insert_all [(1, Some 7); (2, None); (1, Some 8)] in
  let other : gmap N (gset N) := vm.insert_all [(2, None); (1, Some 8); (1, Some 7)] in
  (vm.equal map_to_list elements al other = true
   <-> dom al = dom other
       /\ forall addr slots oslots,
            al !! addr = Some slots -> other !! addr = Some oslots -> slots = oslots)
  /\ vm.equal map_to_list elements al other = vm.equal map_to_list elements other al
  /\ ([(1, Some 7); (2, None); (1, Some 8)] ≡ₚ [(2, None); (1, Some 8); (1, Some 7)] ->
      vm.equal map_to_list elements al other = true).
Proof.
  intros al other.
  apply (accessList_equal_spec (Address := N) (Hash := N) map_to_list elements
           (fun _ => reflexivity _) (fun _ => reflexivity _)).
Defined.

(** ** The tracer *)
Section TracerFacts.
Context `{Countable Address} `{Countable Hash}.
Implicit Types al : gmap Address (gset Hash).
Implicit Types excl : gset Address.
Implicit Types t : vm.AccessTuple (Address := Address) (Hash := Hash).

(** The loop over the storage keys of one tuple. *)
Lemma lookup_add_slots a (keys : list Hash) : forall al addr,
  fold_left (fun list slot => vm.addSlot list a slot) keys al !! addr
  = if decide (a = addr /\ keys <> [])
    then Some (vm.index al a ∪ list_to_set keys)
    else al !! addr.
Proof.
  induction keys as [|k keys IH]; intros al addr; cbn [fold_left].
  - rewrite decide_False by (intros [_ ?]; congruence). reflexivity.
  - rewrite IH, index_addSlot, lookup_addSlot.
    rewrite (decide_True (P := a = a)) by reflexivity.
    destruct (decide (a = addr)) as [<-|Hne].
    + rewrite (decide_True (P := a = a /\ k :: keys <> [])) by (split; congruence).
      destruct (decide (a = a /\ keys <> [])) as [_|Hn].
      * f_equal. set_solver.
      * assert (keys = []) as -> by (destruct keys; [reflexivity|exfalso; apply Hn; split; congruence]).
        f_equal. set_solver.
    + rewrite !decide_False by (intros [? _]; congruence). reflexivity.
Qed.

Local Abbreviation lists := vm.lists.

Lemma dom_add_tuple excl al t addr :
  addr ∈ dom (vm.add_tuple excl al t)
  <-> addr ∈ dom al \/ (vm.tuple_Address t = addr /\ lists excl t).
Proof.
  unfold vm.add_tuple, vm.lists. rewrite !elem_of_dom, lookup_add_slots.
  destruct (decide (vm.tuple_Address t = addr /\ vm.StorageKeys t <> [])) as [[E Hk]|Hn].
  - split; [right; tauto | eauto].
  - destruct (decide (vm.tuple_Address t ∈ excl)) as [Hex|Hex].
    + split; [tauto|]. intros [?|[E [?|?]]]; tauto.
    + rewrite lookup_addAddress.
      destruct (decide (vm.tuple_Address t = addr)) as [E|E].
      * split; [right; tauto | eauto].
      * split; [tauto|]. intros [?|[? _]]; tauto.
Qed.

Lemma index_add_tuple_mono excl al t addr :
  vm.index al addr ⊆ vm.index (vm.add_tuple excl al t) addr.
Proof.
  unfold vm.add_tuple. unfold vm.index at 2. rewrite lookup_add_slots.
  destruct (decide (vm.tuple_Address t = addr /\ vm.StorageKeys t <> [])) as [[<- Hk]|Hn].
  - cbn. destruct (decide (vm.tuple_Address t ∈ excl)); [|rewrite index_addAddress]; set_solver.
  - destruct (decide (vm.tuple_Address t ∈ excl)); [reflexivity|].
    fold (vm.index (vm.addAddress al (vm.tuple_Address t)) addr).
    now rewrite index_addAddress.
Qed.

Lemma index_add_tuple_keys excl al t slot :
  slot ∈ vm.StorageKeys t ->
  slot ∈ vm.index (vm.add_tuple excl al t) (vm.tuple_Address t).
Proof.
  intro Hin. unfold vm.add_tuple. unfold vm.index at 1. rewrite lookup_add_slots.
  rewrite decide_True by (split; [reflexivity | intros E; rewrite E in Hin; inversion Hin]).
  cbn. set_solver.
Qed.

Lemma dom_fold_add_tuple excl (acl : list vm.AccessTuple) : forall al addr,
  addr ∈ dom (fold_left (vm.add_tuple excl) acl al)
  <-> addr ∈ dom al \/ exists t, t ∈ acl /\ vm.tuple_Address t = addr /\ lists excl t.
Proof.
  induction acl as [|t acl IH]; intros al addr; cbn [fold_left].
  - split; [tauto|]. intros [?|(t & Hin & _)]; [assumption|inversion Hin].
  - rewrite IH, dom_add_tuple. split.
    + intros [[?|[E Hl]]|(t' & Hin & E & Hl)]; [tauto| |].
      * right. exists t. split; [left|tauto].
      * right. exists t'. split; [now right|tauto].
    + intros [?|(t' & Hin & E & Hl)]; [tauto|].
      apply elem_of_cons in Hin as [->|Hin]; [tauto|].
      right. exists t'. tauto.
Qed.

Lemma index_fold_add_tuple_mono excl (acl : list vm.AccessTuple) : forall al addr,
  vm.index al addr ⊆ vm.index (fold_left (vm.add_tuple excl) acl al) addr.
Proof.
  induction acl as [|t acl IH]; intros al addr; cbn [fold_left]; [reflexivity|].
  etransitivity; [apply (index_add_tuple_mono excl al t)|apply IH].
Qed.

Lemma index_fold_add_tuple_keys excl (acl : list vm.AccessTuple) : forall al t slot,
  t ∈ acl -> slot ∈ vm.StorageKeys t ->
  slot ∈ vm.index (fold_left (vm.add_tuple excl) acl al) (vm.tuple_Address t).
Proof.
  induction acl as [|t' acl IH]; intros al t slot Hin Hslot; [inversion Hin|].
  cbn [fold_left]. apply elem_of_cons in Hin as [->|Hin].
  - apply index_fold_add_tuple_mono. now apply index_add_tuple_keys.
  - now apply IH.
Qed.

Lemma elem_of_excl (precompiles : list Address) : forall (s : gset Address) addr,
  addr ∈ fold_left (fun excl a => {[a]} ∪ excl) precompiles s
  <-> addr ∈ s \/ addr ∈ precompiles.
Proof.
  induction precompiles as [|p ps IH]; intros s addr; cbn [fold_left].
  - set_solver.
  - rewrite IH. set_solver.
Qed.

(** C10. The exclusion set of a new tracer holds the sender, the recipient
    and the precompiles. A tuple of the initial list that carries a
    storage key puts its address on the accumulated list, with every one
    of its keys, excluded or not; an address is on the accumulated list
    exactly when some tuple names it and either it is not excluded or
    that tuple carries a key. *)
Theorem NewAccessListTracer_keeps_excluded_with_keys
    (acl : list vm.AccessTuple) (from to : Address) (precompiles : list Address) :
  let a := vm.NewAccessListTracer acl from to precompiles in
  (forall addr, addr ∈ vm.excl a <-> addr = from \/ addr = to \/ addr ∈ precompiles)
  /\ (forall t slot, t ∈ acl -> slot ∈ vm.StorageKeys t ->
        exists slots, vm.list a !! vm.tuple_Address t = Some slots
                      /\ forall s, s ∈ vm.StorageKeys t -> s ∈ slots)
  /\ (forall addr, addr ∈ dom (vm.list a)
        <-> exists t, t ∈ acl /\ vm.tuple_Address t = addr
                      /\ (addr ∉ vm.excl a \/ vm.StorageKeys t <> [])).
Proof.
  cbn zeta. unfold vm.NewAccessListTracer. cbn [vm.excl vm.list].
  set (excl := fold_left _ precompiles _).
  split; [|split].
  - intro addr. unfold excl. rewrite elem_of_excl. set_solver.
  - intros t slot Hin Hslot.
    pose proof (index_fold_add_tuple_keys excl acl vm.newAccessList t slot Hin Hslot) as Hk.
    destruct (fold_left (vm.add_tuple excl) acl vm.newAccessList !! vm.tuple_Address t)
      as [slots|] eqn:E.
    + exists slots. split; [reflexivity|]. intros s Hs.
      pose proof (index_fold_add_tuple_keys excl acl vm.newAccessList t s Hin Hs) as Hs'.
      now rewrite (index_Some _ _ _ E) in Hs'.
    + rewrite (index_None _ _ E) in Hk. set_solver.
  - intro addr. rewrite dom_fold_add_tuple. unfold vm.newAccessList, vm.lists.
    rewrite dom_empty_L. split.
    + intros [?|(t & Hin & E & Hl)]; [set_solver|]. exists t. subst addr. tauto.
    + intros (t & Hin & E & Hl). right. exists t. subst addr. tauto.
Qed.

(** C8, as the code has it: the three unimplemented hooks panic with
    "implement me" whatever they are given; every other hook returns, and
    all of those but [CaptureState] leave the tracer as it was. *)
Theorem unimplemented_hooks_panic
    (Bytes32 : N -> Hash) (Bytes20 : N -> Address)
    (a : vm.AccessListTracer) (account from to : Address) (typ op : vm.OpCode)
    (scope : vm.ScopeContext) (precompile create : bool)
    (input code output : list byte) (gas value : N) (err : error) :
  vm.CaptureAccountWrite a account = Panicked (PanicStr "implement me")
  /\ vm.CaptureStart a from to precompile create input gas value code
     = Panicked (PanicStr "implement me")
  /\ vm.CaptureEnter a typ from to precompile create input gas value code
     = Panicked (PanicStr "implement me")
  /\ vm.CaptureTxStart a gas = Val (a, tt)
  /\ vm.CaptureTxEnd a gas = Val (a, tt)
  /\ (exists a', vm.CaptureState Bytes32 Bytes20 a op scope = Val (a', tt))
  /\ vm.CaptureFault a op scope = Val (a, tt)
  /\ vm.CaptureEnd a output gas err = Val (a, tt)
  /\ vm.CaptureExit a output gas err = Val (a, tt)
  /\ vm.CaptureSelfDestruct a from to value = Val (a, tt)
  /\ vm.CaptureAccountRead a account = Val (a, None).
Proof.
  repeat split. eexists. reflexivity.
Qed.

End TracerFacts.

(** C8, as stated, fails: [CaptureAccountWrite] hands back no result at all,
    be it an error value or nil; it panics. *)
Lemma CaptureAccountWrite_aborts :
  ~ exists a' (r : error),
      vm.CaptureAccountWrite (Address := N) (Hash := N)
        (vm.NewAccessListTracer [] 1 2 []) 3 = Val (a', r).
Proof. intros (a' & r & Habs). discriminate Habs. Qed.

(** ** Running commands against a world *)
Section Running.
Import world.
Context {W : Type}.
Variable ext : forall R, call R -> W -> R * W.

Lemma run_invoke {R} (c : call R) w :
  invoke ext c w = (Val (ext R c w).1, (ext R c w).2, [Entry c (ext R c w).1]).
Proof. unfold invoke. now destruct (ext R c w). Qed.

Lemma ends_run {A} (m : @M W A) w r t : ends m w r t -> m w = (r, after m w, t).
Proof. unfold ends, after. destruct (m w) as [[r' w'] t']. cbn. now intros [-> ->]. Qed.

Lemma ends_eq {A} (m : @M W A) w r t t' : ends m w r t -> t = t' -> ends m w r t'.
Proof. now intros ? <-. Qed.

Lemma ends_ret {A} (a : A) (w : W) : ends (ret a) w (Val a) [].
Proof. now split. Qed.

Lemma ends_invoke {R} (c : call R) w :
  ends (invoke ext c) w (Val (ext R c w).1) [Entry c (ext R c w).1].
Proof. unfold ends. now rewrite run_invoke. Qed.

Lemma ends_bind {A B} (m : @M W A) (f : A -> @M W B) w a t1 r t2 :
  ends m w (Val a) t1 -> ends (f a) (after m w) r t2 ->
  ends (bind m f) w r (t1 ++ t2).
Proof.
  intros Hm Hf. apply ends_run in Hm. apply ends_run in Hf.
  unfold ends, bind. now rewrite Hm, Hf.
Qed.

Lemma after_bind {A B} (m : @M W A) (f : A -> @M W B) w a t1 :
  ends m w (Val a) t1 -> after (bind m f) w = after (f a) (after m w).
Proof.
  intros Hm. apply ends_run in Hm. unfold after at 1. unfold bind. rewrite Hm.
  unfold after. now destruct (f a _) as [[? ?] ?].
Qed.

Lemma ends_defer {A} (d : @M W unit) (body : @M W A) w r t1 r' t2 :
  ends body w r t1 -> ends d (after body w) r' t2 ->
  ends (defer d body) w r (t1 ++ t2).
Proof.
  intros Hb Hd. apply ends_run in Hb. apply ends_run in Hd.
  unfold ends, defer. now rewrite Hb, Hd.
Qed.

End Running.

(** Answer the next external call of the goal: name its answer and the
    world after it. *)
Ltac answer ext :=
  match goal with
  | |- context [ext ?R ?c ?w] =>
      let r := fresh "r" in
      let w' := fresh "w" in
      let E := fresh "E" in
      destruct (ext R c w) as [r w'] eqn:E; cbn [fst snd] in *;
      try match type of r with unit => destruct r end
  end.

(** ** The [create] command *)
Section Create.
Import world snapshots trace.
Context {W : Type}.
Variable ext : forall R, call R -> W -> R * W.
Variable FullImmutabilityThreshold : N.

Local Abbreviation doSnapshotCommand := (doSnapshotCommand ext FullImmutabilityThreshold).
Local Abbreviation snapshotBlocks := (snapshotBlocks ext FullImmutabilityThreshold).

(** C7. A segment size below 1000 makes [create] return its error before
    any external call: no directory is created, no database opened. With
    a segment size of 1000 or more the check passes and the command goes
    on to its first call, the creation of the snapshot directory. *)
Theorem segment_size_checked_first (fromBlock toBlock segmentSize : N) (w : W) :
  (segmentSize < 1000 ->
     doSnapshotCommand fromBlock toBlock segmentSize w
     = (Val (Some (too_small segmentSize)), w, []))
  /\ (1000 <= segmentSize ->
     exists r w' rest,
       doSnapshotCommand fromBlock toBlock segmentSize w
       = (r, w', Entry (MustExist Snap) (ext _ (MustExist Snap) w).1 :: rest)).
Proof.
  unfold snapshots.doSnapshotCommand. split; intro Hs.
  - apply N.ltb_lt in Hs. now rewrite Hs.
  - apply N.ltb_ge in Hs. rewrite Hs.
    unfold must at 1. unfold bind at 1. unfold bind at 1. rewrite run_invoke.
    destruct (ext _ (MustExist Snap) w).1 as [v|]; cbn.
    + eauto.
    + destruct (bind _ _ _) as [[r w'] rest]. eauto.
Qed.

(** C3, as the code has it. In any world, [create] returns the error of
    whichever phase after the dump of the blocks fails (reopening the
    snapshot folder, creating the aggregator, reopening its files,
    opening, filling or committing the metadata transaction) and, the
    segment-size error apart, no other error; when none of these phases
    fails and nothing panics it returns nil, and it returns nil only
    after the metadata transaction was committed. An error of
    [snapshotBlocks] (of its read-only transaction, its cursor, the last
    key or the dump) is logged, after which the command goes on to reopen
    the snapshot folder. *)
Theorem create_reports_later_phases (fromBlock toBlock segmentSize : N) (w : W) :
  let '(r, _, t) := doSnapshotCommand fromBlock toBlock segmentSize w in
  Forall (fun x => forall e, failed_phase x = Some e -> r = Val (Some e)) t
  /\ (forall e, r = Val (Some e) ->
        (segmentSize < 1000 /\ e = too_small segmentSize)
        \/ Exists (fun x => failed_phase x = Some e) t)
  /\ (1000 <= segmentSize -> (forall v, r <> Panicked v) ->
        Forall (fun x => failed_phase x = None) t -> r = Val None)
  /\ (r = Val None -> existsb runs.is_Commit t = true)
  /\ Forall (fun x => forall e, runs.blocks_error x = Some e ->
               exists r' rest',
                 index.after_logged_error t = Some (e, Entry ReopenFolder r' :: rest')) t
  /\ forall e rest, after_failed_dump t = Some (e, rest) ->
       exists r' rest', rest = Entry (LogError (ErrorfW "DumpBlocks: %w" e)) tt
                               :: Entry ReopenFolder r' :: rest'.
Proof.
  unfold snapshots.doSnapshotCommand, snapshots.snapshotBlocks, snapshots.lastChunk,
    must, Update, View, defer, bind, invoke, ret, panic.
  destruct (segmentSize <? 1000) eqn:Hseg.
  { apply N.ltb_lt in Hseg.
    split; [constructor|]. split; [intros e' [= <-]; auto|].
    split; [lia|]. split; [discriminate|]. split; [constructor|discriminate]. }
  repeat
    (first
       [ answer ext
       | match goal with
         | |- context [match ?x with Some _ => _ | None => _ end] => is_var x; destruct x
         | |- context [if ?b then _ else _] => destruct b
         | |- context [BigEndian_Uint64 ?k] => destruct (BigEndian_Uint64 k)
         | |- context [let '(_, _) := ?x in _] => is_var x; destruct x
         end ];
     cbn [app fst snd]).
  all: split;
    [ repeat constructor; cbn; intros; simplify_eq; reflexivity |].
  all: split;
    [ intros e' He; try discriminate He; injection He as <-; right;
      repeat (first [ apply Exists_cons_hd; reflexivity | apply Exists_cons_tl ]) |].
  all: split;
    [ intros _ Hnp Hall;
      repeat match goal with
             | H : Forall _ (_ :: _) |- _ => apply Forall_cons_1 in H as [? H]
             end;
      cbn in *; simplify_eq; try reflexivity; exfalso; eapply Hnp; reflexivity |].
  all: split; [ intros Hnil; try discriminate Hnil; reflexivity |].
  all: split;
    [ repeat first [apply Forall_nil_2 | apply Forall_cons_2];
      cbn; intros e' He; try discriminate He; injection He as <-; eauto
    | cbn; intros e' rest' Hd; try discriminate Hd;
      injection Hd as <- <-; eauto ].
Qed.

End Create.

(** C3, as stated, fails: in the world where only the dump of the blocks
    fails, [snapshotBlocks] returns an error and [create] returns nil. *)
Lemma create_swallows_dump_error :
  (snapshots.snapshotBlocks world.dump_fails 90000 0 2000 1000 tt).1.1
  = Val (Some (ErrorfW "DumpBlocks: %w" (ErrExt 1)))
  /\ (snapshots.doSnapshotCommand world.dump_fails 90000 0 2000 1000 tt).1.1 = Val None.
Proof. split; vm_compute; reflexivity. Qed.

(** Blocks 0 to 5000 in segments of 1000, every call going well: no
    phase fails and nil is returned. *)
Lemma create_reports_later_phases_witness :
  (snapshots.doSnapshotCommand world.ok_world 90000 0 5000 1000 tt).1.1 = Val None.
Proof.
  pose proof (create_reports_later_phases world.ok_world 90000 0 5000 1000 tt) as Hrun.
  destruct (snapshots.doSnapshotCommand world.ok_world 90000 0 5000 1000 tt)
    as [[r w'] t] eqn:Hcreate.
  destruct Hrun as (_ & _ & Hnil & _). cbn [fst].
  vm_compute in Hcreate. injection Hcreate as <- <- <-.
  apply Hnil.
  - discriminate.
  - discriminate.
  - repeat constructor.
Defined.

Lemma segment_size_checked_first_witness :
  snapshots.doSnapshotCommand world.ok_world 90000 0 2000 999 tt
  = (Val (Some (snapshots.too_small 999)), tt, [])
  /\ exists r w' rest,
       snapshots.doSnapshotCommand world.ok_world 90000 0 2000 1000 tt
       = (r, w', world.Entry (world.MustExist world.Snap) None :: rest).
Proof.
  split.
  - apply (proj1 (segment_size_checked_first world.ok_world 90000 0 2000 999 tt)).
    reflexivity.
  - apply (proj2 (segment_size_checked_first world.ok_world 90000 0 2000 1000 tt)).
    discriminate.
Defined.

(** ** The [retire] command when all goes well *)
Section RetireOk.
Import world snapshots trace.
Context {W : Type}.
Variable ext : forall R, call R -> W -> R * W.
Variable FullImmutabilityThreshold : N.
Variable HistoryV3AggregationStep : N.
Hypothesis Hok : all_succeed ext.

(** A call that returns only an error goes well in this world. *)
Lemma ends_invoke_ok {A} (c : call (option A)) w :
  succeeded c = (fun r => r = None) ->
  ends (invoke ext c) w (Val None) [Entry c None].
Proof.
  intro Hc. pose proof (Hok _ c w) as Hs. rewrite Hc in Hs.
  pose proof (ends_invoke ext c w) as He. now rewrite Hs in He.
Qed.

Lemma ends_invoke_unit (c : call unit) w : ends (invoke ext c) w (Val tt) [Entry c tt].
Proof. pose proof (ends_invoke ext c w) as He. now destruct (ext _ c w).1. Qed.

Lemma prune_blocks_ok n w :
  ends (prune_blocks ext n) w (Val None) (repeat (Entry PruneAncientBlocks None) n).
Proof.
  revert w. induction n as [|n IH]; intro w; cbn [prune_blocks repeat].
  - apply ends_ret.
  - apply (ends_bind _ _ _ None [_]); [now apply ends_invoke_ok | apply IH].
Qed.

Lemma Update_ok (f : @M W error) w t :
  ends f (after (invoke ext BeginRw) w) (Val None) t ->
  ends (Update ext f) w (Val None)
       ([Entry BeginRw None] ++ (t ++ [Entry Commit None]) ++ [Entry Rollback tt]).
Proof.
  intro Hf. unfold Update.
  eapply ends_bind; [now apply ends_invoke_ok|]. cbn beta iota.
  eapply ends_defer; [|apply ends_invoke_unit].
  eapply ends_bind; [exact Hf|]. now apply ends_invoke_ok.
Qed.

Lemma retire_step_tx_ok w : exists snaps aggs,
  ends (retire_step_tx ext) w (Val None)
       ([Entry BeginRw None] ++ retire_step_tx_body snaps aggs ++ [Entry Rollback tt]).
Proof.
  set (w0 := after (invoke ext BeginRw) w).
  set (snaps := (ext _ SnapshotsFiles w0).1).
  set (w1 := after (invoke ext SnapshotsFiles) w0).
  set (aggs := (ext _ AggFiles w1).1).
  exists snaps, aggs. unfold retire_step_tx.
  eapply ends_eq.
  - apply Update_ok. fold w0.
    eapply ends_bind; [apply ends_invoke|]. fold snaps w1.
    eapply ends_bind; [apply ends_invoke|]. fold aggs.
    eapply ends_bind; [now apply ends_invoke_ok|]. cbn beta iota.
    eapply ends_bind; [apply ends_invoke_unit|].
    apply prune_blocks_ok.
  - unfold retire_step_tx_body. cbn [app]. do 5 f_equal.
Qed.

Lemma add64_small i every : i + every < 2 ^ 64 -> add64 i every = i + every.
Proof. intro Hs. unfold add64, uint64_mod. now apply N.mod_small. Qed.

(** [n] more steps from [i] on: the loop runs [n] times and stops. *)
Lemma retire_loop_ok (to every : N) (n : nat) : forall fuel i w,
  (n <= fuel)%nat ->
  to + every <= 2 ^ 64 ->
  to <= i + N.of_nat n * every ->
  (forall k, k < N.of_nat n -> i + k * every < to) ->
  exists files,
    length files = n
    /\ ends (retire_loop ext fuel i to every) w (Val None) (retire_steps i every files).
Proof.
  induction n as [|n IH]; intros fuel i w Hfuel Hfit Hlast Hin.
  - exists []. split; [reflexivity|].
    assert (Hge : (i <? to) = false) by (apply N.ltb_ge; lia).
    destruct fuel; cbn [retire_loop]; rewrite Hge; apply ends_ret.
  - destruct fuel as [|fuel]; [lia|].
    assert (Hi : i < to) by (specialize (Hin 0); lia).
    assert (Hlt : (i <? to) = true) by now apply N.ltb_lt.
    cbn [retire_loop]. rewrite Hlt, add64_small by lia.
    set (w1 := after (invoke ext (RetireBlocks i (i + every))) w).
    destruct (retire_step_tx_ok w1) as (snaps & aggs & Htx).
    destruct (IH fuel (i + every) (after (retire_step_tx ext) w1)) as (files & Hlen & Hrest).
    + lia.
    + assumption.
    + lia.
    + intros k Hk. specialize (Hin (k + 1)). lia.
    + exists ((snaps, aggs) :: files). split; [cbn; lia|].
      eapply ends_eq.
      * eapply ends_bind; [now apply ends_invoke_ok|]. cbn beta iota. fold w1.
        eapply ends_bind; [exact Htx|]. exact Hrest.
      * cbn [retire_steps]. unfold retire_step. cbn [fst snd app].
        now rewrite <- !app_assoc.
Qed.

(** With [every = 0] the loop stays at [from]: whatever the fuel, it is
    used up. *)
Lemma retire_loop_stuck (to : N) (fuel : nat) : forall i w,
  i < to -> to <= 2 ^ 64 ->
  exists t, ends (retire_loop ext fuel i to 0) w OutOfFuel t.
Proof.
  induction fuel as [|fuel IH]; intros i w Hi Hto;
    cbn [retire_loop]; rewrite (proj2 (N.ltb_lt i to) Hi).
  - exists []. split; reflexivity.
  - rewrite add64_small by lia. rewrite N.add_0_r.
    destruct (retire_step_tx_ok (after (invoke ext (RetireBlocks i i)) w))
      as (snaps & aggs & Htx).
    destruct (IH i (after (retire_step_tx ext)
                      (after (invoke ext (RetireBlocks i i)) w)) Hi Hto) as [t Ht].
    eexists.
    eapply (ends_bind _ _ _ None); [now apply ends_invoke_ok|]. cbn beta iota.
    eapply (ends_bind _ _ _ None); [exact Htx|]. exact Ht.
Qed.

Lemma prune_history_ok n w :
  ends (prune_history ext HistoryV3AggregationStep n) w (Val None)
       (prune_history_phase HistoryV3AggregationStep n).
Proof.
  revert w. induction n as [|n IH]; intro w; cbn [prune_history].
  - apply ends_ret.
  - unfold prune_history_phase. cbn [repeat concat].
    eapply (ends_bind _ _ _ None); [|apply IH].
    eapply ends_eq; [|reflexivity].
    apply (Update_ok _ _ [Entry AggSetTx tt; Entry (AggPrune HistoryV3AggregationStep) None]).
    eapply (ends_bind _ _ _ tt [_]); [apply ends_invoke_unit|].
    now apply ends_invoke_ok.
Qed.

Lemma set_tx_num_ok w : exists p n,
  ends (set_tx_num ext) w (Val None) (watermark p None n).
Proof.
  pose proof (Hok _ (GetStageProgress Execution) (after (invoke ext BeginRo) w)) as Hp.
  destruct (ext _ (GetStageProgress Execution) (after (invoke ext BeginRo) w))
    as [[p e] w1] eqn:Ep.
  cbn in Hp. subst e.
  pose proof (Hok _ (TxNumsMax p) w1) as Hn.
  destruct (ext _ (TxNumsMax p) w1) as [[n e] w2] eqn:En.
  cbn in Hn. subst e.
  exists p, n. unfold set_tx_num, View.
  eapply ends_eq.
  - eapply (ends_bind _ _ _ (tt, None)); [|apply ends_ret].
    eapply (ends_bind _ _ _ None); [now apply ends_invoke_ok|]. cbn beta iota.
    eapply ends_defer; [|apply ends_invoke_unit].
    eapply ends_bind; [apply ends_invoke|]. rewrite Ep. cbn [fst snd].
    assert (Hw1 : after (invoke ext (GetStageProgress Execution))
                        (after (invoke ext BeginRo) w) = w1).
    { unfold after at 1. rewrite run_invoke, Ep. reflexivity. }
    rewrite Hw1.
    eapply ends_bind; [apply ends_invoke|]. rewrite En. cbn [fst snd].
    eapply ends_bind; [apply ends_invoke_unit|]. apply ends_ret.
  - rewrite Ep, En. reflexivity.
Qed.

Lemma retire_history_ok w : exists p n,
  ends (retire_history ext HistoryV3AggregationStep) w (Val None)
       (history_phases HistoryV3AggregationStep p n).
Proof.
  unfold retire_history.
  set (w1 := after (invoke ext (LogInfo "Prune state history")) w).
  set (w2 := after (prune_history ext HistoryV3AggregationStep 1024) w1).
  set (w3 := after (invoke ext (LogInfo "Work on state history snapshots")) w2).
  set (w4 := after (invoke ext BuildMissedIndices) w3).
  destruct (set_tx_num_ok w4) as (p & n & Hset).
  exists p, n. unfold history_phases.
  eapply ends_bind; [apply ends_invoke_unit|]. fold w1.
  eapply ends_bind; [apply prune_history_ok|]. cbn beta iota. fold w2.
  eapply (ends_bind _ _ _ tt [_]); [apply ends_invoke_unit|]. fold w3.
  eapply (ends_bind _ _ _ None [_]); [now apply ends_invoke_ok|]. cbn beta iota. fold w4.
  eapply ends_bind; [exact Hset|]. cbn beta iota.
  eapply (ends_bind _ _ _ tt [_]); [apply ends_invoke_unit|].
  eapply (ends_bind _ _ _ None [_]); [now apply ends_invoke_ok|]. cbn beta iota.
  eapply (ends_bind _ _ _ None [_]); [now apply ends_invoke_ok|]. cbn beta iota.
  eapply (ends_bind _ _ _ tt [_]); [apply ends_invoke_unit|].
  eapply ends_eq.
  - eapply ends_bind; [apply prune_history_ok|]. apply ends_ret.
  - apply app_nil_r.
Qed.

(** The whole run of [retire] over [n] sub-ranges. *)
Lemma doRetireCommand_ok (from to every : N) (n fuel : nat) w :
  (n <= fuel)%nat ->
  to + every <= 2 ^ 64 ->
  to <= from + N.of_nat n * every ->
  (forall k, k < N.of_nat n -> from + k * every < to) ->
  exists files (history : bool) p m,
    length files = n
    /\ ends (doRetireCommand ext HistoryV3AggregationStep fuel from to every) w (Val None)
         (retire_prologue ++ retire_steps from every files
          ++ [Entry HistoryV3FromDB history]
          ++ (if history then history_phases HistoryV3AggregationStep p m else [])
          ++ retire_epilogue).
Proof.
  intros Hfuel Hfit Hlast Hin. unfold doRetireCommand.
  set (w1 := after (invoke ext MustOpen) w).
  set (w2 := after (invoke ext ReopenWithDB) w1).
  set (w3 := after (invoke ext NewAggregator22) w2).
  set (w4 := after (invoke ext AggReopenFiles) w3).
  set (w5 := after (invoke ext AggSetWorkers) w4).
  set (w6 := after (invoke ext (LogInfo "Params")) w5).
  destruct (retire_loop_ok to every n fuel from w6 Hfuel Hfit Hlast Hin)
    as (files & Hlen & Hloop).
  set (w7 := after (retire_loop ext fuel from to every) w6).
  set (history := (ext _ HistoryV3FromDB w7).1).
  set (w8 := after (invoke ext HistoryV3FromDB) w7).
  destruct (retire_history_ok w8) as (p & m & Hhist).
  exists files, history, p, m. split; [exact Hlen|].
  eapply ends_eq.
  - eapply ends_defer; [|apply ends_invoke_unit].
    eapply (ends_bind _ _ _ None [_]); [now apply ends_invoke_ok|]. cbn beta iota. fold w1.
    eapply ends_defer; [|apply ends_invoke_unit].
    eapply (ends_bind _ _ _ None [_]); [now apply ends_invoke_ok|]. cbn beta iota. fold w2.
    eapply (ends_bind _ _ _ None [_]); [now apply ends_invoke_ok|]. cbn beta iota. fold w3.
    eapply (ends_bind _ _ _ None [_]); [now apply ends_invoke_ok|]. cbn beta iota. fold w4.
    eapply (ends_bind _ _ _ tt [_]); [apply ends_invoke_unit|]. fold w5.
    eapply (ends_bind _ _ _ tt [_]); [apply ends_invoke_unit|]. fold w6.
    eapply ends_bind; [exact Hloop|]. cbn beta iota. fold w7.
    eapply ends_bind; [apply ends_invoke|]. fold history w8.
    instantiate (1 := if history then history_phases HistoryV3AggregationStep p m else []).
    destruct history; cbn [negb]; [exact Hhist | apply ends_ret].
  - unfold retire_prologue, retire_epilogue. cbn [app].
    rewrite <- !app_assoc. reflexivity.
Qed.

End RetireOk.

Section RetireClaims.
Import world snapshots trace.
Context {W : Type}.
Variable ext : forall R, call R -> W -> R * W.
Variable HistoryV3AggregationStep : N.
Hypothesis Hok : all_succeed ext.

Local Abbreviation doRetireCommand := (doRetireCommand ext HistoryV3AggregationStep).

Lemma subranges_spec from to every k :
  from < to -> 0 < every ->
  (k < subranges from to every <-> from + k * every < to).
Proof.
  intros Hft Hev. unfold subranges.
  pose proof (N.div_mod (to - from + every - 1) every ltac:(lia)) as Hdm.
  pose proof (N.mod_upper_bound (to - from + every - 1) every ltac:(lia)) as Hmod.
  set (q := (to - from + every - 1) / every) in *.
  set (r := (to - from + every - 1) mod every) in *.
  split; intro Hk; nia.
Qed.

Lemma subranges_last from to every :
  from < to -> 0 < every -> to <= from + subranges from to every * every.
Proof.
  intros Hft Hev.
  destruct (N.le_gt_cases to (from + subranges from to every * every)) as [|Hgt];
    [assumption|].
  apply (subranges_spec from to every _ Hft Hev) in Hgt. lia.
Qed.

Lemma no_RetireBlocks_prune_history n :
  Forall (fun x => is_RetireBlocks x = false)
         (prune_history_phase HistoryV3AggregationStep n).
Proof.
  induction n as [|n IH]; unfold prune_history_phase; cbn [repeat concat].
  - constructor.
  - apply Forall_app. split; [repeat constructor | exact IH].
Qed.

Lemma no_RetireBlocks_history_phases p n :
  Forall (fun x => is_RetireBlocks x = false)
         (history_phases HistoryV3AggregationStep p n).
Proof.
  unfold history_phases.
  apply Forall_app_2; [repeat constructor|].
  apply Forall_app_2; [apply no_RetireBlocks_prune_history|].
  apply Forall_app_2; [repeat constructor|].
  apply Forall_app_2; [repeat constructor|].
  apply Forall_app_2; [repeat constructor|].
  apply no_RetireBlocks_prune_history.
Qed.

(** [n] more steps from [i] on, none of which takes the loop variable
    beyond 64 bits: the loop runs [n] times and stops. *)
Lemma retire_loop_nowrap (to every : N) (n : nat) : forall fuel i w,
  (n <= fuel)%nat ->
  (forall k, k < N.of_nat n -> i + (k + 1) * every < 2 ^ 64) ->
  to <= i + N.of_nat n * every ->
  (forall k, k < N.of_nat n -> i + k * every < to) ->
  exists files,
    length files = n
    /\ ends (retire_loop ext fuel i to every) w (Val None) (retire_steps i every files).
Proof.
  induction n as [|n IH]; intros fuel i w Hfuel Hfit Hlast Hin.
  - exists []. split; [reflexivity|].
    assert (Hge : (i <? to) = false) by (apply N.ltb_ge; lia).
    destruct fuel; cbn [retire_loop]; rewrite Hge; apply ends_ret.
  - destruct fuel as [|fuel]; [lia|].
    assert (Hi : i < to) by (specialize (Hin 0); lia).
    assert (Hlt : (i <? to) = true) by now apply N.ltb_lt.
    assert (Hstep : i + every < 2 ^ 64) by (specialize (Hfit 0); lia).
    cbn [retire_loop]. rewrite Hlt, (add64_small i every Hstep).
    set (w1 := after (invoke ext (RetireBlocks i (i + every))) w).
    destruct (retire_step_tx_ok ext Hok w1) as (snaps & aggs & Htx).
    destruct (IH fuel (i + every) (after (retire_step_tx ext) w1)) as (files & Hlen & Hrest).
    + lia.
    + intros k Hk. specialize (Hfit (k + 1)). lia.
    + lia.
    + intros k Hk. specialize (Hin (k + 1)). lia.
    + exists ((snaps, aggs) :: files). split; [cbn; lia|].
      eapply ends_eq.
      * eapply ends_bind; [now apply ends_invoke_ok|]. cbn beta iota. fold w1.
        eapply ends_bind; [exact Htx|]. exact Hrest.
      * cbn [retire_steps]. unfold retire_step. cbn [fst snd app].
        now rewrite <- !app_assoc.
Qed.

(** The whole run of [retire] over [n] sub-ranges, the loop variable
    staying within 64 bits. *)
Lemma doRetireCommand_nowrap (from to every : N) (n fuel : nat) w :
  (n <= fuel)%nat ->
  (forall k, k < N.of_nat n -> from + (k + 1) * every < 2 ^ 64) ->
  to <= from + N.of_nat n * every ->
  (forall k, k < N.of_nat n -> from + k * every < to) ->
  exists files (history : bool) p m,
    length files = n
    /\ ends (doRetireCommand fuel from to every) w (Val None)
         (retire_prologue ++ retire_steps from every files
          ++ [Entry HistoryV3FromDB history]
          ++ (if history then history_phases HistoryV3AggregationStep p m else [])
          ++ retire_epilogue).
Proof.
  intros Hfuel Hfit Hlast Hin. unfold snapshots.doRetireCommand.
  set (w1 := after (invoke ext MustOpen) w).
  set (w2 := after (invoke ext ReopenWithDB) w1).
  set (w3 := after (invoke ext NewAggregator22) w2).
  set (w4 := after (invoke ext AggReopenFiles) w3).
  set (w5 := after (invoke ext AggSetWorkers) w4).
  set (w6 := after (invoke ext (LogInfo "Params")) w5).
  destruct (retire_loop_nowrap to every n fuel from w6 Hfuel Hfit Hlast Hin)
    as (files & Hlen & Hloop).
  set (w7 := after (retire_loop ext fuel from to every) w6).
  set (history := (ext _ HistoryV3FromDB w7).1).
  set (w8 := after (invoke ext HistoryV3FromDB) w7).
  destruct (retire_history_ok ext HistoryV3AggregationStep Hok w8) as (p & m & Hhist).
  exists files, history, p, m. split; [exact Hlen|].
  eapply ends_eq.
  - eapply ends_defer; [|apply ends_invoke_unit].
    eapply (ends_bind _ _ _ None [_]); [now apply ends_invoke_ok|]. cbn beta iota. fold w1.
    eapply ends_defer; [|apply ends_invoke_unit].
    eapply (ends_bind _ _ _ None [_]); [now apply ends_invoke_ok|]. cbn beta iota. fold w2.
    eapply (ends_bind _ _ _ None [_]); [now apply ends_invoke_ok|]. cbn beta iota. fold w3.
    eapply (ends_bind _ _ _ None [_]); [now apply ends_invoke_ok|]. cbn beta iota. fold w4.
    eapply (ends_bind _ _ _ tt [_]); [apply ends_invoke_unit|]. fold w5.
    eapply (ends_bind _ _ _ tt [_]); [apply ends_invoke_unit|]. fold w6.
    eapply ends_bind; [exact Hloop|]. cbn beta iota. fold w7.
    eapply ends_bind; [apply ends_invoke|]. fold history w8.
    instantiate (1 := if history then history_phases HistoryV3AggregationStep p m else []).
    destruct history; cbn [negb]; [exact Hhist | apply ends_ret].
  - unfold retire_prologue, retire_epilogue. cbn [app].
    rewrite <- !app_assoc. reflexivity.
Qed.

(** C5, with the two provisos under which the loop of the source counts
    as the claim has it: a positive [every] (with 0 the loop never
    advances) and a loop variable that stays within 64 bits up to its
    last value, [from + n * every] for [n] sub-ranges (beyond,
    [i += every] wraps around and the loop goes on). When all calls go
    well, [retire] returns nil having made, after its prologue, the calls
    of one step per sub-range starting below [to], in ascending order;
    each step retires its sub-range, then within one read-write
    transaction writes the two file lists it finds and prunes; nothing is
    retired outside these steps. *)
Theorem retire_processes_subranges (from to every : N) (fuel : nat) (w : W) :
  from < to -> 0 < every -> from + subranges from to every * every < 2 ^ 64 ->
  subranges from to every <= N.of_nat fuel ->
  exists w' files rest,
    doRetireCommand fuel from to every w
    = (Val None, w', retire_prologue ++ retire_steps from every files ++ rest)
    /\ (forall k, k < N.of_nat (length files) <-> from + k * every < to)
    /\ Forall (fun x => is_RetireBlocks x = false) (retire_prologue ++ rest).
Proof.
  intros Hft Hev Hfit Hfuel.
  destruct (doRetireCommand_nowrap from to every
              (N.to_nat (subranges from to every)) fuel w)
    as (files & history & p & m & Hlen & Hrun).
  - lia.
  - intros k Hk. rewrite N2Nat.id in Hk. nia.
  - rewrite N2Nat.id. now apply subranges_last.
  - intros k Hk. rewrite N2Nat.id in Hk. now apply subranges_spec in Hk.
  - apply ends_run in Hrun. eexists _, files, _. split; [exact Hrun|]. split.
    + intro k. rewrite Hlen, N2Nat.id. now apply subranges_spec.
    + apply Forall_app. split; [repeat constructor|].
      apply Forall_app. split; [repeat constructor|].
      apply Forall_app. split; [|repeat constructor].
      destruct history; [apply no_RetireBlocks_history_phases|constructor].
Qed.

(** Reading the read-write transactions off a trace. *)
Lemma rw_transactions_skip pre t :
  Forall (fun x => is_BeginRw x = false) pre ->
  rw_transactions_from None (pre ++ t) = rw_transactions_from None t.
Proof.
  induction 1 as [|x pre Hx Hpre IH]; [reflexivity|].
  cbn [app rw_transactions_from]. now rewrite Hx.
Qed.

Lemma rw_transactions_body body : forall acc t,
  Forall (fun x => is_Rollback x = false) body ->
  rw_transactions_from (Some acc) (body ++ Entry Rollback tt :: t)
  = (acc ++ body) :: rw_transactions_from None t.
Proof.
  induction body as [|x body IH]; intros acc t Hbody.
  - cbn. now rewrite app_nil_r.
  - apply Forall_cons_1 in Hbody as [Hx Hbody].
    cbn [app rw_transactions_from]. rewrite Hx, IH by assumption.
    now rewrite <- app_assoc.
Qed.

Lemma no_Rollback_repeat_prune n :
  Forall (fun x => is_Rollback x = false) (repeat (Entry PruneAncientBlocks None) n).
Proof. induction n; cbn [repeat]; now constructor. Qed.

Lemma rw_transactions_retire_steps every files : forall i t,
  rw_transactions_from None (retire_steps i every files ++ t)
  = map (fun f => retire_step_tx_body f.1 f.2) files ++ rw_transactions_from None t.
Proof.
  induction files as [|f files IH]; intros i t; [reflexivity|].
  cbn [retire_steps map]. unfold retire_step. rewrite <- !app_assoc.
  cbn [app rw_transactions_from is_BeginRw].
  rewrite (rw_transactions_body (retire_step_tx_body f.1 f.2) []).
  - cbn [app]. now rewrite IH.
  - unfold retire_step_tx_body.
    apply Forall_app_2; [repeat constructor|].
    apply Forall_app_2; [apply no_Rollback_repeat_prune|repeat constructor].
Qed.

Lemma rw_transactions_prune_history n : forall t,
  rw_transactions_from None (prune_history_phase HistoryV3AggregationStep n ++ t)
  = repeat (prune_history_tx_body HistoryV3AggregationStep) n
    ++ rw_transactions_from None t.
Proof.
  induction n as [|n IH]; intro t; [reflexivity|].
  unfold prune_history_phase. cbn [repeat concat].
  fold (prune_history_phase HistoryV3AggregationStep n).
  unfold prune_history_tx, prune_history_tx_body.
  cbn [app rw_transactions_from is_BeginRw is_Rollback].
  now rewrite IH.
Qed.

Lemma rw_transactions_history_phases p n t :
  Forall (fun x => is_BeginRw x = false) t ->
  rw_transactions_from None (history_phases HistoryV3AggregationStep p n ++ t)
  = repeat (prune_history_tx_body HistoryV3AggregationStep) (1024 + 1024).
Proof.
  intro Ht. unfold history_phases. rewrite <- !app_assoc.
  rewrite (rw_transactions_skip [_]) by repeat constructor.
  rewrite rw_transactions_prune_history.
  rewrite (rw_transactions_skip [_; _]) by repeat constructor.
  rewrite (rw_transactions_skip (watermark p None n)) by repeat constructor.
  rewrite (rw_transactions_skip [_; _; _; _]) by repeat constructor.
  rewrite rw_transactions_prune_history.
  rewrite <- (app_nil_r t), (rw_transactions_skip t []) by assumption.
  cbn [rw_transactions_from]. rewrite app_nil_r. symmetry. apply repeat_app.
Qed.

Lemma filter_repeat_prune n :
  List.filter is_PruneAncientBlocks (repeat (Entry PruneAncientBlocks None) n)
  = repeat (Entry PruneAncientBlocks None) n.
Proof. induction n as [|n IH]; [reflexivity|]. cbn. now rewrite IH. Qed.

Lemma block_prunes_around (pre post : list entry) n :
  List.filter is_PruneAncientBlocks pre = [] ->
  List.filter is_PruneAncientBlocks post = [] ->
  block_prunes (pre ++ repeat (Entry PruneAncientBlocks None) n ++ post) = n.
Proof.
  intros Hpre Hpost. unfold block_prunes.
  rewrite !List.filter_app, Hpre, Hpost, filter_repeat_prune, app_nil_r.
  apply repeat_length.
Qed.

Lemma block_prunes_retire_step snaps aggs :
  block_prunes (retire_step_tx_body snaps aggs) = N.to_nat 10000.
Proof. unfold retire_step_tx_body. now apply block_prunes_around. Qed.


End RetireClaims.

(** ** Runs in the world where every call goes well *)

Lemma ok_world_all_succeed : world.all_succeed world.ok_world.
Proof. intros R c w. destruct c; reflexivity. Qed.

(** Two sub-ranges of 2^63 - 1 blocks below [to = 2^63 + 5]: the loop
    variable ends at 2^64 - 2, within 64 bits, although [to + every] is
    not. *)
Lemma retire_processes_subranges_witness :
  let every := 2 ^ 63 - 1 in
  let to := 2 ^ 63 + 5 in
  exists w' files rest,
    snapshots.doRetireCommand world.ok_world 3125 2 0 to every tt
    = (Val None, w',
       trace.retire_prologue ++ trace.retire_steps 0 every files ++ rest)
    /\ (forall k, k < N.of_nat (length files) <-> 0 + k * every < to)
    /\ Forall (fun x => trace.is_RetireBlocks x = false) (trace.retire_prologue ++ rest).
Proof.
  intros every to.
  apply (retire_processes_subranges world.ok_world 3125 ok_world_all_succeed
           0 to every 2 tt).
  - reflexivity.
  - reflexivity.
  - vm_compute. reflexivity.
  - vm_compute. discriminate.
Defined.

(** C5, as stated, fails where the loop variable wraps around. With
    [from = 2^64 - 2], [to = 2^64 - 1] and [every = 2] a single sub-range
    starts below [to], but after retiring it the loop goes on from block 0:
    two units of fuel are spent on two steps and the loop is not finished. *)
Lemma retire_wraps_around :
  let from := 2 ^ 64 - 2 in
  let to := 2 ^ 64 - 1 in
  let run := snapshots.doRetireCommand world.ok_world 3125 2 from to 2 tt in
  (forall k, from + k * 2 < to <-> k < 1)
  /\ run.1.1 = OutOfFuel
  /\ List.filter trace.is_RetireBlocks run.2
     = [world.Entry (world.RetireBlocks from 0) None;
        world.Entry (world.RetireBlocks 0 2) None].
Proof.
  cbv zeta. split; [|split].
  - intro k. change (2 ^ 64) with 18446744073709551616. lia.
  - vm_compute. reflexivity.
  - vm_compute. reflexivity.
Qed.



(** ** The history phases of [retire] in any world *)
Section History.
Import world snapshots trace.
Context {W : Type}.
Variable ext : forall R, call R -> W -> R * W.
Variable HistoryV3AggregationStep : N.

Local Abbreviation prune_history := (prune_history ext HistoryV3AggregationStep).
Local Abbreviation retire_history := (retire_history ext HistoryV3AggregationStep).

(** Pruning state history never builds a file, whatever happens. *)
Lemma prune_history_builds_nothing n : forall w,
  Forall (fun x => is_BuildFiles x = false) (prune_history n w).2.
Proof.
  induction n as [|n IH]; intro w; cbn [snapshots.prune_history].
  - constructor.
  - unfold Update, defer, bind, invoke, ret.
    repeat
      (first
         [ answer ext
         | match goal with
           | |- context [match ?x with Some _ => _ | None => _ end] => is_var x; destruct x
           | |- context [prune_history n ?w'] =>
               let H := fresh "H" in
               pose proof (IH w') as H;
               destruct (prune_history n w') as [[[?|?|] ?] ?]; cbn [fst snd] in H
           end ];
       cbn [app fst snd]).
    all: repeat (apply Forall_cons_2; [reflexivity|]); try assumption; try constructor.
Qed.

(** In any world: either [retire_history] never gets to build files, or
    the call that builds them comes right after the aggregator's [txNum]
    was set to the highest transaction number [n] of the block [p] that
    the execution stage had reached. *)
Lemma watermark_before_build w :
  let t := (retire_history w).2 in
  Forall (fun x => is_BuildFiles x = false) t
  \/ exists t1 p e n r t2,
       t = t1 ++ watermark p e n
              ++ [Entry (LogInfo "Build state history snapshots") tt; Entry BuildFiles r]
              ++ t2
       /\ Forall (fun x => is_BuildFiles x = false) t1.
Proof.
  cbv zeta. unfold snapshots.retire_history, set_tx_num, View, defer, bind, invoke, ret.
  repeat
    (first
       [ answer ext
       | match goal with
         | |- context [match ?x with Some _ => _ | None => _ end] => is_var x; destruct x
         | x : (N * error)%type |- _ => destruct x
         | |- context [prune_history 1024 ?w'] =>
             let H := fresh "H" in
             pose proof (prune_history_builds_nothing 1024 w') as H;
             destruct (prune_history 1024 w') as [[[[?|]|?|] ?] ?]; cbn [fst snd] in H
         end ];
     cbn [app fst snd]).
  all: first
    [ left;
      solve [ repeat (first [ assumption
                            | apply Forall_cons_2; [reflexivity|]
                            | apply Forall_app_2; [assumption|]
                            | apply Forall_nil_2 ]) ]
    | right;
      match goal with
      | |- context [Entry (LogInfo "Prune state history") tt :: ?T ++ _] =>
          exists (Entry (LogInfo "Prune state history") tt
                  :: T ++ [Entry (LogInfo "Work on state history snapshots") tt;
                           Entry BuildMissedIndices None])
      end;
      do 5 eexists; split;
      [ unfold watermark; cbn [app]; rewrite <- ?app_assoc; cbn [app]; reflexivity
      | apply Forall_cons_2; [reflexivity|];
        apply Forall_app_2; [assumption | repeat constructor] ] ].
Qed.

End History.

(** ** The upper bound of an unbounded run *)
Section UpperBound.
Import world snapshots trace.
Context {W : Type}.
Variable ext : forall R, call R -> W -> R * W.
Variable FullImmutabilityThreshold : N.
Variable HistoryV3AggregationStep : N.
Hypothesis Hok : all_succeed ext.

Lemma sub64_small a b : b <= a -> a < 2 ^ 64 -> sub64 a b = a - b.
Proof.
  intros Hba Ha. unfold sub64, uint64_mod.
  rewrite (N.mod_small b) by lia.
  replace (a + 2 ^ 64 - b) with (a - b + 1 * 2 ^ 64) by lia.
  rewrite N.Div0.mod_add. apply N.mod_small. lia.
Qed.

Lemma BigEndian_Uint64_bound k last : BigEndian_Uint64 k = Some last -> last < 2 ^ 64.
Proof.
  unfold BigEndian_Uint64.
  destruct k as [|b0 [|b1 [|b2 [|b3 [|b4 [|b5 [|b6 [|b7 k]]]]]]]]; try discriminate.
  intros [= <-]. cbn [fold_left].
  pose proof (Byte.to_N_bounded b0). pose proof (Byte.to_N_bounded b1).
  pose proof (Byte.to_N_bounded b2). pose proof (Byte.to_N_bounded b3).
  pose proof (Byte.to_N_bounded b4). pose proof (Byte.to_N_bounded b5).
  pose proof (Byte.to_N_bounded b6). pose proof (Byte.to_N_bounded b7).
  change (2 ^ 64) with 18446744073709551616. lia.
Qed.

Local Abbreviation selected_bound := (selected_bound FullImmutabilityThreshold).

(** [create] with [to = 0]: when the calls go well and the last key of
    the block bodies holds the number [last], the blocks are dumped up to
    the bound the spec asks for. *)
Lemma snapshotBlocks_unbounded (fromBlock blocksPerFile last : N) (w : W) :
  let w2 := after (invoke ext CursorBlockBody) (after (invoke ext BeginRo) w) in
  let k := (ext _ CursorLast w2).1.1 in
  blocksPerFile <> 0 ->
  BigEndian_Uint64 k = Some last ->
  ends (snapshotBlocks ext FullImmutabilityThreshold fromBlock 0 blocksPerFile) w
       (Val None)
       [Entry BeginRo None; Entry CursorBlockBody None; Entry CursorLast (k, None);
        Entry Rollback tt; Entry (LogInfo "Last body number") tt;
        Entry (DumpBlocks fromBlock (selected_bound last blocksPerFile) blocksPerFile) None].
Proof.
  intros w2 k Hbpf Hkey.
  pose proof (BigEndian_Uint64_bound _ _ Hkey) as Hlast.
  pose proof (Hok _ CursorLast w2) as Hcur. cbn in Hcur.
  assert (Hans : (ext _ CursorLast w2).1 = (k, None)).
  { subst k. destruct (ext _ CursorLast w2).1 as [k' e']. cbn in *. now subst e'. }
  assert (Hbound :
    sub64 (if FullImmutabilityThreshold <? last
           then sub64 last FullImmutabilityThreshold else 0)
          ((if FullImmutabilityThreshold <? last
            then sub64 last FullImmutabilityThreshold else 0) mod blocksPerFile)
    = selected_bound last blocksPerFile).
  { unfold trace.selected_bound.
    destruct (FullImmutabilityThreshold <? last) eqn:Hthr.
    - apply N.ltb_lt in Hthr.
      rewrite (sub64_small last FullImmutabilityThreshold) by lia.
      set (x := last - FullImmutabilityThreshold).
      pose proof (N.mod_upper_bound x blocksPerFile Hbpf).
      pose proof (N.div_mod x blocksPerFile Hbpf).
      pose proof (N.Div0.mod_le x blocksPerFile).
      assert (x < 2 ^ 64) by (subst x; lia).
      rewrite sub64_small by assumption. lia.
    - apply N.ltb_ge in Hthr.
      replace (last - FullImmutabilityThreshold) with 0 by lia.
      rewrite N.Div0.mod_0_l, N.Div0.div_0_l, N.mul_0_r. reflexivity. }
  unfold snapshotBlocks. cbn [N.ltb N.compare]. unfold View.
  eapply ends_eq.
  - eapply (ends_bind _ _ _ (selected_bound last blocksPerFile, None)).
    + eapply (ends_bind _ _ _ None); [now apply ends_invoke_ok|]. cbn beta iota.
      eapply ends_defer; [|apply ends_invoke_unit].
      unfold lastChunk.
      eapply (ends_bind _ _ _ None); [now apply ends_invoke_ok|]. cbn beta iota.
      eapply ends_bind; [apply ends_invoke|]. fold w2. rewrite Hans.
      cbn beta iota. rewrite Hkey.
      destruct (blocksPerFile =? 0) eqn:E0; [apply N.eqb_eq in E0; contradiction|].
      rewrite Hbound. apply ends_ret.
    + cbn beta iota.
      eapply (ends_bind _ _ _ tt); [apply ends_invoke_unit|].
      eapply (ends_bind _ _ _ None); [now apply ends_invoke_ok|]. apply ends_ret.
  - fold w2. rewrite Hans. reflexivity.
Qed.

(** C4 on [retire]: with [to = 0] the loop over the sub-ranges ends before
    its first turn. When all calls go well the run consists of the
    prologue, the query of the history flag, the history phases (if
    enabled) and the epilogue: no last block key is read, no bound is
    computed, no block is retired. *)
Theorem retire_unbounded_retires_nothing (from every : N) (fuel : nat) (w : W) :
  exists w' (history : bool) p n,
    doRetireCommand ext HistoryV3AggregationStep fuel from 0 every w
    = (Val None, w',
       retire_prologue ++ [Entry HistoryV3FromDB history]
       ++ (if history then history_phases HistoryV3AggregationStep p n else [])
       ++ retire_epilogue).
Proof.
  assert (Hloop : retire_loop ext fuel from 0 every = ret None).
  { destruct fuel; cbn [retire_loop]; now destruct from. }
  set (w6 := after (invoke ext (LogInfo "Params"))
               (after (invoke ext AggSetWorkers)
                  (after (invoke ext AggReopenFiles)
                     (after (invoke ext NewAggregator22)
                        (after (invoke ext ReopenWithDB)
                           (after (invoke ext MustOpen) w)))))).
  set (history := (ext _ HistoryV3FromDB w6).1).
  destruct (retire_history_ok ext HistoryV3AggregationStep Hok
              (after (invoke ext HistoryV3FromDB) w6)) as (p & n & Hhist).
  eexists _, history, p, n. apply ends_run.
  unfold doRetireCommand. rewrite Hloop.
  eapply ends_eq.
  - eapply ends_defer; [|apply ends_invoke_unit].
    eapply (ends_bind _ _ _ None [_]); [now apply ends_invoke_ok|]. cbn beta iota.
    eapply ends_defer; [|apply ends_invoke_unit].
    eapply (ends_bind _ _ _ None [_]); [now apply ends_invoke_ok|]. cbn beta iota.
    eapply (ends_bind _ _ _ None [_]); [now apply ends_invoke_ok|]. cbn beta iota.
    eapply (ends_bind _ _ _ None [_]); [now apply ends_invoke_ok|]. cbn beta iota.
    eapply (ends_bind _ _ _ tt [_]); [apply ends_invoke_unit|].
    eapply (ends_bind _ _ _ tt [_]); [apply ends_invoke_unit|].
    eapply (ends_bind _ _ _ None []); [apply ends_ret|]. cbn beta iota.
    eapply ends_bind; [apply ends_invoke|].
    change (after (ret None) ?x) with x. fold w6. fold history.
    instantiate (1 := if history then history_phases HistoryV3AggregationStep p n else []).
    destruct history; cbn [negb]; [exact Hhist | apply ends_ret].
  - unfold retire_prologue, retire_epilogue. cbn [app].
    rewrite <- !app_assoc. reflexivity.
Qed.

End UpperBound.

(** The default flags of [retire]: from 0, to 0 (unbounded), every 1000. *)
Lemma retire_unbounded_retires_nothing_witness :
  exists w' (history : bool) p n,
    snapshots.doRetireCommand world.ok_world 3125 0 0 0 1000 tt
    = (Val None, w',
       trace.retire_prologue ++ [world.Entry world.HistoryV3FromDB history]
       ++ (if history then trace.history_phases 3125 p n else [])
       ++ trace.retire_epilogue).
Proof.
  apply (retire_unbounded_retires_nothing world.ok_world 3125 ok_world_all_succeed
           0 1000 0 tt).
Defined.

(** ** Further properties of the access-list accumulator and tracer *)
Section AccumulatorMore.
Context `{Countable Address} `{Countable Hash}.
Implicit Types al : gmap Address (gset Hash).

Lemma included_refl al : tracer_inv.included al al.
Proof. intros addr slots Hl. eauto. Qed.

Lemma included_trans al1 al2 al3 :
  tracer_inv.included al1 al2 -> tracer_inv.included al2 al3 -> tracer_inv.included al1 al3.
Proof.
  intros H12 H23 addr s1 Hl.
  destruct (H12 _ _ Hl) as (s2 & Hl2 & Hs12).
  destruct (H23 _ _ Hl2) as (s3 & Hl3 & Hs23).
  exists s3. split; [assumption|set_solver].
Qed.

Lemma included_addAddress al a : tracer_inv.included al (vm.addAddress al a).
Proof.
  intros addr slots Hl. rewrite lookup_addAddress.
  destruct (decide (a = addr)) as [->|]; [|eauto].
  rewrite (index_Some _ _ _ Hl). eauto.
Qed.

Lemma included_addSlot al a slot : tracer_inv.included al (vm.addSlot al a slot).
Proof.
  intros addr slots Hl. rewrite lookup_addSlot.
  destruct (decide (a = addr)) as [->|]; [|eauto].
  rewrite (index_Some _ _ _ Hl). eexists. split; [reflexivity|set_solver].
Qed.

(** X1. Adding an address or a slot never takes anything off the list, and
    adding the same thing twice changes nothing the second time. *)
Theorem insert_only_grows al (op : vm.insertion) :
  tracer_inv.included al (vm.insert al op)
  /\ vm.insert (vm.insert al op) op = vm.insert al op.
Proof.
  destruct op as [a [slot|]]; cbn [vm.insert]; split.
  - apply included_addSlot.
  - apply map_eq. intro addr. rewrite !lookup_addSlot, index_addSlot.
    destruct (decide (a = addr)); [|reflexivity].
    rewrite decide_True by reflexivity. f_equal. set_solver.
  - apply included_addAddress.
  - apply map_eq. intro addr. rewrite !lookup_addAddress, index_addAddress.
    destruct (decide (a = addr)); reflexivity.
Qed.

End AccumulatorMore.

Section CaptureStateFacts.
Context `{Countable Address} `{Countable Hash}.
Variable Bytes32 : N -> Hash.
Variable Bytes20 : N -> Address.
Implicit Types a : vm.AccessListTracer (Address := Address) (Hash := Hash).

(** [CaptureState] always returns; the tracer it leaves is the old one, the
    old one with a slot of the running contract, or the old one with an
    address that is added unless excluded. *)
Lemma CaptureState_cases a op scope :
  exists a', vm.CaptureState Bytes32 Bytes20 a op scope = Val (a', tt)
    /\ (a' = a
        \/ (exists slot,
              a' = {| vm.excl := vm.excl a;
                      vm.list := vm.addSlot (vm.list a) (vm.Contract_Address scope) slot |})
        \/ exists addr, a' = vm.add_unless_excluded a addr).
Proof.
  unfold vm.CaptureState.
  destruct op; cbn beta iota zeta;
    repeat match goal with |- context [if ?b then _ else _] => destruct b end;
    eexists; (split; [reflexivity|]); eauto.
Qed.

(** X2. [CaptureState] leaves the exclusion set alone and takes nothing off the
    list. *)
Theorem CaptureState_grows a op scope a' :
  vm.CaptureState Bytes32 Bytes20 a op scope = Val (a', tt) -> tracer_inv.grows a a'.
Proof.
  intro Hrun.
  destruct (CaptureState_cases a op scope) as (a'' & Hrun' & Hcases).
  rewrite Hrun in Hrun'. injection Hrun' as <-.
  destruct Hcases as [->|[[slot ->]|[addr ->]]].
  - split; [reflexivity | apply included_refl].
  - split; [reflexivity | apply included_addSlot].
  - unfold vm.add_unless_excluded. destruct (decide (addr ∈ vm.excl a)).
    + split; [reflexivity | apply included_refl].
    + split; [reflexivity | apply included_addAddress].
Qed.

Lemma excluded_have_slots_New
    (acl : list (vm.AccessTuple (Address := Address) (Hash := Hash)))
    (from to : Address) (precompiles : list Address) :
  tracer_inv.excluded_have_slots (vm.NewAccessListTracer acl from to precompiles).
Proof.
  intros addr slots Hl Hex Hempty. subst slots.
  cbn [vm.NewAccessListTracer vm.excl vm.list] in *.
  set (excl := fold_left _ precompiles _) in *.
  assert (Hdom : addr ∈ dom (fold_left (vm.add_tuple excl) acl vm.newAccessList))
    by (apply elem_of_dom; eauto).
  apply dom_fold_add_tuple in Hdom as [Hdom|(t & Hin & Haddr & [Hnot|Hkeys])].
  - unfold vm.newAccessList in Hdom. set_solver.
  - subst addr. contradiction.
  - destruct (vm.StorageKeys t) as [|slot keys] eqn:Ekeys; [contradiction|].
    pose proof (index_fold_add_tuple_keys excl acl vm.newAccessList t slot Hin) as Hslot.
    rewrite Ekeys, Haddr, (index_Some _ _ _ Hl) in Hslot.
    specialize (Hslot ltac:(left)). set_solver.
Qed.

(** X3. The invariant of the tracer: a new tracer has no excluded address
    without a slot on its list, and [CaptureState] never puts one there. *)
Theorem excluded_have_slots_invariant
    (acl : list (vm.AccessTuple (Address := Address) (Hash := Hash)))
    (from to : Address) (precompiles : list Address) a op scope a' :
  tracer_inv.excluded_have_slots (vm.NewAccessListTracer acl from to precompiles)
  /\ (tracer_inv.excluded_have_slots a ->
      vm.CaptureState Bytes32 Bytes20 a op scope = Val (a', tt) ->
      tracer_inv.excluded_have_slots a').
Proof.
  split; [apply excluded_have_slots_New|].
  intros Hinv Hrun.
  destruct (CaptureState_cases a op scope) as (a'' & Hrun' & Hcases).
  rewrite Hrun in Hrun'. injection Hrun' as <-.
  destruct Hcases as [->|[[slot ->]|[addr ->]]]; [assumption| |].
  - intros addr slots Hl Hex. cbn [vm.list vm.excl] in *.
    rewrite lookup_addSlot in Hl.
    destruct (decide (vm.Contract_Address scope = addr)).
    + injection Hl as <-. set_solver.
    + now apply (Hinv addr).
  - unfold vm.add_unless_excluded.
    destruct (decide (addr ∈ vm.excl a)) as [|Hnot]; [assumption|].
    intros addr' slots Hl Hex. cbn [vm.list vm.excl] in *.
    rewrite lookup_addAddress in Hl.
    destruct (decide (addr = addr')) as [<-|]; [contradiction|].
    now apply (Hinv addr').
Qed.

End CaptureStateFacts.

(** ** From the accumulated list to [types.AccessList] and back *)
Section Conversion.
Context `{Countable Address} `{Countable Hash}.
Variable range_accounts : gmap Address (gset Hash) -> list (Address * gset Hash).
Variable range_slots : gset Hash -> list Hash.
Hypothesis range_accounts_perm : forall al, range_accounts al ≡ₚ map_to_list al.
Hypothesis range_slots_perm : forall slots, range_slots slots ≡ₚ elements slots.
Implicit Types al : gmap Address (gset Hash).
Implicit Types t : vm.AccessTuple (Address := Address) (Hash := Hash).

Local Abbreviation to_AccessList := (vm.to_AccessList range_accounts range_slots).

Lemma elem_of_range_accounts al addr slots :
  (addr, slots) ∈ range_accounts al <-> al !! addr = Some slots.
Proof. rewrite range_accounts_perm. apply elem_of_map_to_list. Qed.

Lemma elem_of_range_slots (slots : gset Hash) slot :
  slot ∈ range_slots slots <-> slot ∈ slots.
Proof. rewrite range_slots_perm. apply elem_of_elements. Qed.

Lemma elem_of_to_AccessList al t :
  t ∈ to_AccessList al
  <-> exists slots, al !! vm.tuple_Address t = Some slots
                    /\ vm.StorageKeys t = range_slots slots.
Proof.
  unfold vm.to_AccessList. rewrite list_elem_of_fmap. split.
  - intros ([addr slots] & -> & Hin). apply elem_of_range_accounts in Hin.
    exists slots. cbn. auto.
  - intros (slots & Hl & Hkeys). exists (vm.tuple_Address t, slots). split.
    + destruct t as [addr keys]. cbn in *. now subst keys.
    + now apply elem_of_range_accounts.
Qed.

Lemma addresses_to_AccessList al :
  map vm.tuple_Address (to_AccessList al) = (range_accounts al).*1.
Proof. unfold vm.to_AccessList. rewrite map_map. reflexivity. Qed.

(** X4. The converted list has one tuple per address of the accumulated list,
    and each tuple lists the slots of its address, each once. *)
Theorem to_AccessList_faithful al :
  NoDup (map vm.tuple_Address (to_AccessList al))
  /\ (forall addr, addr ∈ map vm.tuple_Address (to_AccessList al) <-> addr ∈ dom al)
  /\ (forall t, t ∈ to_AccessList al ->
        NoDup (vm.StorageKeys t)
        /\ forall slot, slot ∈ vm.StorageKeys t
                        <-> slot ∈ vm.index al (vm.tuple_Address t)).
Proof.
  rewrite addresses_to_AccessList. split; [|split].
  - rewrite range_accounts_perm. apply NoDup_fst_map_to_list.
  - intro addr. rewrite range_accounts_perm, elem_of_dom. split.
    + intros ([addr' slots] & -> & Hin)%list_elem_of_fmap.
      apply elem_of_map_to_list in Hin. eauto.
    + intros [slots Hl]. apply list_elem_of_fmap. exists (addr, slots).
      split; [reflexivity | now apply elem_of_map_to_list].
  - intros t (slots & Hl & Hkeys)%elem_of_to_AccessList.
    rewrite Hkeys, (index_Some _ _ _ Hl). split.
    + rewrite range_slots_perm. apply NoDup_elements.
    + intro slot. apply elem_of_range_slots.
Qed.

Lemma index_add_tuple_upper (excl : gset Address) al t addr slot :
  slot ∈ vm.index (vm.add_tuple excl al t) addr ->
  slot ∈ vm.index al addr \/ (vm.tuple_Address t = addr /\ slot ∈ vm.StorageKeys t).
Proof.
  unfold vm.add_tuple. unfold vm.index at 1. rewrite lookup_add_slots.
  destruct (decide (vm.tuple_Address t = addr /\ vm.StorageKeys t <> [])) as [[<- Hk]|Hn].
  - cbn. destruct (decide (vm.tuple_Address t ∈ excl)); [|rewrite index_addAddress];
      set_solver.
  - destruct (decide (vm.tuple_Address t ∈ excl)); [tauto|].
    fold (vm.index (vm.addAddress al (vm.tuple_Address t)) addr).
    rewrite index_addAddress. tauto.
Qed.

Lemma index_fold_add_tuple_upper (excl : gset Address)
      (acl : list (vm.AccessTuple (Address := Address) (Hash := Hash))) :
  forall al addr slot,
    slot ∈ vm.index (fold_left (vm.add_tuple excl) acl al) addr ->
    slot ∈ vm.index al addr
    \/ exists t, t ∈ acl /\ vm.tuple_Address t = addr /\ slot ∈ vm.StorageKeys t.
Proof.
  induction acl as [|t acl IH]; intros al addr slot Hin; cbn [fold_left] in Hin.
  - now left.
  - apply IH in Hin as [Hin|(t' & Ht' & Haddr & Hslot)].
    + apply index_add_tuple_upper in Hin as [Hin|[Haddr Hslot]]; [now left|].
      right. exists t. split; [left|]; auto.
    + right. exists t'. split; [now right|auto].
Qed.

Lemma range_slots_nil (slots : gset Hash) : range_slots slots = [] <-> slots = ∅.
Proof.
  split.
  - intro Hnil. apply set_eq. intro slot.
    rewrite <- elem_of_range_slots, Hnil. set_solver.
  - intros ->. apply Permutation_nil_r. rewrite range_slots_perm.
    now rewrite elements_empty.
Qed.

Lemma list_of_converted al (from to : Address) (precompiles : list Address) :
  let a := vm.NewAccessListTracer (to_AccessList al) from to precompiles in
  vm.list a = filter (tracer_inv.kept (vm.excl a)) al.
Proof.
  cbn zeta. cbn [vm.NewAccessListTracer vm.excl vm.list].
  set (excl := fold_left _ precompiles _).
  set (built := fold_left (vm.add_tuple excl) (to_AccessList al) vm.newAccessList).
  assert (Hdom : forall addr, addr ∈ dom built
            <-> exists slots, al !! addr = Some slots /\ tracer_inv.kept excl (addr, slots)).
  { intro addr. unfold built. rewrite dom_fold_add_tuple. unfold vm.newAccessList.
    rewrite dom_empty_L. split.
    - intros [?|(t & Hin & <- & Hl)]; [set_solver|].
      apply elem_of_to_AccessList in Hin as (slots & Hlook & Hkeys).
      exists slots. split; [assumption|].
      destruct Hl as [Hnot|Hne]; [now left|]. right. cbn.
      rewrite Hkeys in Hne. now rewrite <- range_slots_nil.
    - intros (slots & Hlook & Hkept). right.
      exists {| vm.tuple_Address := addr; vm.StorageKeys := range_slots slots |}.
      split; [apply elem_of_to_AccessList; cbn; eauto|]. split; [reflexivity|].
      destruct Hkept as [Hnot|Hne]; [now left|]. right. cbn in *.
      now rewrite range_slots_nil. }
  apply map_eq. intro addr.
  destruct (built !! addr) as [slots'|] eqn:Eb.
  - assert (Hin : addr ∈ dom built) by (apply elem_of_dom; eauto).
    apply Hdom in Hin as (slots & Hlook & Hkept).
    assert (Hsame : slots' = slots).
    { apply set_eq. intro slot. split; intro Hslot.
      - assert (Hidx : slot ∈ vm.index built addr) by now rewrite (index_Some _ _ _ Eb).
        apply index_fold_add_tuple_upper in Hidx as [Hidx|(t & Hin & Haddr & Hkey)].
        + unfold vm.newAccessList, vm.index in Hidx. rewrite lookup_empty in Hidx.
          set_solver.
        + apply elem_of_to_AccessList in Hin as (slots2 & Hlook2 & Hkeys2).
          rewrite Haddr, Hlook in Hlook2. injection Hlook2 as <-.
          rewrite Hkeys2 in Hkey. now apply elem_of_range_slots in Hkey.
      - pose proof (index_fold_add_tuple_keys excl (to_AccessList al) vm.newAccessList
                      {| vm.tuple_Address := addr; vm.StorageKeys := range_slots slots |}
                      slot) as Hkeys.
        cbn [vm.tuple_Address vm.StorageKeys] in Hkeys. fold built in Hkeys.
        rewrite (index_Some _ _ _ Eb) in Hkeys. apply Hkeys.
        + apply elem_of_to_AccessList. cbn. eauto.
        + now apply elem_of_range_slots. }
    subst slots'. symmetry. apply map_lookup_filter_Some. now split.
  - symmetry. apply map_lookup_filter_None.
    destruct (al !! addr) as [slots|] eqn:Hlook; [right|now left].
    intros slots2 [= <-] Hkept.
    assert (Hin : addr ∈ dom built) by (apply Hdom; eauto).
    apply elem_of_dom in Hin as [? Hsome]. congruence.
Qed.

(** X5. Building a tracer from a converted list gives back the list, less the
    excluded addresses that have no slot. *)
Theorem NewAccessListTracer_of_converted al (from to : Address) (precompiles : list Address) :
  let a := vm.NewAccessListTracer (to_AccessList al) from to precompiles in
  vm.list a = filter (tracer_inv.kept (vm.excl a)) al.
Proof. apply list_of_converted. Qed.

Lemma excl_NewAccessListTracer
      (acl acl2 : list (vm.AccessTuple (Address := Address) (Hash := Hash))) (from to : Address)
      (precompiles : list Address) :
  vm.excl (vm.NewAccessListTracer acl from to precompiles)
  = vm.excl (vm.NewAccessListTracer acl2 from to precompiles).
Proof. reflexivity. Qed.

(** X6. A tracer that keeps the invariant is equal to the tracer built from its
    own access list with its own exclusions. *)
Theorem AccessList_round_trip
    (a : vm.AccessListTracer (Address := Address) (Hash := Hash)) (from to : Address)
    (precompiles : list Address) :
  tracer_inv.excluded_have_slots a ->
  vm.excl a = vm.excl (vm.NewAccessListTracer (Hash := Hash) [] from to precompiles) ->
  vm.Equal range_accounts range_slots
    (vm.NewAccessListTracer (vm.AccessList range_accounts range_slots a) from to precompiles)
    a = true.
Proof.
  intros Hinv Hexcl. unfold vm.Equal, vm.AccessList.
  apply (equal_true_iff range_accounts range_slots range_accounts_perm range_slots_perm).
  rewrite list_of_converted.
  apply map_filter_id. intros addr slots Hlook.
  rewrite (excl_NewAccessListTracer _ [] from to precompiles), <- Hexcl.
  destruct (decide (addr ∈ vm.excl a)) as [Hex|Hnot]; [right|now left].
  cbn. now apply (Hinv addr).
Qed.

End Conversion.

(** ** The tracer at work on numeric addresses and slots *)

(** The contract at 2 (excluded as the recipient) loads its slot 5. *)
Lemma CaptureState_grows_witness :
  let a : vm.AccessListTracer (Address := N) (Hash := N) :=
    vm.NewAccessListTracer [{| vm.tuple_Address := 9; vm.StorageKeys := [7] |}] 1 2 [4] in
  let a' := {| vm.excl := vm.excl a; vm.list := vm.addSlot (vm.list a) 2 5 |} in
  tracer_inv.grows a a'.
Proof.
  intros a a'.
  apply (CaptureState_grows id id a vm.SLOAD
           {| vm.Stack := [5]; vm.Contract_Address := 2 |} a').
  reflexivity.
Defined.

Lemma excluded_have_slots_invariant_witness :
  let a : vm.AccessListTracer (Address := N) (Hash := N) :=
    vm.NewAccessListTracer [{| vm.tuple_Address := 9; vm.StorageKeys := [7] |}] 1 2 [4] in
  let a' := {| vm.excl := vm.excl a; vm.list := vm.addSlot (vm.list a) 2 5 |} in
  tracer_inv.excluded_have_slots a'.
Proof.
  intros a a'.
  destruct (excluded_have_slots_invariant id id
              [{| vm.tuple_Address := 9; vm.StorageKeys := [7] |}] 1 2 [4]
              a vm.SLOAD {| vm.Stack := [5]; vm.Contract_Address := 2 |} a')
    as [Hnew Hkeep].
  apply Hkeep; [exact Hnew | reflexivity].
Defined.

Lemma to_AccessList_faithful_witness :
  let al : gmap N (gset N) := vm.insert_all [(1, Some 7); (2, None); (1, Some 8)] in
  let acl := vm.to_AccessList map_to_list elements al in
  NoDup (map vm.tuple_Address acl)
  /\ (forall addr, addr ∈ map vm.tuple_Address acl <-> addr ∈ dom al)
  /\ (forall t, t ∈ acl ->
        NoDup (vm.StorageKeys t)
        /\ forall slot, slot ∈ vm.StorageKeys t <-> slot ∈ vm.index al (vm.tuple_Address t)).
Proof.
  intros al acl.
  apply (to_AccessList_faithful (Address := N) (Hash := N) map_to_list elements
           (fun _ => reflexivity _) (fun _ => reflexivity _)).
Defined.

(** Address 2 is excluded and has no slot: it is dropped; address 3 is
    excluded and has a slot: it stays. *)
Lemma NewAccessListTracer_of_converted_witness :
  let al : gmap N (gset N) := vm.insert_all [(1, Some 7); (2, None); (3, Some 8)] in
  let a := vm.NewAccessListTracer (vm.to_AccessList map_to_list elements al) 2 3 [4] in
  vm.list a = filter (tracer_inv.kept (vm.excl a)) al.
Proof.
  intros al a.
  apply (NewAccessListTracer_of_converted (Address := N) (Hash := N) map_to_list elements
           (fun _ => reflexivity _) (fun _ => reflexivity _)).
Defined.

Lemma AccessList_round_trip_witness :
  let a : vm.AccessListTracer (Address := N) (Hash := N) :=
    vm.NewAccessListTracer [{| vm.tuple_Address := 9; vm.StorageKeys := [7] |};
                            {| vm.tuple_Address := 2; vm.StorageKeys := [5] |}] 1 2 [4] in
  vm.Equal map_to_list elements
    (vm.NewAccessListTracer (vm.AccessList map_to_list elements a) 1 2 [4]) a = true.
Proof.
  intro a.
  apply (AccessList_round_trip (Address := N) (Hash := N) map_to_list elements
           (fun _ => reflexivity _) (fun _ => reflexivity _) a 1 2 [4]).
  - apply excluded_have_slots_New.
  - reflexivity.
Defined.

(** ** Further properties of [compress] and [uncompress] *)
Section CompressMore.
Import binary io compress app.
Context {C : Codec}.

(** Reading a proper prefix of what [PutUvarint] wrote runs into the end of
    the input. *)
Lemma ReadUvarint_from_prefix left : forall i acc s x (p q : list byte),
  PutUvarint_from left x = p ++ q -> q <> [] ->
  exists v,
    ReadUvarint_from left i acc s p
    = (v, Some (if 0 <? i + N.of_nat (length p) then ErrUnexpectedEOF else EOF), []).
Proof.
  induction left as [|left IH]; intros i acc s x p q Heq Hq.
  - cbn in Heq. symmetry in Heq. apply app_eq_nil in Heq as [_ ->]. contradiction.
  - cbn [PutUvarint_from] in Heq. cbn [ReadUvarint_from].
    destruct p as [|c p].
    + cbn [length]. rewrite N.add_0_r. eauto.
    + destruct (128 <=? x).
      * injection Heq as <- Heq. rewrite to_N_byte_of_N.
        change 256 with (2 ^ 8). change 128 with (2 ^ 7).
        fold (cont_byte x). rewrite cont_byte_small.
        pose proof (cont_byte_high x) as Hhigh.
        destruct (cont_byte x <? 2 ^ 7) eqn:Hlt; [apply N.ltb_lt in Hlt; lia|].
        destruct (IH (i + 1) (N.lor acc (shl64 (N.land (cont_byte x) 127) s)) (s + 7)
                     (N.shiftr x 7) p q Heq Hq) as [v Hv].
        exists v. rewrite Hv. cbn [length].
        assert (H1 : (0 <? i + 1 + N.of_nat (length p)) = true) by (apply N.ltb_lt; lia).
        assert (H2 : (0 <? i + N.of_nat (S (length p))) = true) by (apply N.ltb_lt; lia).
        now rewrite H1, H2.
      * injection Heq as _ Heq. symmetry in Heq.
        apply app_eq_nil in Heq as [_ ->]. contradiction.
Qed.

Section Loop.
Variable ctxDone : nat -> bool.
Hypothesis never_done : forall k, ctxDone k = false.

(** On whole records followed by more input the loop feeds the records and
    goes on with what follows, with a buffer that still fits an [int]. *)
Lemma doCompress_loop_app ws : forall fuel k c c' bufcap tail,
  Forall (fun w : list byte => N.of_nat (length w) < 2 ^ 63) ws ->
  AddWords c ws = inr c' ->
  (length (stream ws ++ tail) < fuel)%nat ->
  (0 <= bufcap < 2 ^ 63)%Z ->
  exists fuel' bufcap',
    (length tail < fuel')%nat /\ (0 <= bufcap' < 2 ^ 63)%Z
    /\ doCompress_loop ctxDone fuel k c bufcap (stream ws ++ tail)
       = doCompress_loop ctxDone fuel' (k + length ws) c' bufcap' tail.
Proof.
  induction ws as [|w ws IH]; intros fuel k c c' bufcap tail Hlen Hadd Hfuel Hcap.
  - cbn in Hadd. injection Hadd as <-. exists fuel, bufcap.
    rewrite Nat.add_0_r. auto.
  - destruct fuel as [|fuel]; [lia|].
    apply Forall_cons in Hlen as [Hw Hws].
    cbn [AddWords] in Hadd.
    destruct (AddWord c w) as [e|c1] eqn:Hc1; [discriminate|].
    rewrite stream_cons, <- !app_assoc in *. cbn [doCompress_loop].
    rewrite ReadUvarint_PutUvarint by apply len64_bound.
    rewrite (len64_small w Hw), buffer_fits by exact Hw.
    rewrite ReadFull_exact, Hc1, never_done.
    destruct (IH fuel (S k) c1 c'
                 (if (bufcap <? int_of_uint64 (N.of_nat (length w)))%Z
                  then Z.of_N (N.of_nat (length w)) else bufcap) tail)
      as (fuel' & bufcap' & Hfuel' & Hcap' & Hloop); try assumption.
    + rewrite !length_app in Hfuel. rewrite length_app.
      pose proof (PutUvarint_nonempty (len64 w)). lia.
    + destruct (bufcap <? _)%Z; [|assumption].
      apply N2Z.inj_lt in Hw. change (Z.of_N (2 ^ 63)) with (2 ^ 63)%Z in Hw. lia.
    + exists fuel', bufcap'. cbn [length].
      replace (k + S (length ws))%nat with (S k + length ws)%nat by lia. auto.
Qed.

(** X10. A stream of records of at most 2^20 bytes, the size of the buffer
    the command starts with, that breaks off inside a record, in its
    length or in its payload, makes [compress] return an end-of-input
    error and seal nothing. *)
Theorem doCompress_truncated (f : string) (ws : list (list byte)) (w partial q : list byte)
    (disk : gmap string SegFile) (c0 c : Compressor) :
  Forall (fun w : list byte => N.of_nat (length w) <= 2 ^ 20) (ws ++ [w]) ->
  NewCompressor f = inr c0 ->
  AddWords c0 ws = inr c ->
  partial ++ q = PutUvarint (len64 w) ++ w ->
  partial <> [] -> q <> [] ->
  exists e, doCompress ctxDone [f] (stream ws ++ partial) disk = Val (Some e, disk)
            /\ (e = EOF \/ e = ErrUnexpectedEOF).
Proof.
  intros Hsmall Hnew Hadd Heq Hpartial Hq.
  assert (Hlen : Forall (fun w : list byte => N.of_nat (length w) < 2 ^ 63) (ws ++ [w])).
  { eapply Forall_impl; [exact Hsmall|]. cbn beta. intros x Hx.
    assert (2 ^ 20 < 2 ^ 63) by reflexivity. lia. }
  apply Forall_app in Hlen as [Hws Hw]. apply Forall_inv in Hw.
  unfold doCompress. rewrite Hnew.
  destruct (doCompress_loop_app ws (S (length (stream ws ++ partial))) 0 c0 c (2 ^ 20)%Z
              partial Hws Hadd ltac:(lia) ltac:(lia))
    as (fuel' & bufcap' & Hfuel' & Hcap' & ->).
  destruct fuel' as [|fuel']; [lia|]. cbn [doCompress_loop].
  apply app_eq_app in Heq as [l [[Hp Hwq]|[Hput Hqw]]].
  - (* the length was read in full, the payload is short *)
    subst partial. rewrite ReadUvarint_PutUvarint by apply len64_bound.
    rewrite (len64_small w Hw), buffer_fits by exact Hw.
    unfold ReadFull. rewrite Nat2N.id.
    assert (Hshort : (length w <=? length l)%nat = false).
    { apply Nat.leb_gt. rewrite Hwq, length_app. destruct q; [contradiction|cbn; lia]. }
    rewrite Hshort. destruct l; eauto.
  - destruct l as [|b l].
    + (* the length was read in full, the payload is missing *)
      rewrite app_nil_r in Hput. cbn [app] in Hqw. subst q.
      rewrite <- (app_nil_r partial), <- Hput.
      rewrite ReadUvarint_PutUvarint by apply len64_bound.
      rewrite (len64_small w Hw), buffer_fits by exact Hw.
      unfold ReadFull. rewrite Nat2N.id.
      destruct w; [contradiction|]. cbn. eauto.
    + (* the length itself breaks off *)
      destruct (ReadUvarint_from_prefix MaxVarintLen64 0 0 0 (len64 w) partial (b :: l))
        as [v Hv]; [exact Hput | discriminate |].
      unfold ReadUvarint. rewrite Hv.
      destruct partial; [contradiction|]. cbn. eauto.
Qed.

(** X11. A length of 2^63 or more makes [compress] panic: as an [int] it is
    negative, so the buffer is not replaced and cannot be resliced. *)
Theorem doCompress_huge_length_panics (f : string) (ws : list (list byte)) (l : N)
    (rest : list byte) (disk : gmap string SegFile) (c0 c : Compressor) :
  Forall (fun w : list byte => N.of_nat (length w) < 2 ^ 63) ws ->
  NewCompressor f = inr c0 ->
  AddWords c0 ws = inr c ->
  2 ^ 63 <= l < 2 ^ 64 ->
  doCompress ctxDone [f] (stream ws ++ PutUvarint l ++ rest) disk
  = Panicked (PanicStr "slice bounds out of range").
Proof.
  intros Hws Hnew Hadd [Hlo Hhi].
  unfold doCompress. rewrite Hnew.
  destruct (doCompress_loop_app ws (S (length (stream ws ++ PutUvarint l ++ rest))) 0 c0 c
              (2 ^ 20)%Z (PutUvarint l ++ rest) Hws Hadd ltac:(lia) ltac:(lia))
    as (fuel' & bufcap' & Hfuel' & Hcap' & ->).
  destruct fuel' as [|fuel']; [lia|]. cbn [doCompress_loop].
  rewrite ReadUvarint_PutUvarint by assumption.
  unfold int_of_uint64. rewrite (proj2 (N.ltb_ge l (2 ^ 63)) Hlo).
  apply N2Z.inj_le in Hlo. apply N2Z.inj_lt in Hhi.
  change (Z.of_N (2 ^ 63)) with (2 ^ 63)%Z in Hlo.
  change (Z.of_N (2 ^ 64)) with (2 ^ 64)%Z in Hhi.
  rewrite (proj2 (Z.ltb_ge bufcap' (Z.of_N l - 2 ^ 64)%Z)) by lia.
  rewrite (proj2 (Z.leb_gt (Z.of_N l) bufcap')) by lia.
  reflexivity.
Qed.

End Loop.

(** What the writing loop has put out is a whole number of records, all of
    them when it returns nil. *)
Lemma doUncompress_loop_whole (ctxDone : nat -> bool) ws : forall k wr,
  exists n, (n <= length ws)%nat
    /\ (doUncompress_loop ctxDone k ws wr).2 = wr ++ stream (take n ws)
    /\ ((doUncompress_loop ctxDone k ws wr).1 = None -> n = length ws).
Proof.
  induction ws as [|w ws IH]; intros k wr.
  - exists 0%nat. cbn. rewrite app_nil_r. auto.
  - cbn [doUncompress_loop]. destruct (ctxDone k).
    + exists 1%nat. cbn [length take fst snd]. rewrite take_0.
      split; [lia|]. split; [|discriminate].
      unfold stream. cbn. now rewrite app_nil_r.
    + destruct (IH (S k) (wr ++ PutUvarint (len64 w) ++ w)) as (n & Hn & Hout & Hnil).
      exists (S n). cbn [length take]. split; [lia|]. split.
      * rewrite Hout, stream_cons. now rewrite <- !app_assoc.
      * intro He. now rewrite (Hnil He).
Qed.

(** X12. Standard output of [uncompress] always holds whole records: the first
    [n] words of the file, all of them when the command returns nil. A
    cancellation never cuts a record. *)
Theorem doUncompress_whole_records (ctxDone : nat -> bool) (f : string)
    (disk : gmap string SegFile) (F : SegFile) (d : Decompressor) :
  disk !! f = Some F ->
  NewDecompressor F = inr d ->
  exists n, (n <= length (words d))%nat
    /\ (doUncompress ctxDone [f] disk).2 = stream (take n (words d))
    /\ ((doUncompress ctxDone [f] disk).1 = None -> n = length (words d)).
Proof.
  intros Hf Hd. unfold doUncompress. rewrite Hf, Hd.
  destruct (doUncompress_loop_whole ctxDone (words d) 0 []) as (n & Hn & Hout & Hnil).
  eauto.
Qed.

End CompressMore.
(** ** The commands on small streams, through the list codec *)

(** The second record announces three bytes and brings two. *)
Lemma doCompress_truncated_witness :
  exists e,
    @app.doCompress compress.ListCodec (fun _ => false) ["a.seg"%string]
      (app.stream [[x01]] ++ [x03; x0a; x0b]) ∅ = Val (Some e, ∅)
    /\ (e = EOF \/ e = ErrUnexpectedEOF).
Proof.
  apply (@doCompress_truncated compress.ListCodec (fun _ => false) (fun _ => eq_refl)
           "a.seg"%string [[x01]] [x0a; x0b; x0c] [x03; x0a; x0b] [x0c] ∅ [] [[x01]]).
  - repeat (apply Forall_cons_2; [vm_compute; discriminate|]). apply Forall_nil_2.
  - reflexivity.
  - reflexivity.
  - reflexivity.
  - discriminate.
  - discriminate.
Defined.

(** A record announcing 2^63 bytes. *)
Lemma doCompress_huge_length_panics_witness :
  @app.doCompress compress.ListCodec (fun _ => false) ["a.seg"%string]
    (app.stream [[x01]] ++ binary.PutUvarint (2 ^ 63) ++ [x00]) ∅
  = Panicked (PanicStr "slice bounds out of range").
Proof.
  apply (@doCompress_huge_length_panics compress.ListCodec (fun _ => false) (fun _ => eq_refl)
           "a.seg"%string [[x01]] (2 ^ 63) [x00] ∅ [] [[x01]]).
  - repeat constructor.
  - reflexivity.
  - reflexivity.
  - split; [reflexivity|reflexivity].
Defined.

(** Cancelled at the second poll: two of three records are out. *)
Lemma doUncompress_whole_records_witness :
  let d := [[x01; x02]; []; [xff]] in
  let done := fun k : nat => Nat.eqb k 1 in
  exists n, (n <= 3)%nat
    /\ (@app.doUncompress compress.ListCodec done ["a.seg"%string]
         (<["a.seg"%string := d]> ∅)).2 = app.stream (take n d)
    /\ ((@app.doUncompress compress.ListCodec done ["a.seg"%string]
          (<["a.seg"%string := d]> ∅)).1 = None -> n = 3%nat).
Proof.
  intros d done.
  apply (@doUncompress_whole_records compress.ListCodec done "a.seg"%string
           (<["a.seg"%string := d]> ∅) d d).
  - reflexivity.
  - reflexivity.
Defined.

(** ** What [CaptureState] records *)
Section CaptureRecords.
Context `{Countable Address} `{Countable Hash}.
Variable Bytes32 : N -> Hash.
Variable Bytes20 : N -> Address.
Implicit Types a : vm.AccessListTracer (Address := Address) (Hash := Hash).

Lemma peek_top (below : list N) (top : N) : vm.peek (below ++ [top]) 1 = top.
Proof.
  unfold vm.peek. rewrite length_app. cbn [length].
  replace (length below + 1 - 1)%nat with (length below) by lia.
  now rewrite nth_middle.
Qed.

Lemma peek_second (below : list N) (second top : N) :
  vm.peek (below ++ [second; top]) 2 = second.
Proof.
  unfold vm.peek. rewrite length_app. cbn [length].
  replace (length below + 2 - 2)%nat with (length below) by lia.
  now rewrite nth_middle.
Qed.

(** X7. What an opcode touches is on the list afterwards: the slot on top of
    the stack under the running contract, excluded or not, for a storage
    access; the address on top of the stack for an account access and the
    one below the top for a call, unless excluded. Any other opcode
    leaves the tracer as it is. *)
Theorem CaptureState_records a (op : vm.OpCode) (scope : vm.ScopeContext (Address := Address))
    (below : list N) (top : N) a' :
  vm.Stack scope = below ++ [top] ->
  vm.CaptureState Bytes32 Bytes20 a op scope = Val (a', tt) ->
  match op with
  | vm.SLOAD | vm.SSTORE =>
      Bytes32 top ∈ vm.index (vm.list a') (vm.Contract_Address scope)
  | vm.EXTCODECOPY | vm.EXTCODEHASH | vm.EXTCODESIZE | vm.BALANCE | vm.SELFDESTRUCT =>
      Bytes20 top ∉ vm.excl a -> is_Some (vm.list a' !! Bytes20 top)
  | vm.DELEGATECALL | vm.CALL | vm.STATICCALL | vm.CALLCODE =>
      forall rest second, below = rest ++ [second] -> (3 <= length rest)%nat ->
        Bytes20 second ∉ vm.excl a -> is_Some (vm.list a' !! Bytes20 second)
  | vm.OtherOp _ => a' = a
  end.
Proof.
  intros Hstack. unfold vm.CaptureState. rewrite Hstack.
  assert (Hlen : (1 <=? length (below ++ [top]))%nat = true).
  { apply Nat.leb_le. rewrite length_app. cbn. lia. }
  assert (Hadd : forall addr, addr ∉ vm.excl a ->
            is_Some (vm.list (vm.add_unless_excluded a addr) !! addr)).
  { intros addr Hnot. unfold vm.add_unless_excluded.
    rewrite decide_False by assumption. cbn [vm.list].
    rewrite lookup_addAddress, decide_True by reflexivity. eauto. }
  assert (Hcall : forall rest second, below = rest ++ [second] -> (3 <= length rest)%nat ->
            (5 <=? length (below ++ [top]))%nat = true
            /\ vm.peek (below ++ [top]) 2 = second).
  { intros rest second -> Hrest. split.
    - apply Nat.leb_le. rewrite !length_app. cbn. lia.
    - rewrite <- app_assoc. apply peek_second. }
  destruct op; cbv beta iota zeta; rewrite ?Hlen, ?peek_top.
  1, 2: intros [= <-]; cbn [vm.list];
    rewrite index_addSlot, decide_True by reflexivity; set_solver.
  1-5: intros [= <-]; now apply Hadd.
  1-4: intros Hrun rest second Hbelow Hrest Hnot;
    destruct (Hcall rest second Hbelow Hrest) as [H5 Hpeek];
    rewrite H5, Hpeek in Hrun; injection Hrun as <-; now apply Hadd.
  intros [= <-]. reflexivity.
Qed.

(** X8. Without its operands on the stack an opcode is not recorded: a call
    needs five items, any other access one. *)
Theorem CaptureState_needs_operands a (op : vm.OpCode)
    (scope : vm.ScopeContext (Address := Address)) :
  (length (vm.Stack scope)
   < match op with
     | vm.DELEGATECALL | vm.CALL | vm.STATICCALL | vm.CALLCODE => 5
     | _ => 1
     end)%nat ->
  vm.CaptureState Bytes32 Bytes20 a op scope = Val (a, tt).
Proof.
  intro Hshort. unfold vm.CaptureState.
  destruct op; cbv beta iota zeta; try reflexivity.
  1-7: rewrite (proj2 (Nat.leb_gt 1 (length (vm.Stack scope)))) by exact Hshort; reflexivity.
  all: rewrite (proj2 (Nat.leb_gt 5 (length (vm.Stack scope)))) by exact Hshort; reflexivity.
Qed.

End CaptureRecords.

(** The contract at 2, excluded as the recipient, stores to its slot 5. *)
Lemma CaptureState_records_witness :
  let a : vm.AccessListTracer (Address := N) (Hash := N) :=
    vm.NewAccessListTracer [] 1 2 [4] in
  let a' := {| vm.excl := vm.excl a; vm.list := vm.addSlot (vm.list a) 2 5 |} in
  (5 : N) ∈ vm.index (vm.list a') (2 : N).
Proof.
  intros a a'.
  apply (CaptureState_records id id a vm.SSTORE
           {| vm.Stack := [8; 5]; vm.Contract_Address := 2 |} [8] 5 a');
    reflexivity.
Defined.

(** A call with four items on the stack. *)
Lemma CaptureState_needs_operands_witness :
  let a : vm.AccessListTracer (Address := N) (Hash := N) :=
    vm.NewAccessListTracer [] 1 2 [4] in
  vm.CaptureState id id a vm.CALL {| vm.Stack := [1; 2; 3; 4]; vm.Contract_Address := 2 |}
  = Val (a, tt).
Proof.
  intro a.
  apply (CaptureState_needs_operands id id a vm.CALL
           {| vm.Stack := [1; 2; 3; 4]; vm.Contract_Address := 2 |}).
  cbn. lia.
Defined.

(** ** Joining flag lists *)
Section JoinFlags.
Context {Flag : Type}.

Lemma joinFlags_from (lists : list (list Flag)) : forall res,
  fold_left (fun res list => res ++ list) lists res = res ++ concat lists.
Proof.
  induction lists as [|l lists IH]; intro res; cbn [fold_left concat].
  - now rewrite app_nil_r.
  - now rewrite IH, app_assoc.
Qed.

(** X13. A subcommand gets its own flags first and the shared ones after
    them: every flag of every list, in the order given, none dropped and
    none repeated. *)
Theorem joinFlags_keeps_all (own : list Flag) (shared : list (list Flag)) :
  cli.joinFlags (own :: shared) = own ++ cli.joinFlags shared
  /\ cli.joinFlags shared = concat shared.
Proof.
  unfold cli.joinFlags. cbn [fold_left]. rewrite !joinFlags_from. auto.
Qed.

End JoinFlags.

(** ** Rules for what holds of every run *)
Section EveryRun.
Import world runs.
Context {W : Type}.
Variable ext : forall R, call R -> W -> R * W.

Lemma every_run_weaken {A} (m : @M W A) (Q Q' : res A -> list entry -> Prop) :
  every_run m Q -> (forall r t, Q r t -> Q' r t) -> every_run m Q'.
Proof. intros Hm HQ w. apply HQ, Hm. Qed.

Lemma every_run_ret {A} (a : A) (Q : res A -> list entry -> Prop) :
  Q (Val a) [] -> every_run (ret a : @M W A) Q.
Proof. intros HQ w. exact HQ. Qed.

Lemma every_run_panic {A} v (Q : res A -> list entry -> Prop) :
  Q (Panicked v) [] -> every_run (panic v : @M W A) Q.
Proof. intros HQ w. exact HQ. Qed.

Lemma every_run_out_of_fuel {A} (Q : res A -> list entry -> Prop) :
  Q OutOfFuel [] -> every_run (out_of_fuel : @M W A) Q.
Proof. intros HQ w. exact HQ. Qed.

Lemma every_run_invoke {R} (c : call R) (Q : res R -> list entry -> Prop) :
  (forall r, Q (Val r) [Entry c r]) -> every_run (invoke ext c) Q.
Proof. intros HQ w. rewrite run_invoke. apply HQ. Qed.

Lemma every_run_bind {A B} (m : @M W A) (f : A -> @M W B)
    (Qm : res A -> list entry -> Prop) (Q : res B -> list entry -> Prop) :
  every_run m Qm ->
  (forall a t1, Qm (Val a) t1 -> every_run (f a) (fun r t2 => Q r (t1 ++ t2))) ->
  (forall v t1, Qm (Panicked v) t1 -> Q (Panicked v) t1) ->
  (forall t1, Qm OutOfFuel t1 -> Q OutOfFuel t1) ->
  every_run (bind m f) Q.
Proof.
  intros Hm Hf Hp Ho w. specialize (Hm w). unfold bind.
  destruct (m w) as [[[a|v|] w1] t1]; cbn [fst snd] in *.
  - specialize (Hf a t1 Hm w1). destruct (f a w1) as [[r w2] t2]. exact Hf.
  - now apply Hp.
  - now apply Ho.
Qed.

(** A call followed by the rest of the function. *)
Lemma every_run_call {R B} (c : call R) (f : R -> @M W B)
    (Q : res B -> list entry -> Prop) :
  (forall r, every_run (f r) (fun res t => Q res (Entry c r :: t))) ->
  every_run (bind (invoke ext c) f) Q.
Proof.
  intros Hf. apply (every_run_bind _ _ (fun r t => exists a, r = Val a /\ t = [Entry c a])).
  - apply every_run_invoke. eauto.
  - intros a t1 (a' & [= <-] & ->). apply Hf.
  - intros v t1 (a' & [=] & _).
  - intros t1 (a' & [=] & _).
Qed.

Lemma every_run_defer {A} (d : @M W unit) (body : @M W A)
    (Qb : res A -> list entry -> Prop) (Qd : res unit -> list entry -> Prop)
    (Q : res A -> list entry -> Prop) :
  every_run body Qb -> every_run d Qd ->
  (forall r t1 r' t2, Qb r t1 -> Qd r' t2 -> Q r (t1 ++ t2)) ->
  every_run (defer d body) Q.
Proof.
  intros Hb Hd HQ w. specialize (Hb w). unfold defer.
  destruct (body w) as [[r w1] t1]. specialize (Hd w1).
  destruct (d w1) as [[r' w2] t2]. cbn [fst snd] in *. eauto.
Qed.

(** A deferred call that answers nothing. *)
Lemma every_run_defer_call {A} (c : call unit) (body : @M W A)
    (Qb Q : res A -> list entry -> Prop) :
  every_run body Qb ->
  (forall r t, Qb r t -> Q r (t ++ [Entry c tt])) ->
  every_run (defer (invoke ext c) body) Q.
Proof.
  intros Hb HQ.
  apply (every_run_defer _ _ Qb (fun _ t => t = [Entry c tt])); [exact Hb| |].
  - apply every_run_invoke. now intros [].
  - intros r t1 _ t2 Hq ->. now apply HQ.
Qed.

(** [db.Update]: the transaction is committed when, and only when, its
    body returned nil, and rolled back once it was opened. *)
Lemma every_run_Update (f : @M W error) (Qf Q : res error -> list entry -> Prop) :
  every_run f Qf ->
  (forall e, Q (Val (Some e)) [Entry BeginRw (Some e)]) ->
  (forall e t, Qf (Val (Some e)) t ->
     Q (Val (Some e)) (Entry BeginRw None :: t ++ [Entry Rollback tt])) ->
  (forall t c, Qf (Val None) t ->
     Q (Val c) (Entry BeginRw None :: t ++ [Entry Commit c; Entry Rollback tt])) ->
  (forall v t, Qf (Panicked v) t ->
     Q (Panicked v) (Entry BeginRw None :: t ++ [Entry Rollback tt])) ->
  (forall t, Qf OutOfFuel t -> Q OutOfFuel (Entry BeginRw None :: t ++ [Entry Rollback tt])) ->
  every_run (Update ext f) Q.
Proof.
  intros Hf Hbegin Herr Hok Hpanic Hfuel. unfold Update.
  apply every_run_call. intros [e|].
  - apply every_run_ret. apply Hbegin.
  - apply (every_run_defer_call _ _
             (fun r t => match r with
                         | Val (Some e) =>
                             (Qf (Val (Some e)) t) \/
                             (exists t0, Qf (Val None) t0 /\ t = t0 ++ [Entry Commit (Some e)])
                         | Val None => exists t0, Qf (Val None) t0 /\ t = t0 ++ [Entry Commit None]
                         | Panicked v => Qf (Panicked v) t
                         | OutOfFuel => Qf OutOfFuel t
                         end)).
    + apply (every_run_bind _ _ Qf); [exact Hf| | |]; try (intros; assumption).
      intros [e|] t1 Ht1.
      * apply every_run_ret. left. now rewrite app_nil_r.
      * apply every_run_invoke. intros [e|]; eauto.
    + intros [[e|]|v|] t Ht; cbn [app].
      * destruct Ht as [Ht|(t0 & Ht0 & ->)]; [now apply Herr|].
        rewrite <- app_assoc. now apply Hok.
      * destruct Ht as (t0 & Ht0 & ->). rewrite <- app_assoc. now apply Hok.
      * now apply Hpanic.
      * now apply Hfuel.
Qed.

(** [db.View]: rolled back once it was opened. *)
Lemma every_run_View {A} (f : @M W (A * error)) (zero : A)
    (Qf Q : res (A * error) -> list entry -> Prop) :
  every_run f Qf ->
  (forall e, Q (Val (zero, Some e)) [Entry BeginRo (Some e)]) ->
  (forall r t, Qf r t -> Q r (Entry BeginRo None :: t ++ [Entry Rollback tt])) ->
  every_run (View ext f zero) Q.
Proof.
  intros Hf Hbegin Hrun. unfold View.
  apply every_run_call. intros [e|].
  - apply every_run_ret. apply Hbegin.
  - apply (every_run_defer_call _ _ Qf); [exact Hf|]. intros r t Ht. cbn [app]. now apply Hrun.
Qed.

(** *** Calls a function never makes *)

Lemma only_weaken {A} (P P' : entry -> Prop) (m : @M W A) :
  only P m -> (forall x, P x -> P' x) -> only P' m.
Proof.
  intros Hm HP. apply (every_run_weaken _ _ _ Hm). intros _ t Ht.
  eapply Forall_impl; [exact Ht|exact HP].
Qed.

Lemma only_ret {A} P (a : A) : only P (ret a : @M W A).
Proof. apply every_run_ret. constructor. Qed.

Lemma only_panic {A} P v : only P (panic v : @M W A).
Proof. apply every_run_panic. constructor. Qed.

Lemma only_out_of_fuel {A} P : only P (out_of_fuel : @M W A).
Proof. apply every_run_out_of_fuel. constructor. Qed.

Lemma only_invoke {R} (P : entry -> Prop) (c : call R) :
  (forall r, P (Entry c r)) -> only P (invoke ext c).
Proof. intro Hc. apply every_run_invoke. intro r. now apply Forall_cons_2. Qed.

Lemma only_bind {A B} P (m : @M W A) (f : A -> @M W B) :
  only P m -> (forall a, only P (f a)) -> only P (bind m f).
Proof.
  intros Hm Hf. apply (every_run_bind _ _ (fun _ t => Forall P t)); [exact Hm | |auto|auto].
  intros a t1 Ht1. apply (every_run_weaken _ _ _ (Hf a)).
  intros _ t2 Ht2. now apply Forall_app_2.
Qed.

Lemma only_defer {A} P (d : @M W unit) (body : @M W A) :
  only P body -> only P d -> only P (defer d body).
Proof.
  intros Hb Hd. apply (every_run_defer _ _ _ _ _ Hb Hd).
  intros. now apply Forall_app_2.
Qed.

Lemma only_Update P (f : @M W error) :
  (forall e, P (Entry BeginRw e)) -> (forall e, P (Entry Commit e)) -> P (Entry Rollback tt) ->
  only P f -> only P (Update ext f).
Proof.
  intros Hb Hc Hr Hf. unfold Update.
  apply only_bind; [now apply only_invoke|]. intros [e|]; [apply only_ret|].
  apply only_defer; [|apply only_invoke; now intros []].
  apply only_bind; [exact Hf|]. intros [e|]; [apply only_ret | now apply only_invoke].
Qed.

Lemma only_View {A} P (f : @M W (A * error)) (zero : A) :
  (forall e, P (Entry BeginRo e)) -> P (Entry Rollback tt) ->
  only P f -> only P (View ext f zero).
Proof.
  intros Hb Hr Hf. unfold View.
  apply only_bind; [now apply only_invoke|]. intros [e|]; [apply only_ret|].
  apply only_defer; [exact Hf | apply only_invoke; now intros []].
Qed.

End EveryRun.

(** ** The [retire] command, whatever the world answers *)
Section RetireAny.
Import world runs snapshots trace.
Context {W : Type}.
Variable ext : forall R, call R -> W -> R * W.
Variable HistoryV3AggregationStep : N.

Local Abbreviation doRetireCommand := (doRetireCommand ext HistoryV3AggregationStep).
Local Abbreviation retire_history := (retire_history ext HistoryV3AggregationStep).
Local Abbreviation prune_history := (prune_history ext HistoryV3AggregationStep).

Lemma only_prune_blocks (P : entry -> Prop) n :
  (forall e, P (Entry PruneAncientBlocks e)) -> only P (prune_blocks ext n : @M W error).
Proof.
  intro HP. induction n as [|n IH]; cbn [prune_blocks]; [apply only_ret|].
  apply only_bind; [now apply only_invoke|]. intros [e|]; [apply only_ret | exact IH].
Qed.

Lemma only_retire_step_tx :
  only (fun x => is_block_work x = true) (retire_step_tx ext : @M W error).
Proof.
  unfold retire_step_tx.
  apply only_Update; try reflexivity.
  apply only_bind; [now apply only_invoke|]. intros snaps.
  apply only_bind; [now apply only_invoke|]. intros aggs.
  apply only_bind; [now apply only_invoke|]. intros [e|]; [apply only_ret|].
  apply only_bind; [now apply only_invoke|]. intros _.
  now apply only_prune_blocks.
Qed.

Lemma only_retire_loop (to every : N) (fuel : nat) : forall i,
  only (fun x => is_block_work x = true) (retire_loop ext fuel i to every : @M W error).
Proof.
  induction fuel as [|fuel IH]; intro i; cbn [retire_loop];
    destruct (i <? to); try apply only_ret; [apply only_out_of_fuel|].
  apply only_bind; [now apply only_invoke|]. intros [e|]; [apply only_panic|].
  apply only_bind; [apply only_retire_step_tx|]. intros [e|]; [apply only_ret | apply IH].
Qed.

Lemma only_prune_history n :
  only (fun x => is_history_phase x = true) (prune_history n : @M W error).
Proof.
  induction n as [|n IH]; cbn [snapshots.prune_history]; [apply only_ret|].
  apply only_bind; [|intros [e|]; [apply only_ret | exact IH]].
  apply only_Update; try reflexivity.
  apply only_bind; [now apply only_invoke | intros; now apply only_invoke].
Qed.

Lemma only_set_tx_num :
  only (fun x => is_history_phase x = true) (set_tx_num ext : @M W error).
Proof.
  unfold set_tx_num.
  apply only_bind; [|intros; apply only_ret].
  apply only_View; try reflexivity.
  apply only_bind; [now apply only_invoke|]. intros progress.
  apply only_bind; [now apply only_invoke|]. intros [lastTxNum [e|]]; [apply only_ret|].
  apply only_bind; [now apply only_invoke | intros; apply only_ret].
Qed.

Lemma only_retire_history :
  only (fun x => is_history_phase x = true) (retire_history : @M W error).
Proof.
  unfold snapshots.retire_history.
  apply only_bind; [now apply only_invoke|]. intros _.
  apply only_bind; [apply only_prune_history|]. intros [e|]; [apply only_ret|].
  apply only_bind; [now apply only_invoke|]. intros _.
  apply only_bind; [now apply only_invoke|]. intros [e|]; [apply only_ret|].
  apply only_bind; [apply only_set_tx_num|]. intros [e|]; [apply only_ret|].
  apply only_bind; [now apply only_invoke|]. intros _.
  apply only_bind; [now apply only_invoke|]. intros [e|]; [apply only_ret|].
  apply only_bind; [now apply only_invoke|]. intros [e|]; [apply only_ret|].
  apply only_bind; [now apply only_invoke|]. intros _.
  apply only_bind; [apply only_prune_history|]. intros [e|]; apply only_ret.
Qed.

(** What [retire] does between opening the store and closing it calls
    neither again. *)
Lemma only_retire_body (fuel : nat) (from to every : N) (P : entry -> Prop) :
  (forall x, is_block_work x = true -> P x) ->
  (forall x, is_history_phase x = true -> P x) ->
  (forall e, P (Entry ReopenWithDB e)) -> (forall e, P (Entry NewAggregator22 e)) ->
  (forall e, P (Entry AggReopenFiles e)) -> P (Entry AggSetWorkers tt) ->
  (forall h, P (Entry HistoryV3FromDB h)) ->
  only P
    (bind (invoke ext ReopenWithDB) (fun e : error => match e with Some _ => ret e | None =>
     bind (invoke ext NewAggregator22) (fun e : error => match e with Some _ => ret e | None =>
     bind (invoke ext AggReopenFiles) (fun e : error => match e with Some _ => ret e | None =>
     bind (invoke ext AggSetWorkers) (fun _ =>
     bind (invoke ext (LogInfo "Params")) (fun _ =>
     bind (retire_loop ext fuel from to every)
       (fun e : error => match e with Some _ => ret e | None =>
     bind (invoke ext HistoryV3FromDB) (fun history =>
     if negb history then ret None else retire_history) end))) end) end) end) : @M W error).
Proof.
  intros Hblock Hhist H1 H2 H3 H4 H5.
  apply only_bind; [now apply only_invoke|]. intros [e|]; [apply only_ret|].
  apply only_bind; [now apply only_invoke|]. intros [e|]; [apply only_ret|].
  apply only_bind; [now apply only_invoke|]. intros [e|]; [apply only_ret|].
  apply only_bind; [apply only_invoke; now intros []|]. intros _.
  apply only_bind; [apply only_invoke; intros r; now apply Hblock|]. intros _.
  apply only_bind; [exact (only_weaken _ _ _ (only_retire_loop to every fuel from) Hblock)|].
  intros [e|]; [apply only_ret|].
  apply only_bind; [now apply only_invoke|]. intros [|]; cbn [negb]; [|apply only_ret].
  exact (only_weaken _ _ _ only_retire_history Hhist).
Qed.

(** X14. In a run that ends, by return or by a panic, the store is opened
    once and closed once, as the last call but the final log line. When
    the store cannot be opened nothing else is called. *)
Theorem retire_closes_what_it_opened (fuel : nat) (from to every : N) (w : W) :
  (doRetireCommand fuel from to every w).1.1 <> OutOfFuel ->
  (exists v, (doRetireCommand fuel from to every w).1.1 = Panicked v
     /\ (doRetireCommand fuel from to every w).2
        = [Entry MustOpen (Some v); Entry (LogInfo "Retire Done") tt])
  \/ (exists body,
        (doRetireCommand fuel from to every w).2
        = Entry MustOpen None :: body ++ retire_epilogue
        /\ Forall (fun x => is_MustOpen x = false /\ is_DbClose x = false) body).
Proof.
  intros _.
  assert (Hrun : every_run (doRetireCommand fuel from to every) (fun r t =>
    (exists v, r = Panicked v
       /\ t = [Entry MustOpen (Some v); Entry (LogInfo "Retire Done") tt])
    \/ (exists body, t = Entry MustOpen None :: body ++ retire_epilogue
          /\ Forall (fun x => is_MustOpen x = false /\ is_DbClose x = false) body))).
  { unfold snapshots.doRetireCommand.
    apply (every_run_defer_call ext _ _ (fun r t =>
       (exists v, r = Panicked v /\ t = [Entry MustOpen (Some v)])
       \/ (exists body, t = Entry MustOpen None :: body ++ [Entry DbClose tt]
             /\ Forall (fun x => is_MustOpen x = false /\ is_DbClose x = false) body))).
    - apply every_run_call. intros [v|].
      + apply every_run_panic. eauto.
      + apply (every_run_defer_call ext _ _
                 (fun _ t => Forall (fun x => is_MustOpen x = false /\ is_DbClose x = false) t)).
        * apply only_retire_body; try (intros; split; reflexivity).
          -- intros [R c r] Hc. destruct c; try discriminate Hc; split; reflexivity.
          -- intros [R c r] Hc. destruct c; try discriminate Hc; split; reflexivity.
        * intros r t Ht. right. exists t. split; [reflexivity|exact Ht].
    - intros r t [(v & -> & ->)|(body & -> & Hbody)]; [left; eauto|].
      right. exists body. split; [|exact Hbody].
      cbn [app]. f_equal. rewrite <- app_assoc. reflexivity. }
  exact (Hrun w).
Qed.

Lemma after_failed_retire_app (t1 t2 : list entry) :
  after_failed_retire (t1 ++ t2)
  = match after_failed_retire t1 with
    | Some (x, post) => Some (x, post ++ t2)
    | None => after_failed_retire t2
    end.
Proof.
  induction t1 as [|[R c r] t1 IH]; [reflexivity|].
  destruct c; cbn [app after_failed_retire]; try exact IH.
  destruct r; [reflexivity | exact IH].
Qed.

Lemma after_failed_retire_none (t : list entry) :
  Forall (fun x => is_RetireBlocks x = false) t -> after_failed_retire t = None.
Proof.
  induction 1 as [|[R c r] t Hx _ IH]; [reflexivity|].
  destruct c; cbn [after_failed_retire]; try exact IH. discriminate Hx.
Qed.

Lemma stops_quiet {A} (m : @M W A) :
  only (fun x => is_RetireBlocks x = false) m -> every_run m stops_at_failed_retire.
Proof.
  intro Hm. apply (every_run_weaken _ _ _ Hm). intros r t Ht x post Hf.
  rewrite (after_failed_retire_none t Ht) in Hf. discriminate.
Qed.

(** Calls that are not [RetireBlocks], then a function that stops at a
    failed [RetireBlocks]. *)
Lemma stops_quiet_bind {A B} (m : @M W A) (f : A -> @M W B) :
  only (fun x => is_RetireBlocks x = false) m ->
  (forall a, every_run (f a) stops_at_failed_retire) ->
  every_run (bind m f) stops_at_failed_retire.
Proof.
  intros Hm Hf.
  apply (every_run_bind _ _ (fun _ t => Forall (fun x => is_RetireBlocks x = false) t));
    [exact Hm | | |].
  - intros a t1 Ht1. apply (every_run_weaken _ _ _ (Hf a)). intros r t2 Hs x post.
    rewrite after_failed_retire_app, (after_failed_retire_none t1 Ht1). apply Hs.
  - intros v t1 Ht1 x post. rewrite (after_failed_retire_none t1 Ht1). discriminate.
  - intros t1 Ht1 x post. rewrite (after_failed_retire_none t1 Ht1). discriminate.
Qed.

(** A function that stops at a failed [RetireBlocks], then calls that are
    not [RetireBlocks]. *)
Lemma stops_bind_quiet {A B} (m : @M W A) (f : A -> @M W B) :
  every_run m stops_at_failed_retire ->
  (forall a, only (fun x => is_RetireBlocks x = false) (f a)) ->
  every_run (bind m f) stops_at_failed_retire.
Proof.
  intros Hm Hf. apply (every_run_bind _ _ stops_at_failed_retire); [exact Hm | | |].
  - intros a t1 Hs. apply (every_run_weaken _ _ _ (Hf a)). intros r t2 Ht2 x post.
    rewrite after_failed_retire_app.
    destruct (after_failed_retire t1) as [[x1 post1]|] eqn:Ht1.
    + now destruct (Hs x1 post1 Ht1).
    + rewrite (after_failed_retire_none t2 Ht2). discriminate.
  - intros v t1 Hs x post Hfail. destruct (Hs x post Hfail) as [[= ->] ->]. auto.
  - intros t1 Hs x post Hfail. now destruct (Hs x post Hfail).
Qed.

Lemma retire_step_tx_no_retire :
  only (fun x => is_RetireBlocks x = false) (retire_step_tx ext : @M W error).
Proof.
  unfold retire_step_tx.
  apply only_Update; try reflexivity.
  apply only_bind; [now apply only_invoke|]. intros snaps.
  apply only_bind; [now apply only_invoke|]. intros aggs.
  apply only_bind; [now apply only_invoke|]. intros [e|]; [apply only_ret|].
  apply only_bind; [now apply only_invoke|]. intros _.
  now apply only_prune_blocks.
Qed.

Lemma retire_loop_stops (to every : N) (fuel : nat) : forall i,
  every_run (retire_loop ext fuel i to every : @M W error) stops_at_failed_retire.
Proof.
  induction fuel as [|fuel IH]; intro i; cbn [retire_loop]; destruct (i <? to);
    try (apply every_run_ret; intros x post; discriminate).
  { apply every_run_out_of_fuel. intros x post. discriminate. }
  apply every_run_call. intros [x|].
  - apply every_run_panic. intros x' post [= <- <-]. auto.
  - apply (every_run_weaken _ (fun r t => stops_at_failed_retire r t));
      [|intros r t Hs x post Hf; exact (Hs x post Hf)].
    apply stops_quiet_bind; [apply retire_step_tx_no_retire|].
    intros [e|]; [|apply IH].
    apply every_run_ret. intros x post. discriminate.
Qed.

(** X15. An error of [RetireBlocks] ends the run in a panic that carries it:
    nothing is called after the failure but the deferred closing of the
    store and the final log line, and no error is returned. *)
Theorem retire_failure_panics (fuel : nat) (from to every : N) (w : W) (x : err)
    (post : list entry) :
  after_failed_retire (doRetireCommand fuel from to every w).2 = Some (x, post) ->
  (doRetireCommand fuel from to every w).1.1 = Panicked (PanicErr x)
  /\ post = retire_epilogue.
Proof.
  revert x post.
  assert (Hrun : every_run (doRetireCommand fuel from to every) (fun r t =>
    forall x post, after_failed_retire t = Some (x, post) ->
      r = Panicked (PanicErr x) /\ post = retire_epilogue)); [|exact (Hrun w)].
  unfold snapshots.doRetireCommand.
  apply (every_run_defer_call ext _ _ (fun r t =>
    forall x post, after_failed_retire t = Some (x, post) ->
      r = Panicked (PanicErr x) /\ post = [Entry DbClose tt])).
  - apply every_run_call. intros [v|].
    + apply every_run_panic. intros x post. discriminate.
    + apply (every_run_defer_call ext _ _ stops_at_failed_retire).
      * apply stops_quiet_bind; [now apply only_invoke|].
        intros [e|]; [apply stops_quiet, only_ret|].
        apply stops_quiet_bind; [now apply only_invoke|].
        intros [e|]; [apply stops_quiet, only_ret|].
        apply stops_quiet_bind; [now apply only_invoke|].
        intros [e|]; [apply stops_quiet, only_ret|].
        apply stops_quiet_bind; [now apply only_invoke|]. intros _.
        apply stops_quiet_bind; [now apply only_invoke|]. intros _.
        apply stops_bind_quiet; [apply retire_loop_stops|].
        intros [e|]; [apply only_ret|].
        apply only_bind; [now apply only_invoke|]. intros [|]; cbn [negb]; [|apply only_ret].
        apply (only_weaken _ _ _ only_retire_history).
        intros [R c r] Hc. destruct c; try discriminate Hc; reflexivity.
      * intros r t Hs x post. cbn [after_failed_retire]. rewrite after_failed_retire_app.
        destruct (after_failed_retire t) as [[x1 post1]|] eqn:Ht1; [|discriminate].
        intros [= <- <-].
        first [destruct (Hs x1 post1 Ht1) as [-> ->] | destruct (Hs x1 post1 eq_refl) as [-> ->]].
        auto.
  - intros r t Hs x post. rewrite after_failed_retire_app.
    destruct (after_failed_retire t) as [[x1 post1]|] eqn:Ht1; [|discriminate].
    intros [= <- <-].
        first [destruct (Hs x1 post1 Ht1) as [-> ->] | destruct (Hs x1 post1 eq_refl) as [-> ->]].
        auto.
Qed.

Lemma gated_quiet {A} (m : @M W A) :
  only (fun x => is_history_work x = false) m -> every_run m history_gated.
Proof. intro Hm. apply (every_run_weaken _ _ _ Hm). intros r t Ht _. exact Ht. Qed.

Lemma gated_app {A} (r : res A) (t1 t2 : list entry) :
  Forall (fun x => is_history_work x = false) t1 ->
  history_gated r t2 -> history_gated r (t1 ++ t2).
Proof.
  intros Ht1 Hg. unfold history_gated. rewrite existsb_app. intro Hoff.
  apply orb_false_iff in Hoff as [_ Hoff]. apply Forall_app_2; auto.
Qed.

Lemma gated_quiet_bind {A B} (m : @M W A) (f : A -> @M W B) :
  only (fun x => is_history_work x = false) m ->
  (forall a, every_run (f a) history_gated) ->
  every_run (bind m f) history_gated.
Proof.
  intros Hm Hf.
  apply (every_run_bind _ _ (fun _ t => Forall (fun x => is_history_work x = false) t));
    [exact Hm | | |].
  - intros a t1 Ht1. apply (every_run_weaken _ _ _ (Hf a)). intros r t2. now apply gated_app.
  - intros v t1 Ht1 _. exact Ht1.
  - intros t1 Ht1 _. exact Ht1.
Qed.

(** X16. No history file is pruned, indexed, built or merged, and the
    aggregator is given no transaction, unless the store answered that
    state history is enabled. *)
Theorem retire_history_needs_flag (fuel : nat) (from to every : N) (w : W) :
  existsb history_on (doRetireCommand fuel from to every w).2 = false ->
  Forall (fun x => is_history_work x = false) (doRetireCommand fuel from to every w).2.
Proof.
  assert (Hrun : every_run (doRetireCommand fuel from to every) history_gated);
    [|exact (Hrun w)].
  unfold snapshots.doRetireCommand.
  assert (Hend : forall (r : res error) t c,
            history_gated r t -> is_history_work (Entry c tt) = false ->
            history_gated r (t ++ [Entry c tt])).
  { intros r t c Hg Hc. unfold history_gated. rewrite existsb_app. intro Hoff.
    apply orb_false_iff in Hoff as [Hoff _]. apply Forall_app_2; [auto|].
    now apply Forall_cons_2. }
  apply (every_run_defer_call ext _ _ history_gated); [|intros; now apply Hend].
  apply gated_quiet_bind; [now apply only_invoke|].
  intros [v|]; [apply gated_quiet, only_panic|].
  apply (every_run_defer_call ext _ _ history_gated); [|intros; now apply Hend].
  apply gated_quiet_bind; [now apply only_invoke|].
  intros [e|]; [apply gated_quiet, only_ret|].
  apply gated_quiet_bind; [now apply only_invoke|].
  intros [e|]; [apply gated_quiet, only_ret|].
  apply gated_quiet_bind; [now apply only_invoke|].
  intros [e|]; [apply gated_quiet, only_ret|].
  apply gated_quiet_bind; [now apply only_invoke|]. intros _.
  apply gated_quiet_bind; [now apply only_invoke|]. intros _.
  apply gated_quiet_bind.
  { apply (only_weaken _ _ _ (only_retire_loop to every fuel from)).
    intros [R c r] Hc. destruct c; try discriminate Hc; reflexivity. }
  intros [e|]; [apply gated_quiet, only_ret|].
  apply every_run_call. intros [|]; cbn [negb].
  - intros w' Hoff. discriminate Hoff.
  - apply every_run_ret. intros _. now apply Forall_cons_2.
Qed.

Lemma prune_blocks_runs n :
  every_run (prune_blocks ext n : @M W error) (fun r t =>
    existsb is_Commit t = false
    /\ (r = Val None -> t = repeat (Entry PruneAncientBlocks None) n)).
Proof.
  induction n as [|n IH]; cbn [prune_blocks].
  - apply every_run_ret. auto.
  - apply every_run_call. intros [e|].
    + apply every_run_ret. split; [reflexivity|discriminate].
    + apply (every_run_weaken _ _ _ IH). intros r t [Hc Ht]. split; [exact Hc|].
      intro Hr. cbn [repeat]. now rewrite (Ht Hr).
Qed.

(** X17. The transaction of a retire step is committed only after the file
    lists were written and all 10000 batches of ancient blocks pruned;
    the step returns nil only when it was committed. *)
Theorem retire_step_commits_only_whole (w : W) :
  (existsb is_Commit (retire_step_tx ext w).2 = true ->
     exists snaps aggs c,
       (retire_step_tx ext w).1.1 = Val c
       /\ (retire_step_tx ext w).2
          = [Entry BeginRw None; Entry SnapshotsFiles snaps; Entry AggFiles aggs;
             Entry (WriteSnapshots snaps aggs) None;
             Entry (LogInfo "prune blocks from db") tt]
            ++ repeat (Entry PruneAncientBlocks None) (N.to_nat 10000)
            ++ [Entry Commit c; Entry Rollback tt])
  /\ ((retire_step_tx ext w).1.1 = Val None ->
      existsb is_Commit (retire_step_tx ext w).2 = true).
Proof.
  assert (Hrun : every_run (retire_step_tx ext) (fun r t =>
    (existsb is_Commit t = true ->
       exists snaps aggs c,
         r = Val c
         /\ t = [Entry BeginRw None; Entry SnapshotsFiles snaps; Entry AggFiles aggs;
                 Entry (WriteSnapshots snaps aggs) None;
                 Entry (LogInfo "prune blocks from db") tt]
                ++ repeat (Entry PruneAncientBlocks None) (N.to_nat 10000)
                ++ [Entry Commit c; Entry Rollback tt])
    /\ (r = Val None -> existsb is_Commit t = true))).
  { unfold retire_step_tx.
    apply (every_run_Update ext _ (fun r t =>
      existsb is_Commit t = false
      /\ (r = Val None ->
           exists snaps aggs,
             t = [Entry SnapshotsFiles snaps; Entry AggFiles aggs;
                  Entry (WriteSnapshots snaps aggs) None;
                  Entry (LogInfo "prune blocks from db") tt]
                 ++ repeat (Entry PruneAncientBlocks None) (N.to_nat 10000)))).
    - apply every_run_call. intros snaps. apply every_run_call. intros aggs.
      apply every_run_call. intros [e|].
      + apply every_run_ret. split; [reflexivity|discriminate].
      + apply every_run_call. intros [].
        apply (every_run_weaken _ _ _ (prune_blocks_runs (N.to_nat 10000))).
        intros r t [Hc Ht]. split; [exact Hc|]. intro Hr. exists snaps, aggs.
        now rewrite (Ht Hr).
    - intros e. split; [discriminate|discriminate].
    - intros e t [Hc _]. split; [|discriminate].
      cbn [existsb is_Commit orb]. rewrite existsb_app, Hc. discriminate.
    - intros t c [_ Ht]. destruct (Ht eq_refl) as (snaps & aggs & ->).
      split.
      + intros _. exists snaps, aggs, c. split; [reflexivity|].
        cbn [app]. reflexivity.
      + intros _. cbn [existsb is_Commit orb]. rewrite existsb_app.
        cbn [existsb is_Commit orb]. apply orb_true_r.
    - intros v t [Hc _]. split; [|discriminate].
      cbn [existsb is_Commit orb]. rewrite existsb_app, Hc. discriminate.
    - intros t [Hc _]. split; [|discriminate].
      cbn [existsb is_Commit orb]. rewrite existsb_app, Hc. discriminate. }
  exact (Hrun w).
Qed.

Lemma history_tx_runs :
  every_run (Update ext (bind (invoke ext AggSetTx) (fun _ =>
               invoke ext (AggPrune HistoryV3AggregationStep))) : @M W error)
    (fun r t =>
       (r = Val None /\ t = prune_history_tx HistoryV3AggregationStep)
       \/ exists e, r = Val (Some e) /\ t ∈ failed_history_tx HistoryV3AggregationStep e).
Proof.
  apply (every_run_Update ext _ (fun r t =>
    exists e', r = Val e'
      /\ t = [Entry AggSetTx tt; Entry (AggPrune HistoryV3AggregationStep) e'])).
  - apply every_run_call. intros []. apply every_run_invoke. eauto.
  - intros e. right. exists e. split; [reflexivity|]. unfold failed_history_tx. set_solver.
  - intros e t (e' & [= <-] & ->). right. exists e. split; [reflexivity|].
    unfold failed_history_tx. cbn [app]. set_solver.
  - intros t c (e' & [= <-] & ->). destruct c as [e|].
    + right. exists e. split; [reflexivity|]. unfold failed_history_tx. cbn [app]. set_solver.
    + left. split; reflexivity.
  - intros v t (e' & [=] & _).
  - intros t (e' & [=] & _).
Qed.

(** X18. State history is pruned in consecutive transactions. The first one
    that fails ends the phase, and its error is returned: the
    transactions before it stay committed, none is opened after it. Nil
    is returned only after all [n] transactions were committed. *)
Theorem prune_history_stops_at_failure (n : nat) (w : W) :
  let '(r, _, t) := prune_history n w in
  exists k tail,
    t = prune_history_phase HistoryV3AggregationStep k ++ tail
    /\ ((r = Val None /\ k = n /\ tail = [])
        \/ exists e, r = Val (Some e) /\ (k < n)%nat
                     /\ tail ∈ failed_history_tx HistoryV3AggregationStep e).
Proof.
  assert (Hrun : every_run (prune_history n) (fun r t =>
    exists k tail,
      t = prune_history_phase HistoryV3AggregationStep k ++ tail
      /\ ((r = Val None /\ k = n /\ tail = [])
          \/ exists e, r = Val (Some e) /\ (k < n)%nat
                       /\ tail ∈ failed_history_tx HistoryV3AggregationStep e))).
  { induction n as [|n IH]; cbn [snapshots.prune_history].
    - apply every_run_ret. exists 0%nat, []. split; [reflexivity|]. left. auto.
    - apply (every_run_bind _ _ _ _ history_tx_runs).
      + intros a t1 [[Ha ->]|(e & Ha & Ht1)]; injection Ha as ->.
        * apply (every_run_weaken _ _ _ IH). intros r t2 (k & tail & -> & Hk).
          exists (S k), tail. split.
          { unfold prune_history_phase. cbn [repeat concat]. now rewrite <- app_assoc. }
          destruct Hk as [(-> & -> & ->)|(e & -> & Hlt & Htail)]; [left; auto|].
          right. exists e. split; [reflexivity|]. split; [lia|exact Htail].
        * apply every_run_ret. exists 0%nat, t1. split; [now rewrite app_nil_r|].
          right. exists e. split; [reflexivity|]. split; [lia|exact Ht1].
      + intros v t1 [[[=] _]|(e' & [=] & _)].
      + intros t1 [[[=] _]|(e' & [=] & _)]. }
  specialize (Hrun w). destruct (prune_history n w) as [[r w'] t]. exact Hrun.
Qed.

End RetireAny.

(** ** Runs of [retire] that go wrong *)

(** Ranges of ten blocks from 0 to 30, the second of which cannot be
    retired. *)
Lemma retire_failure_panics_witness :
  (snapshots.doRetireCommand (runs.retire_fails 10) 3 5 0 30 10 tt).1.1
  = Panicked (PanicErr (ErrExt 1))
  /\ trace.retire_epilogue = trace.retire_epilogue.
Proof.
  apply (retire_failure_panics (runs.retire_fails 10) 3 5 0 30 10 tt (ErrExt 1)
           trace.retire_epilogue).
  vm_compute. reflexivity.
Defined.

(** One range, state history disabled. *)
Lemma retire_history_needs_flag_witness :
  Forall (fun x => runs.is_history_work x = false)
         (snapshots.doRetireCommand runs.history_off 3 5 0 10 10 tt).2.
Proof.
  apply (retire_history_needs_flag runs.history_off 3 5 0 10 10 tt).
  vm_compute. reflexivity.
Defined.

(** A step in which every call goes well. *)
Lemma retire_step_commits_only_whole_witness :
  exists snaps aggs c,
    (snapshots.retire_step_tx world.ok_world tt).1.1 = Val c
    /\ (snapshots.retire_step_tx world.ok_world tt).2
       = [world.Entry world.BeginRw None; world.Entry world.SnapshotsFiles snaps;
          world.Entry world.AggFiles aggs;
          world.Entry (world.WriteSnapshots snaps aggs) None;
          world.Entry (world.LogInfo "prune blocks from db") tt]
         ++ repeat (world.Entry world.PruneAncientBlocks None) (N.to_nat 10000)
         ++ [world.Entry world.Commit c; world.Entry world.Rollback tt].
Proof.
  apply (proj1 (retire_step_commits_only_whole world.ok_world tt)).
  vm_compute. reflexivity.
Defined.

(** One range of ten blocks in which every call goes well. *)
Lemma retire_closes_what_it_opened_witness :
  (exists v, (snapshots.doRetireCommand world.ok_world 3 5 0 10 10 tt).1.1 = Panicked v
     /\ (snapshots.doRetireCommand world.ok_world 3 5 0 10 10 tt).2
        = [world.Entry world.MustOpen (Some v);
           world.Entry (world.LogInfo "Retire Done") tt])
  \/ (exists body,
        (snapshots.doRetireCommand world.ok_world 3 5 0 10 10 tt).2
        = world.Entry world.MustOpen None :: body ++ trace.retire_epilogue
        /\ Forall (fun x => runs.is_MustOpen x = false /\ runs.is_DbClose x = false) body).
Proof.
  apply (retire_closes_what_it_opened world.ok_world 3 5 0 10 10 tt).
  vm_compute. discriminate.
Defined.

(** ** The [create] command, whatever the world answers *)
Section CreateAny.
Import world runs snapshots trace.
Context {W : Type}.
Variable ext : forall R, call R -> W -> R * W.
Variable FullImmutabilityThreshold : N.

Local Abbreviation doSnapshotCommand := (doSnapshotCommand ext FullImmutabilityThreshold).
Local Abbreviation snapshotBlocks := (snapshotBlocks ext FullImmutabilityThreshold).
Local Abbreviation selected_bound := (selected_bound FullImmutabilityThreshold).

Lemma uint64_sub_small a b : b <= a -> a < 2 ^ 64 -> sub64 a b = a - b.
Proof.
  intros Hba Ha. unfold sub64, uint64_mod.
  rewrite (N.mod_small b) by lia.
  replace (a + 2 ^ 64 - b) with (a - b + 1 * 2 ^ 64) by lia.
  rewrite N.Div0.mod_add. apply N.mod_small. lia.
Qed.

Lemma BigEndian_Uint64_lt k n : BigEndian_Uint64 k = Some n -> n < 2 ^ 64.
Proof.
  unfold BigEndian_Uint64.
  destruct k as [|b0 [|b1 [|b2 [|b3 [|b4 [|b5 [|b6 [|b7 k]]]]]]]]; try discriminate.
  intros [= <-]. cbn [fold_left].
  pose proof (Byte.to_N_bounded b0). pose proof (Byte.to_N_bounded b1).
  pose proof (Byte.to_N_bounded b2). pose proof (Byte.to_N_bounded b3).
  pose proof (Byte.to_N_bounded b4). pose proof (Byte.to_N_bounded b5).
  pose proof (Byte.to_N_bounded b6). pose proof (Byte.to_N_bounded b7).
  change (2 ^ 64) with 18446744073709551616. lia.
Qed.

Lemma BigEndian_Uint64_short k : BigEndian_Uint64 k = None <-> (length k < 8)%nat.
Proof.
  unfold BigEndian_Uint64.
  destruct k as [|b0 [|b1 [|b2 [|b3 [|b4 [|b5 [|b6 [|b7 k]]]]]]]]; cbn [length];
    split; intro Hk; try reflexivity; try lia; discriminate.
Qed.

(** The arithmetic of [lastChunk] on 64-bit numbers never wraps: the
    bound is the last number less the margin, rounded down to a multiple
    of the segment size. *)
Lemma lastChunk_bound (n blocksPerFile : N) :
  n < 2 ^ 64 -> blocksPerFile <> 0 ->
  let last := if FullImmutabilityThreshold <? n
              then sub64 n FullImmutabilityThreshold else 0 in
  let bound := sub64 last (last mod blocksPerFile) in
  bound = selected_bound n blocksPerFile
  /\ bound mod blocksPerFile = 0
  /\ bound <= n - FullImmutabilityThreshold < bound + blocksPerFile.
Proof.
  intros Hn Hbpf last bound.
  assert (Hlast : last = n - FullImmutabilityThreshold).
  { subst last. destruct (FullImmutabilityThreshold <? n) eqn:Hthr.
    - apply N.ltb_lt in Hthr. apply uint64_sub_small; lia.
    - apply N.ltb_ge in Hthr. lia. }
  clearbody last. subst last.
  remember (n - FullImmutabilityThreshold) as x eqn:Ex.
  pose proof (N.mod_upper_bound x blocksPerFile Hbpf).
  pose proof (N.div_mod x blocksPerFile Hbpf).
  pose proof (N.Div0.mod_le x blocksPerFile).
  assert (Hx : x < 2 ^ 64) by lia.
  assert (Hb : bound = blocksPerFile * (x / blocksPerFile)).
  { subst bound. rewrite uint64_sub_small by assumption. lia. }
  rewrite Hb. unfold trace.selected_bound. rewrite <- Ex.
  split; [reflexivity|]. split; [rewrite N.mul_comm; apply N.Div0.mod_mul|].
  clear Hb. clearbody bound. clear bound.
  generalize dependent (x / blocksPerFile). generalize dependent (x mod blocksPerFile).
  intros m Hm Hle q Hq. nia.
Qed.

(** X20. Whatever [snapshotBlocks] hands to [DumpBlocks] starts at [fromBlock]
    and ends at [toBlock] if that is positive; otherwise at the number in
    the last key of the block bodies less the reorg margin, rounded down
    to a multiple of the segment size: a block within the margin is never
    dumped. *)
Theorem snapshotBlocks_dump_bound (fromBlock toBlock blocksPerFile : N) (w : W) :
  blocksPerFile <> 0 ->
  let t := (snapshotBlocks fromBlock toBlock blocksPerFile w).2 in
  Forall (fun x => forall from to per, dumped x = Some (from, to, per) ->
            from = fromBlock /\ per = blocksPerFile
            /\ if 0 <? toBlock then to = toBlock
               else exists k n, omap last_key t = [k] /\ BigEndian_Uint64 k = Some n
                      /\ to = selected_bound n blocksPerFile
                      /\ to mod blocksPerFile = 0
                      /\ to <= n - FullImmutabilityThreshold < to + blocksPerFile) t.
Proof.
  intros Hbpf.
  unfold snapshots.snapshotBlocks, snapshots.lastChunk, View, defer, bind, invoke, ret, panic.
  destruct (0 <? toBlock).
  - repeat answer ext. destruct r; cbn;
      repeat first [apply Forall_nil_2 | apply Forall_cons_2];
      intros from to per Hd; cbn in Hd; try discriminate Hd;
      injection Hd as <- <- <-; auto.
  - destruct (blocksPerFile =? 0) eqn:E0; [apply N.eqb_eq in E0; contradiction|].
    repeat
      (first
         [ answer ext
         | match goal with
           | |- context [match ?x with Some _ => _ | None => _ end] => is_var x; destruct x
           | |- context [BigEndian_Uint64 ?k] =>
               let E := fresh "Hkey" in destruct (BigEndian_Uint64 k) eqn:E
           | |- context [let '(_, _) := ?x in _] => is_var x; destruct x
           end ];
       cbn [app fst snd]).
    all: cbn; repeat first [apply Forall_nil_2 | apply Forall_cons_2];
      intros from to per Hd; cbn in Hd; try discriminate Hd;
      injection Hd as <- <- <-.
    all: split; [reflexivity|]; split; [reflexivity|].
    all: match goal with
         | Hkey : BigEndian_Uint64 ?k = Some ?n |- _ =>
             exists k, n; split; [reflexivity|]; split; [exact Hkey|];
             apply lastChunk_bound; [exact (BigEndian_Uint64_lt _ _ Hkey) | exact Hbpf]
         end.
Qed.

Lemma only_snapshotBlocks (P : entry -> Prop) (fromBlock toBlock blocksPerFile : N) :
  (forall e, P (Entry BeginRo e)) -> P (Entry Rollback tt) ->
  (forall e, P (Entry CursorBlockBody e)) -> (forall r, P (Entry CursorLast r)) ->
  (forall m, P (Entry (LogInfo m) tt)) ->
  (forall from to per e, P (Entry (DumpBlocks from to per) e)) ->
  only P (snapshotBlocks fromBlock toBlock blocksPerFile).
Proof.
  intros H1 H2 H3 H4 H5 H6. unfold snapshots.snapshotBlocks.
  apply only_bind.
  - destruct (0 <? toBlock); [apply only_ret|].
    apply only_View; [assumption|assumption|]. unfold lastChunk.
    apply only_bind; [now apply only_invoke|]. intros [e|]; [apply only_ret|].
    apply only_bind; [now apply only_invoke|]. intros [k [e|]]; [apply only_ret|].
    destruct (BigEndian_Uint64 k); [|apply only_panic].
    destruct (blocksPerFile =? 0); [apply only_panic | apply only_ret].
  - intros [last [e|]]; [apply only_ret|].
    apply only_bind; [apply only_invoke; now intros []|]. intros _.
    apply only_bind; [now apply only_invoke|]. intros [e|]; apply only_ret.
Qed.

Lemma every_run_must {B} (c : call (option panic_value)) (f : unit -> @M W B)
    (Q : res B -> list entry -> Prop) :
  (forall v, Q (Panicked v) [Entry c (Some v)]) ->
  every_run (f tt) (fun r t => Q r (Entry c None :: t)) ->
  every_run (bind (must ext c) f) Q.
Proof.
  intros Hp Hf.
  apply (every_run_bind _ _ (fun r t =>
           (r = Val tt /\ t = [Entry c None])
           \/ exists v, r = Panicked v /\ t = [Entry c (Some v)])).
  - unfold must. apply every_run_call. intros [v|].
    + apply every_run_panic. eauto.
    + apply every_run_ret. auto.
  - intros [] t1 [[_ ->]|(v & [=] & _)]. exact Hf.
  - intros v t1 [[[=] _]|(v' & [= <-] & ->)]. apply Hp.
  - intros t1 [[[=] _]|(v' & [=] & _)].
Qed.

(** X21. [create] closes the store when, and only when, it opened it: as the
    last call of the run, whether it returns or panics. Where the store
    was not opened the segment size was too small, or a directory or the
    store itself could not be had and the run panics with that value. *)
Theorem create_closes_what_it_opened (fromBlock toBlock segmentSize : N) (w : W) :
  let '(r, _, t) := doSnapshotCommand fromBlock toBlock segmentSize w in
  if existsb opened t
  then exists body,
         t = [Entry (MustExist Snap) None; Entry (MustExist SnapHistory) None;
              Entry (MustExist Tmp) None; Entry MustOpen None]
             ++ body ++ [Entry DbClose tt]
         /\ Forall (fun x => is_MustOpen x = false /\ is_DbClose x = false) body
  else Forall (fun x => is_DbClose x = false) t
       /\ (r = Val (Some (too_small segmentSize))
           \/ exists v, r = Panicked v /\ omap panic_of t = [v]).
Proof.
  assert (Hrun : every_run (doSnapshotCommand fromBlock toBlock segmentSize) (fun r t =>
    if existsb opened t
    then exists body,
           t = [Entry (MustExist Snap) None; Entry (MustExist SnapHistory) None;
                Entry (MustExist Tmp) None; Entry MustOpen None]
               ++ body ++ [Entry DbClose tt]
           /\ Forall (fun x => is_MustOpen x = false /\ is_DbClose x = false) body
    else Forall (fun x => is_DbClose x = false) t
         /\ (r = Val (Some (too_small segmentSize))
             \/ exists v, r = Panicked v /\ omap panic_of t = [v]))).
  { unfold snapshots.doSnapshotCommand. destruct (segmentSize <? 1000).
    { apply every_run_ret. cbn. split; [constructor|auto]. }
    apply every_run_must; [intro v; cbn; split; [repeat constructor|eauto]|].
    apply every_run_must; [intro v; cbn; split; [repeat constructor|eauto]|].
    apply every_run_must; [intro v; cbn; split; [repeat constructor|eauto]|].
    apply every_run_must; [intro v; cbn; split; [repeat constructor|eauto]|].
    apply (every_run_defer_call ext _ _
             (fun _ t => Forall (fun x => is_MustOpen x = false /\ is_DbClose x = false) t)).
    - apply only_bind.
      { apply only_snapshotBlocks; intros; split; reflexivity. }
      intros [x|].
      + apply only_bind; [apply only_invoke; intros; split; reflexivity|]. intros _.
        apply only_bind; [apply only_invoke; intros; split; reflexivity|].
        intros [e|]; [apply only_ret|].
        apply only_bind; [apply only_invoke; intros; split; reflexivity|].
        intros [e|]; [apply only_ret|].
        apply only_bind; [apply only_invoke; intros; split; reflexivity|].
        intros [e|]; [apply only_ret|].
        apply only_bind; [apply only_invoke; intros; split; reflexivity|]. intros _.
        apply only_Update; try (intros; split; reflexivity).
        apply only_bind; [apply only_invoke; intros; split; reflexivity|]. intros snaps.
        apply only_bind; [apply only_invoke; intros; split; reflexivity|]. intros aggs.
        apply only_invoke; intros; split; reflexivity.
      + apply only_bind; [apply only_ret|]. intros _.
        apply only_bind; [apply only_invoke; intros; split; reflexivity|].
        intros [e|]; [apply only_ret|].
        apply only_bind; [apply only_invoke; intros; split; reflexivity|].
        intros [e|]; [apply only_ret|].
        apply only_bind; [apply only_invoke; intros; split; reflexivity|].
        intros [e|]; [apply only_ret|].
        apply only_bind; [apply only_invoke; intros; split; reflexivity|]. intros _.
        apply only_Update; try (intros; split; reflexivity).
        apply only_bind; [apply only_invoke; intros; split; reflexivity|]. intros snaps.
        apply only_bind; [apply only_invoke; intros; split; reflexivity|]. intros aggs.
        apply only_invoke; intros; split; reflexivity.
    - intros r t Ht. cbn. exists t. split; [reflexivity|exact Ht]. }
  specialize (Hrun w).
  destruct (doSnapshotCommand fromBlock toBlock segmentSize w) as [[r w'] t]. exact Hrun.
Qed.

(** X22. A panic of [create] carries the value with which a directory or the
    store could not be had, or it is the index error of reading a number
    out of a last key that is shorter than eight bytes. In particular
    [create] never divides by zero. *)
Theorem create_panic_sources (fromBlock toBlock segmentSize : N) (w : W) (v : panic_value) :
  (doSnapshotCommand fromBlock toBlock segmentSize w).1.1 = Panicked v ->
  omap panic_of (doSnapshotCommand fromBlock toBlock segmentSize w).2 = [v]
  \/ (v = PanicStr "index out of range" /\ toBlock = 0
      /\ exists k, omap last_key (doSnapshotCommand fromBlock toBlock segmentSize w).2 = [k]
                   /\ (length k < 8)%nat).
Proof.
  revert v.
  unfold snapshots.doSnapshotCommand, snapshots.snapshotBlocks, snapshots.lastChunk,
    must, Update, View, defer, bind, invoke, ret, panic.
  destruct (segmentSize <? 1000) eqn:Hseg; [intros v; discriminate|].
  assert (Hz : (segmentSize =? 0) = false).
  { apply N.ltb_ge in Hseg. apply N.eqb_neq. lia. }
  rewrite Hz.
  destruct (0 <? toBlock) eqn:Hto.
  all: repeat
    (first
       [ answer ext
       | match goal with
         | |- context [match ?x with Some _ => _ | None => _ end] => is_var x; destruct x
         | |- context [BigEndian_Uint64 ?k] =>
             let E := fresh "Hkey" in destruct (BigEndian_Uint64 k) eqn:E
         | |- context [let '(_, _) := ?x in _] => is_var x; destruct x
         end ];
     cbn [app fst snd]).
  all: cbn; intros v' Hv; try discriminate Hv; injection Hv as <-.
  all: try (left; reflexivity).
  all: right; split; [reflexivity|]; split; [apply N.ltb_ge in Hto; lia|].
  all: eexists; split; [reflexivity|]; now apply BigEndian_Uint64_short.
Qed.

(** X23. A last key of fewer than eight bytes, as an empty table of block
    bodies gives it, makes [create] panic: nothing is dumped, and the
    store is closed. *)
Theorem create_short_last_key_panics (fromBlock toBlock segmentSize : N) (w : W)
    (k : list byte) :
  omap last_key (doSnapshotCommand fromBlock toBlock segmentSize w).2 = [k] ->
  (length k < 8)%nat ->
  (doSnapshotCommand fromBlock toBlock segmentSize w).1.1
  = Panicked (PanicStr "index out of range")
  /\ existsb is_DumpBlocks (doSnapshotCommand fromBlock toBlock segmentSize w).2 = false
  /\ last (doSnapshotCommand fromBlock toBlock segmentSize w).2 = Some (Entry DbClose tt).
Proof.
  intros Hk Hlen. revert Hk. apply BigEndian_Uint64_short in Hlen.
  unfold snapshots.doSnapshotCommand, snapshots.snapshotBlocks, snapshots.lastChunk,
    must, Update, View, defer, bind, invoke, ret, panic.
  destruct (segmentSize <? 1000) eqn:Hseg; [discriminate|].
  destruct (0 <? toBlock) eqn:Hto.
  all: repeat
    (first
       [ answer ext
       | match goal with
         | |- context [match ?x with Some _ => _ | None => _ end] => is_var x; destruct x
         | |- context [BigEndian_Uint64 ?k] =>
             let E := fresh "Hkey" in destruct (BigEndian_Uint64 k) eqn:E
         | |- context [if ?b then _ else _] => destruct b
         | |- context [let '(_, _) := ?x in _] => is_var x; destruct x
         end ];
     cbn [app fst snd]).
  all: cbn; intros Hk; try discriminate Hk; injection Hk as <-.
  all: try congruence.
  all: auto.
Qed.

End CreateAny.

(** ** Runs of [create] without an upper bound *)

(** The last block is 200000, the margin 90000 and a segment holds 1000
    blocks: the dump ends at 110000. *)
Lemma snapshotBlocks_dump_bound_witness :
  let key := [x00; x00; x00; x00; x00; x03; x0d; x40] in
  let t := (snapshots.snapshotBlocks (runs.last_key_is key) 90000 0 0 1000 tt).2 in
  Forall (fun x => forall from to per, runs.dumped x = Some (from, to, per) ->
            from = 0 /\ per = 1000
            /\ exists k n, omap runs.last_key t = [k]
                 /\ snapshots.BigEndian_Uint64 k = Some n
                 /\ to = trace.selected_bound 90000 n 1000
                 /\ to mod 1000 = 0
                 /\ to <= n - 90000 < to + 1000) t.
Proof.
  intros key t.
  apply (snapshotBlocks_dump_bound (runs.last_key_is key) 90000 0 0 1000 tt).
  discriminate.
Defined.

(** An empty table of block bodies: the last key is empty. *)
Lemma create_short_last_key_panics_witness :
  (snapshots.doSnapshotCommand world.ok_world 90000 0 0 1000 tt).1.1
  = Panicked (PanicStr "index out of range")
  /\ existsb runs.is_DumpBlocks (snapshots.doSnapshotCommand world.ok_world 90000 0 0 1000 tt).2
     = false
  /\ last (snapshots.doSnapshotCommand world.ok_world 90000 0 0 1000 tt).2
     = Some (world.Entry world.DbClose tt).
Proof.
  apply (create_short_last_key_panics world.ok_world 90000 0 0 1000 tt []).
  - reflexivity.
  - cbn. lia.
Defined.

(** The same run: the panic is the index error, no directory or store
    was missing. *)
Lemma create_panic_sources_witness :
  omap runs.panic_of (snapshots.doSnapshotCommand world.ok_world 90000 0 0 1000 tt).2
  = [PanicStr "index out of range"]
  \/ (PanicStr "index out of range" = PanicStr "index out of range" /\ (0 : N) = 0
      /\ exists k,
           omap runs.last_key (snapshots.doSnapshotCommand world.ok_world 90000 0 0 1000 tt).2
           = [k]
           /\ (length k < 8)%nat).
Proof.
  apply (create_panic_sources world.ok_world 90000 0 0 1000 tt (PanicStr "index out of range")).
  reflexivity.
Defined.

(** ** The [index] command *)
Section Index.
Import world runs snapshots.
Context {W : Type}.
Variable ext : forall R, call R -> W -> R * W.
Variable ChainID : W -> option panic_value * W.
Variable LogStat : W -> W.
Variable SnapBuildMissedIndices : W -> error * W.

Local Abbreviation doIndicesCommand :=
  (index.doIndicesCommand ext ChainID LogStat SnapBuildMissedIndices).

(** Unfold the command and answer its calls one by one. *)
Local Ltac run_index :=
  unfold index.doIndicesCommand, index.rebuildIndices, index.silent,
    must, defer, bind, invoke, ret, panic;
  repeat
    (first
       [ answer ext
       | match goal with
         | |- context [ChainID ?w] =>
             let v := fresh "v" in destruct (ChainID w) as [v ?]
         | |- context [SnapBuildMissedIndices ?w] =>
             let e := fresh "e" in destruct (SnapBuildMissedIndices w) as [e ?]
         | |- context [match ?x with Some _ => _ | None => _ end] => is_var x; destruct x
         end ];
     cbn [app fst snd]).



End Index.


(** ** [retire] with a step of zero *)
Section EveryZero.
Import world runs snapshots trace.
Context {W : Type}.
Variable ext : forall R, call R -> W -> R * W.
Variable HistoryV3AggregationStep : N.

Local Abbreviation doRetireCommand := (doRetireCommand ext HistoryV3AggregationStep).

Lemma uint64_add_zero i : i < 2 ^ 64 -> add64 i 0 = i.
Proof. intro Hi. unfold add64, uint64_mod. rewrite N.add_0_r. now apply N.mod_small. Qed.

Lemma retire_loop_zero_never_nil (to : N) (fuel : nat) (i : N) :
  i < to -> to <= 2 ^ 64 ->
  every_run (retire_loop ext fuel i to 0 : @M W error) (fun r _ => r <> Val None).
Proof.
  intros Hi Hto. induction fuel as [|fuel IH]; cbn [retire_loop];
    rewrite (proj2 (N.ltb_lt i to) Hi).
  - now apply every_run_out_of_fuel.
  - apply every_run_call. intros [x|]; [now apply every_run_panic|].
    apply (every_run_bind _ _ (fun _ _ => True)); [intro; exact I | |discriminate|discriminate].
    intros [e|] t1 _; [now apply every_run_ret|].
    rewrite uint64_add_zero by lia.
    apply (every_run_weaken _ _ _ IH). auto.
Qed.

(** A call that goes well, in a world where all do. *)
Lemma every_run_call_ok {A B} (c : call (option A)) (f : option A -> @M W B)
    (Q : res B -> list entry -> Prop) :
  all_succeed ext -> succeeded c = (fun r => r = None) ->
  every_run (f None) (fun res t => Q res (Entry c None :: t)) ->
  every_run (bind (invoke ext c) f) Q.
Proof.
  intros Hok Hc Hf w. pose proof (Hok _ c w) as Hs. rewrite Hc in Hs.
  unfold bind. rewrite run_invoke, Hs. specialize (Hf (ext _ c w).2).
  destruct (f None _) as [[r w2] t2]. exact Hf.
Qed.

Lemma retire_loop_zero_stuck (to : N) (fuel : nat) (i : N) :
  all_succeed ext -> i < to -> to <= 2 ^ 64 ->
  every_run (retire_loop ext fuel i to 0 : @M W error) (fun r _ => r = OutOfFuel).
Proof.
  intros Hok Hi Hto. induction fuel as [|fuel IH]; cbn [retire_loop];
    rewrite (proj2 (N.ltb_lt i to) Hi).
  - now apply every_run_out_of_fuel.
  - apply every_run_call_ok; [assumption|reflexivity|].
    apply (every_run_bind _ _ (fun r _ => r = Val None)).
    + intro w. destruct (retire_step_tx_ok ext Hok w) as (snaps & aggs & [Hr _]). exact Hr.
    + intros a t1 [= ->]. rewrite uint64_add_zero by lia.
      apply (every_run_weaken _ _ _ IH). auto.
    + discriminate.
    + discriminate.
Qed.

(** X19. With [every = 0] and [from] below [to] the loop never gets past
    [from]: [retire] does not return nil, whatever the world answers, and
    where every call goes well it does not end at all: any amount of fuel
    is used up. *)
Theorem retire_every_zero_never_ends (fuel : nat) (from to : N) (w : W) :
  from < to -> to <= 2 ^ 64 ->
  (doRetireCommand fuel from to 0 w).1.1 <> Val None
  /\ (all_succeed ext -> (doRetireCommand fuel from to 0 w).1.1 = OutOfFuel).
Proof.
  intros Hft Hto. split.
  - assert (Hrun : every_run (doRetireCommand fuel from to 0) (fun r _ => r <> Val None));
      [|exact (Hrun w)].
    unfold snapshots.doRetireCommand.
    apply (every_run_defer_call ext _ _ (fun r _ => r <> Val None)); [|auto].
    apply every_run_call. intros [v|]; [now apply every_run_panic|].
    apply (every_run_defer_call ext _ _ (fun r _ => r <> Val None)); [|auto].
    apply every_run_call. intros [e|]; [now apply every_run_ret|].
    apply every_run_call. intros [e|]; [now apply every_run_ret|].
    apply every_run_call. intros [e|]; [now apply every_run_ret|].
    apply every_run_call. intros _. apply every_run_call. intros _.
    apply (every_run_bind _ _ _ _ (retire_loop_zero_never_nil to fuel from Hft Hto)).
    + intros [e|] t1 Hne; [now apply every_run_ret | contradiction].
    + discriminate.
    + discriminate.
  - intro Hok.
    assert (Hrun : every_run (doRetireCommand fuel from to 0) (fun r _ => r = OutOfFuel));
      [|exact (Hrun w)].
    unfold snapshots.doRetireCommand.
    apply (every_run_defer_call ext _ _ (fun r _ => r = OutOfFuel)); [|auto].
    apply every_run_call_ok; [assumption|reflexivity|].
    apply (every_run_defer_call ext _ _ (fun r _ => r = OutOfFuel)); [|auto].
    apply every_run_call_ok; [assumption|reflexivity|].
    apply every_run_call_ok; [assumption|reflexivity|].
    apply every_run_call_ok; [assumption|reflexivity|].
    apply every_run_call. intros _. apply every_run_call. intros _.
    apply (every_run_bind _ _ _ _ (retire_loop_zero_stuck to fuel from Hok Hft Hto)).
    + discriminate.
    + discriminate.
    + reflexivity.
Qed.

End EveryZero.

(** Blocks 0 to 30 with a step of zero. *)
Lemma retire_every_zero_never_ends_witness :
  (snapshots.doRetireCommand world.ok_world 3 2 0 30 0 tt).1.1 <> Val None
  /\ (world.all_succeed world.ok_world ->
      (snapshots.doRetireCommand world.ok_world 3 2 0 30 0 tt).1.1 = OutOfFuel).
Proof.
  apply (retire_every_zero_never_ends world.ok_world 3 2 0 30 tt).
  - reflexivity.
  - discriminate.
Defined.

(** ** The order of the history phases of [retire] *)
Section HistoryOrder.
Import world runs snapshots trace.
Context {W : Type}.
Variable ext : forall R, call R -> W -> R * W.
Variable HistoryV3AggregationStep : N.

Local Abbreviation doRetireCommand := (doRetireCommand ext HistoryV3AggregationStep).
Local Abbreviation retire_history := (retire_history ext HistoryV3AggregationStep).

Lemma built_before (pre t : list entry) :
  Forall (fun x => is_BuildFiles x = false) pre ->
  built_after_watermark t -> built_after_watermark (pre ++ t).
Proof.
  intros Hpre [Hnone|(t1 & p & e & n & r & t2 & -> & Ht1 & Hon)].
  - left. now apply Forall_app_2.
  - right. exists (pre ++ t1), p, e, n, r, t2. split; [now rewrite <- app_assoc|].
    split; [now apply Forall_app_2|].
    rewrite existsb_app, Hon. apply orb_true_r.
Qed.

Lemma built_then (t : list entry) (x : entry) :
  is_BuildFiles x = false ->
  built_after_watermark t -> built_after_watermark (t ++ [x]).
Proof.
  intros Hx [Hnone|(t1 & p & e & n & r & t2 & -> & Ht1 & Hon)].
  - left. apply Forall_app_2; [assumption | now apply Forall_cons_2].
  - right. exists t1, p, e, n, r, (t2 ++ [x]). split; [|auto].
    now rewrite <- !app_assoc.
Qed.

Lemma built_quiet_bind {A B} (m : @M W A) (f : A -> @M W B) :
  only (fun x => is_BuildFiles x = false) m ->
  (forall a, every_run (f a) (fun _ t => built_after_watermark t)) ->
  every_run (bind m f) (fun _ t => built_after_watermark t).
Proof.
  intros Hm Hf.
  apply (every_run_bind _ _ (fun _ t => Forall (fun x => is_BuildFiles x = false) t));
    [exact Hm | | |].
  - intros a t1 Ht1. apply (every_run_weaken _ _ _ (Hf a)). intros _ t2.
    now apply built_before.
  - intros v t1 Ht1. now left.
  - intros t1 Ht1. now left.
Qed.

Lemma built_quiet {A} (m : @M W A) :
  only (fun x => is_BuildFiles x = false) m ->
  every_run m (fun _ t => built_after_watermark t).
Proof. intro Hm. apply (every_run_weaken _ _ _ Hm). intros _ t Ht. now left. Qed.

Lemma doRetireCommand_built (fuel : nat) (from to every : N) :
  every_run (doRetireCommand fuel from to every) (fun _ t => built_after_watermark t).
Proof.
  unfold snapshots.doRetireCommand.
  apply (every_run_defer_call ext _ _ (fun _ t => built_after_watermark t));
    [|intros; now apply built_then].
  apply built_quiet_bind; [now apply only_invoke|].
  intros [v|]; [apply built_quiet, only_panic|].
  apply (every_run_defer_call ext _ _ (fun _ t => built_after_watermark t));
    [|intros; now apply built_then].
  apply built_quiet_bind; [now apply only_invoke|].
  intros [e|]; [apply built_quiet, only_ret|].
  apply built_quiet_bind; [now apply only_invoke|].
  intros [e|]; [apply built_quiet, only_ret|].
  apply built_quiet_bind; [now apply only_invoke|].
  intros [e|]; [apply built_quiet, only_ret|].
  apply built_quiet_bind; [now apply only_invoke|]. intros _.
  apply built_quiet_bind; [now apply only_invoke|]. intros _.
  apply built_quiet_bind.
  { apply (only_weaken _ _ _ (only_retire_loop ext to every fuel from)).
    intros [R c r] Hc. destruct c; try discriminate Hc; reflexivity. }
  intros [e|]; [apply built_quiet, only_ret|].
  apply every_run_call. intros [|]; cbn [negb].
  - intro w. pose proof (watermark_before_build ext HistoryV3AggregationStep w) as Hw.
    cbv zeta in Hw. destruct Hw as [Hnone|(t1 & p & e & n & r & t2 & Ht & Ht1)].
    + left. now apply Forall_cons_2.
    + right. exists (Entry HistoryV3FromDB true :: t1), p, e, n, r, t2.
      split; [cbn [app]; now rewrite Ht|]. split; [now apply Forall_cons_2|reflexivity].
  - apply every_run_ret. left. now apply Forall_cons_2.
Qed.

Lemma every_run_and {A} (m : @M W A) (Q1 Q2 : res A -> list entry -> Prop) :
  every_run m Q1 -> every_run m Q2 -> every_run m (fun r t => Q1 r t /\ Q2 r t).
Proof. intros H1 H2 w. split; [apply H1 | apply H2]. Qed.

Section AllGoWell.
Hypothesis Hok : all_succeed ext.

(** The loop over the sub-ranges returns nil or is still running. *)
Lemma retire_loop_goes_well (to every : N) (fuel : nat) : forall i,
  every_run (retire_loop ext fuel i to every : @M W error)
    (fun r _ => r = Val None \/ r = OutOfFuel).
Proof.
  induction fuel as [|fuel IH]; intro i; cbn [retire_loop]; destruct (i <? to);
    try (apply every_run_ret; now left).
  { apply every_run_out_of_fuel. now right. }
  apply every_run_call_ok; [assumption|reflexivity|].
  apply (every_run_bind _ _ (fun r _ => r = Val None)).
  - intro w. destruct (retire_step_tx_ok ext Hok w) as (snaps & aggs & [Hr _]). exact Hr.
  - intros a t1 [= ->]. apply (every_run_weaken _ _ _ (IH _)). auto.
  - discriminate.
  - discriminate.
Qed.

Lemma doRetireCommand_goes_well (fuel : nat) (from to every : N) :
  every_run (doRetireCommand fuel from to every) (fun r t =>
    r <> OutOfFuel ->
    r = Val None
    /\ exists steps (history : bool) p n,
         t = retire_prologue ++ steps ++ [Entry HistoryV3FromDB history]
             ++ (if history then history_phases HistoryV3AggregationStep p n else [])
             ++ retire_epilogue
         /\ Forall (fun x => is_history_work x = false) steps).
Proof.
  unfold snapshots.doRetireCommand.
  apply (every_run_defer_call ext _ _ (fun r t =>
    r <> OutOfFuel ->
    r = Val None
    /\ exists steps (history : bool) p n,
         t = retire_prologue ++ steps ++ [Entry HistoryV3FromDB history]
             ++ (if history then history_phases HistoryV3AggregationStep p n else [])
             ++ [Entry DbClose tt]
         /\ Forall (fun x => is_history_work x = false) steps)).
  2: { intros r t Hq Hr. destruct (Hq Hr) as (-> & steps & h & p & n & -> & Hsteps).
       split; [reflexivity|]. exists steps, h, p, n. split; [|exact Hsteps].
       unfold retire_epilogue. rewrite <- !app_assoc. reflexivity. }
  apply every_run_call_ok; [assumption|reflexivity|].
  apply (every_run_defer_call ext _ _ (fun r t =>
    r <> OutOfFuel ->
    r = Val None
    /\ exists steps (history : bool) p n,
         t = [Entry ReopenWithDB None; Entry NewAggregator22 None;
              Entry AggReopenFiles None; Entry AggSetWorkers tt;
              Entry (LogInfo "Params") tt]
             ++ steps ++ [Entry HistoryV3FromDB history]
             ++ (if history then history_phases HistoryV3AggregationStep p n else [])
         /\ Forall (fun x => is_history_work x = false) steps)).
  2: { intros r t Hq Hr. destruct (Hq Hr) as (-> & steps & h & p & n & -> & Hsteps).
       split; [reflexivity|]. exists steps, h, p, n. split; [|exact Hsteps].
       unfold retire_prologue. cbn [app]. rewrite <- !app_assoc. reflexivity. }
  apply every_run_call_ok; [assumption|reflexivity|].
  apply every_run_call_ok; [assumption|reflexivity|].
  apply every_run_call_ok; [assumption|reflexivity|].
  apply every_run_call. intros []. apply every_run_call. intros [].
  apply (every_run_bind _ _ (fun r t =>
           (r = Val None \/ r = OutOfFuel) /\ Forall (fun x => is_history_work x = false) t)).
  - apply every_run_and; [apply (retire_loop_goes_well to every fuel from)|].
    apply (only_weaken _ _ _ (only_retire_loop ext to every fuel from)).
    intros [R c r] Hc. destruct c; try discriminate Hc; reflexivity.
  - intros a steps [[[= ->]|[=]] Hsteps].
    apply every_run_call. intros [|]; cbn [negb].
    + intro w. destruct (retire_history_ok ext HistoryV3AggregationStep Hok w)
        as (p & n & [Hr Ht]).
      rewrite Hr, Ht. intros _. split; [reflexivity|].
      exists steps, true, p, n. split; [|exact Hsteps]. cbn [app]. reflexivity.
    + apply every_run_ret. intros _. split; [reflexivity|].
      exists steps, false, 0, 0. split; [|exact Hsteps].
      cbn [app]. rewrite ?app_nil_r. reflexivity.
  - intros v t1 [[[=]|[=]] _].
  - intros t1 _ Hr. contradiction.
Qed.

End AllGoWell.


End HistoryOrder.


